(** * GASP-python, module [general]: the pool of organisms and the stopping
    criteria, embedded shallowly.

    Python objects are mutable and compared by identity ([Organism] defines no
    [__eq__]), so an organism is a reference into a heap of organism records,
    and the pool's two containers hold references.  Floats are modelled as
    exact rationals ([Q]); comparisons are the ones the source writes.  A
    method that can raise returns a [result].  Printing, sorting the sites of
    a structure and writing POSCAR files are not modelled. *)

From Stdlib Require Import QArith Qpower Lqa ZArith Lia Permutation Sorting.Sorted.
From stdpp Require Import base decidable option strings functions list sorting.

Local Open Scope Q_scope.

(** ** Python exceptions and the error monad *)

Inductive exn : Type :=
  | IndexError
  | ValueError
  | ZeroDivisionError
  | AttributeError
  | KeyError
  | PhaseDiagramError
  | SystemExit.

Inductive result (A : Type) : Type :=
  | OK (a : A)
  | Raise (e : exn).
Arguments OK {A} a.
Arguments Raise {A} e.

#[global] Instance result_ret : MRet result := λ A a, OK a.
#[global] Instance result_bind : MBind result := λ A B k m,
  match m with
  | OK a => k a
  | Raise e => Raise e
  end.

Fixpoint foldlM {A S : Type} (f : S → A → result S) (s : S) (l : list A)
  : result S :=
  match l with
  | [] => OK s
  | a :: l' => s' ← f s a; foldlM f s' l'
  end.

(** ** Rational comparisons as booleans *)

Definition Qltb (a b : Q) : bool := negb (Qle_bool b a).
Definition Qleb (a b : Q) : bool := Qle_bool a b.
Definition Qeqb (a b : Q) : bool := Qeq_bool a b.

(** [a / b] on Python floats. *)
Definition py_div (a b : Q) : result Q :=
  if Qeqb b 0 then Raise ZeroDivisionError else OK (a / b).

(** ** Python list primitives *)

Section PyList.
Context {A : Type} `{EqDecision A}.

(** [x in l] *)
Definition py_in (x : A) (l : list A) : bool := bool_decide (x ∈ l).

(** [l.remove(x)]: drops the first occurrence, [ValueError] if there is
    none. *)
Fixpoint py_remove (x : A) (l : list A) : result (list A) :=
  match l with
  | [] => Raise ValueError
  | y :: l' =>
      if decide (x = y) then OK l'
      else l'' ← py_remove x l'; OK (y :: l'')
  end.

(** [l.index(x)] *)
Fixpoint py_index (x : A) (l : list A) : result nat :=
  match l with
  | [] => Raise ValueError
  | y :: l' =>
      if decide (x = y) then OK O
      else i ← py_index x l'; OK (S i)
  end.

(** [l.insert(i, x)] for [0 <= i] *)
Definition py_insert (i : nat) (x : A) (l : list A) : list A :=
  take i l ++ x :: drop i l.

(** [l[0]] and [l[-1]] *)
Definition py_first (l : list A) : result A :=
  match l with
  | [] => Raise IndexError
  | x :: _ => OK x
  end.

Definition py_last (l : list A) : result A :=
  match last l with
  | None => Raise IndexError
  | Some x => OK x
  end.

(** [l[s:]] with Python's treatment of a negative or too large start. *)
Definition py_slice_from (l : list A) (s : Z) : list A :=
  let len := Z.of_nat (length l) in
  let start := if (s <? 0)%Z then Z.max 0 (s + len) else Z.min s len in
  drop (Z.to_nat start) l.

(** [l.sort(key=..., reverse=...)]: Python's sort is stable, so its result
    is the one of stable insertion; [le x y] says that [x] may stand before
    [y]. *)
Fixpoint insert_by (le : A → A → bool) (x : A) (l : list A) : list A :=
  match l with
  | [] => [x]
  | y :: l' => if le x y then x :: y :: l' else y :: insert_by le x l'
  end.

Definition sort_by (le : A → A → bool) (l : list A) : list A :=
  foldr (insert_by le) [] l.
End PyList.

(** ** Organisms and the heap *)

Definition Composition : Type := string.

Record Organism : Type := mkOrganism {
  id : Z;
  composition : Composition;
  total_energy : Q;
  epa : Q;
  value : Q;
  fitness : Q;
  selection_prob : Q;
  selection_loc : Q;
  is_active : bool
}.

Abbreviation Ref := nat (only parsing).
Abbreviation Heap := (nat → Organism) (only parsing).

Definition with_value (v : Q) (o : Organism) : Organism :=
  mkOrganism (id o) (composition o) (total_energy o) (epa o) v (fitness o)
             (selection_prob o) (selection_loc o) (is_active o).

Definition with_fitness (f : Q) (o : Organism) : Organism :=
  mkOrganism (id o) (composition o) (total_energy o) (epa o) (value o) f
             (selection_prob o) (selection_loc o) (is_active o).

Definition with_selection (prob loc : Q) (o : Organism) : Organism :=
  mkOrganism (id o) (composition o) (total_energy o) (epa o) (value o)
             (fitness o) prob loc (is_active o).

Definition with_is_active (b : bool) (o : Organism) : Organism :=
  mkOrganism (id o) (composition o) (total_energy o) (epa o) (value o)
             (fitness o) (selection_prob o) (selection_loc o) b.

(** [r.field = x] on the heap *)
Definition update (h : Heap) (r : Ref) (f : Organism → Organism) : Heap :=
  <[r := f (h r)]> h.

Definition set_value (h : Heap) (r : Ref) (v : Q) : Heap :=
  update h r (with_value v).
Definition set_fitness (h : Heap) (r : Ref) (f : Q) : Heap :=
  update h r (with_fitness f).
Definition set_selection (h : Heap) (r : Ref) (prob loc : Q) : Heap :=
  update h r (with_selection prob loc).
Definition set_is_active (h : Heap) (r : Ref) (b : bool) : Heap :=
  update h r (with_is_active b).

(** ** Composition space and selection parameters *)

Inductive objective : Type := epa_objective | pd_objective.

Record CompositionSpace : Type := mkCompositionSpace {
  endpoints : list Composition;
  objective_function : objective
}.

Record SelectionProbDist : Type := mkSelectionProbDist {
  num_parents : Z;
  power : nat
}.

(** ** The pool *)

Record Pool : Type := mkPool {
  size : Z;
  num_promoted : Z;
  promotion_set : list nat;
  queue : list nat;          (* a deque; the head of the list is its left end *)
  selection : SelectionProbDist;
  num_adds : Z
}.

Definition with_promotion_set (ps : list Ref) (p : Pool) : Pool :=
  mkPool (size p) (num_promoted p) ps (queue p) (selection p) (num_adds p).
Definition with_queue (q : list Ref) (p : Pool) : Pool :=
  mkPool (size p) (num_promoted p) (promotion_set p) q (selection p)
         (num_adds p).
Definition with_num_adds (n : Z) (p : Pool) : Pool :=
  mkPool (size p) (num_promoted p) (promotion_set p) (queue p) (selection p) n.

Definition to_list (p : Pool) : list Ref := promotion_set p ++ queue p.

(** ** Queries on the pool *)

(** [Pool.get_worst_in_promotion_set] *)
Definition get_worst_in_promotion_set (h : Heap) (p : Pool) : result Ref :=
  worst_organism ← py_first (promotion_set p);
  OK (foldl (λ worst organism,
               if Qltb (value (h worst)) (value (h organism))
               then organism else worst)
            worst_organism (promotion_set p)).

(** [Pool.get_best_in_pool] *)
Definition get_best_in_pool (h : Heap) (p : Pool) : result Ref :=
  best_organism ← py_first (promotion_set p);
  OK (foldl (λ best organism,
               if Qltb (value (h organism)) (value (h best))
               then organism else best)
            best_organism (promotion_set p)).

(** [Pool.get_worst_in_pool] *)
Definition get_worst_in_pool (h : Heap) (p : Pool) : result Ref :=
  worst_organism ← py_first (queue p);
  OK (foldl (λ worst organism,
               if Qltb (value (h worst)) (value (h organism))
               then organism else worst)
            worst_organism (queue p)).

(** The orders given to [sort]: [key=value, reverse=True],
    [key=value, reverse=False] and [key=fitness, reverse=False]. *)
Definition by_decreasing_value (h : Heap) (x y : Ref) : bool :=
  Qleb (value (h y)) (value (h x)).
Definition by_increasing_value (h : Heap) (x y : Ref) : bool :=
  Qleb (value (h x)) (value (h y)).
Definition by_increasing_fitness (h : Heap) (x y : Ref) : bool :=
  Qleb (fitness (h x)) (fitness (h y)).

(** [Pool.get_n_best_organisms] *)
Definition get_n_best_organisms (h : Heap) (p : Pool) (n : Z) : list Ref :=
  let pool_list := sort_by (by_decreasing_value h) (to_list p) in
  py_slice_from pool_list (Z.of_nat (length pool_list) - n).

(** ** Fitnesses *)

(** The size of the reference subset asked for by [compute_fitnesses]. *)
Definition num_best (p : Pool) : Z :=
  if (num_parents (selection p) <? size p)%Z
  then (num_parents (selection p) + 1)%Z
  else size p.

(** The body of the first loop of [compute_fitnesses]:
    [organism.fitness = (organism.value - worst_value)/(best_value -
    worst_value)], with the denominator already computed. *)
Definition fitness_step (worst_value denominator : Q) (h : Heap)
    (organism : Ref) : result Heap :=
  f ← py_div (value (h organism) - worst_value) denominator;
  OK (set_fitness h organism f).

(** The body of its second loop. *)
Definition zero_fitness_step (best_organisms : list Ref) (h : Heap)
    (organism : Ref) : Heap :=
  if negb (py_in organism best_organisms)
  then set_fitness h organism 0 else h.

(** [Pool.compute_fitnesses] *)
Definition compute_fitnesses (h : Heap) (p : Pool) : result Heap :=
  let best_organisms := get_n_best_organisms h p (num_best p) in
  best ← py_last best_organisms;
  let best_value := value (h best) in
  worst ← py_first best_organisms;
  let worst_value := value (h worst) in
  h ← foldlM (fitness_step worst_value (best_value - worst_value))
             h best_organisms;
  OK (foldl (zero_fitness_step best_organisms) h (to_list p)).

(** ** Selection probabilities *)

(** [math.pow(x, power)] for the natural exponents that keep the result
    rational. *)
Definition math_pow (x : Q) (n : nat) : Q := x ^ Z.of_nat n.

(** The second loop of [compute_selection_probs]; its state is the heap and
    the running [selection_loc]. *)
Definition assign_selection (denom : Q) (pw : nat) (st : Heap * Q)
    (organism : Ref) : result (Heap * Q) :=
  let '(h, selection_loc) := st in
  prob ← py_div (math_pow (fitness (h organism)) pw) denom;
  let h := set_selection h organism prob selection_loc in
  OK (h, selection_loc + selection_prob (h organism)).

(** [Pool.compute_selection_probs] *)
Definition compute_selection_probs (h : Heap) (p : Pool) : result Heap :=
  let organisms := sort_by (by_increasing_fitness h) (to_list p) in
  let denom :=
    foldl (λ denom organism,
             denom + math_pow (fitness (h organism)) (power (selection p)))
          0 organisms in
  st ← foldlM (assign_selection denom (power (selection p))) (h, 0) organisms;
  OK (fst st).

(** ** Selection *)

(** [rand >= organism.selection_loc and
     rand < organism.selection_loc + organism.selection_prob] *)
Definition in_interval (h : Heap) (organism : Ref) (rand : Q) : bool :=
  Qleb (selection_loc (h organism)) rand
  && Qltb rand (selection_loc (h organism) + selection_prob (h organism)).

(** One pass of the inner [for] loop of [select_organisms]: either the
    method returns ([inl]) or the scan ends with the organisms selected so
    far ([inr]). *)
Fixpoint scan_pool (h : Heap) (n : Z) (rand : Q) (pool_list : list Ref)
    (selected_orgs : list Ref) : list Ref + list Ref :=
  match pool_list with
  | [] => inr selected_orgs
  | organism :: rest =>
      if in_interval h organism rand then
        if negb (py_in organism selected_orgs) then
          let selected_orgs := selected_orgs ++ [organism] in
          if (Z.of_nat (length selected_orgs) =? n)%Z
          then inl selected_orgs
          else scan_pool h n rand rest selected_orgs
        else scan_pool h n rand rest selected_orgs
      else scan_pool h n rand rest selected_orgs
  end.

(** The [while True] loop, run on the draws that [random.random()] hands out
    one after the other; [None] when these draws are used up and the loop is
    still running. *)
Fixpoint select_loop (h : Heap) (n : Z) (pool_list : list Ref)
    (draws : list Q) (selected_orgs : list Ref) : option (list Ref) :=
  match draws with
  | [] => None
  | rand :: draws' =>
      match scan_pool h n rand pool_list selected_orgs with
      | inl selected_orgs => Some selected_orgs
      | inr selected_orgs => select_loop h n pool_list draws' selected_orgs
      end
  end.

(** [Pool.select_organisms] *)
Definition select_organisms (h : Heap) (p : Pool) (n : Z) (draws : list Q)
  : option (list Ref) :=
  select_loop h n (to_list p) draws [].

(** ** Phase diagram values *)

Record PDEntry : Type := mkPDEntry {
  entry_composition : Composition;
  entry_energy : Q
}.

(** A Python [dict] keyed by organism ids: [d[k] = v] keeps the place of a
    key that is already there. *)
Fixpoint dict_set {V : Type} (k : Z) (v : V) (d : list (Z * V))
  : list (Z * V) :=
  match d with
  | [] => [(k, v)]
  | (k', v') :: d' =>
      if decide (k = k') then (k, v) :: d' else (k', v') :: dict_set k v d'
  end.

(** [d[k]], [None] for a missing key. *)
Fixpoint dict_get {V : Type} (k : Z) (d : list (Z * V)) : option V :=
  match d with
  | [] => None
  | (k', v) :: d' => if decide (k = k') then Some v else dict_get k d'
  end.

(** The threshold [0.000000001] below which an organism counts as lying on
    the convex hull. *)
Definition hull_eps : Q := 1 # 1000000000.

Section Membership.

(** pymatgen's phase diagram code is outside the repository.
    [phase_diagram entries endpoints] stands for building the
    [CompoundPhaseDiagram] and its [PDAnalyzer]: [None] when the
    construction raises, otherwise the function that transforms an entry
    and returns its energy above the hull. *)
Variable phase_diagram :
  list PDEntry → list Composition → option (PDEntry → Q).

(** The dictionary [pdentries] built by the first loop of
    [compute_pd_values]. *)
Definition make_pdentries (h : Heap) (organisms_list : list Ref)
  : list (Z * PDEntry) :=
  foldl (λ d organism,
           dict_set (id (h organism))
                    (mkPDEntry (composition (h organism))
                               (total_energy (h organism))) d)
        [] organisms_list.

(** The body of its last loop: [organism.value = values[organism.id]]. *)
Definition assign_pd_value (values : list (Z * Q)) (h : Heap)
    (organism : Ref) : result Heap :=
  match dict_get (id (h organism)) values with
  | None => Raise KeyError
  | Some v => OK (set_value h organism v)
  end.

(** [Pool.compute_pd_values] (the heap is the only result used by the
    callers in the pool). *)
Definition compute_pd_values (h : Heap) (organisms_list : list Ref)
    (cs : CompositionSpace) : result Heap :=
  let pdentries := make_pdentries h organisms_list in
  let pdentries_list := pdentries.*2 in
  match phase_diagram pdentries_list (endpoints cs) with
  | None => Raise PhaseDiagramError
  | Some get_e_above_hull =>
      let values := (λ kv : Z * PDEntry, (kv.1, get_e_above_hull kv.2))
                      <$> pdentries in
      foldlM (assign_pd_value values) h organisms_list
  end.

(** The bodies of the two moving loops of [check_promotion_set_pd]. *)
Definition demote_step (p : Pool) (organism_to_demote : Ref) : result Pool :=
  ps ← py_remove organism_to_demote (promotion_set p);
  OK (with_queue (organism_to_demote :: queue p) (with_promotion_set ps p)).

Definition promote_step (p : Pool) (organism_to_promote : Ref)
  : result Pool :=
  q ← py_remove organism_to_promote (queue p);
  OK (with_promotion_set (promotion_set p ++ [organism_to_promote])
                         (with_queue q p)).

(** [Pool.check_promotion_set_pd] *)
Definition check_promotion_set_pd (h : Heap) (p : Pool) : result Pool :=
  let organisms_to_demote :=
    List.filter (λ organism, Qltb 0 (value (h organism)))
                (promotion_set p) in
  p ← foldlM demote_step p organisms_to_demote;
  let organisms_to_promote :=
    List.filter (λ organism, Qltb (value (h organism)) hull_eps)
                (queue p) in
  foldlM promote_step p organisms_to_promote.

(** [Pool.add_organism] *)
Definition add_organism (h : Heap) (p : Pool) (organism_to_add : Ref)
    (cs : CompositionSpace) : result (Heap * Pool) :=
  let p := with_num_adds (num_adds p + 1) p in
  let h := set_is_active h organism_to_add true in
  match objective_function cs with
  | epa_objective =>
      let h := set_value h organism_to_add (epa (h organism_to_add)) in
      worst_organism ← get_worst_in_promotion_set h p;
      if Qltb (value (h organism_to_add)) (value (h worst_organism)) then
        ps ← py_remove worst_organism (promotion_set p ++ [organism_to_add]);
        OK (h, with_queue (worst_organism :: queue p)
                          (with_promotion_set ps p))
      else
        OK (h, with_queue (organism_to_add :: queue p) p)
  | pd_objective =>
      let organisms_list := to_list p ++ [organism_to_add] in
      h ← compute_pd_values h organisms_list cs;
      p ← check_promotion_set_pd h p;
      if Qeqb (value (h organism_to_add)) 0 then
        OK (h, with_promotion_set (promotion_set p ++ [organism_to_add]) p)
      else
        OK (h, with_queue (organism_to_add :: queue p) p)
  end.

(** The membership part of [replace_organism]: [new_org] takes the place
    of [old_org] in the container that holds it, if one does. *)
Definition replace_in_pool (p : Pool) (old_org new_org : Ref)
  : result Pool :=
  if py_in old_org (promotion_set p) then
    ps ← py_remove old_org (promotion_set p);
    OK (with_promotion_set (ps ++ [new_org]) p)
  else if py_in old_org (queue p) then
    let queue_list := queue p in
    i ← py_index old_org queue_list;
    let queue_list := py_insert i new_org queue_list in
    queue_list ← py_remove old_org queue_list;
    OK (with_queue queue_list p)
  else OK p.

(** [Pool.replace_organism] *)
Definition replace_organism (h : Heap) (p : Pool) (old_org new_org : Ref)
    (cs : CompositionSpace) : result (Heap * Pool) :=
  h ← match objective_function cs with
      | epa_objective => OK (set_value h new_org (epa (h new_org)))
      | pd_objective => compute_pd_values h (to_list p ++ [new_org]) cs
      end;
  p ← replace_in_pool p old_org new_org;
  let h := set_is_active h old_org false in
  let h := set_is_active h new_org true in
  match objective_function cs with
  | epa_objective => OK (h, p)
  | pd_objective => p ← check_promotion_set_pd h p; OK (h, p)
  end.

(** [Pool.add_initial_population]; the argument is the list held by the
    [InitialPopulation] object. *)
Definition add_initial_population (h : Heap) (p : Pool)
    (organisms_list : list Ref) (cs : CompositionSpace)
  : result (Heap * Pool) :=
  hp ← match objective_function cs with
       | epa_objective =>
           let h := foldl (λ (h : Heap) organism,
                             set_value h organism (epa (h organism)))
                          h organisms_list in
           let organisms_list :=
             sort_by (by_increasing_value h) organisms_list in
           OK (h, foldl (λ p (io : nat * Ref),
                           if (Z.of_nat io.1 <? num_promoted p)%Z
                           then with_promotion_set
                                  (promotion_set p ++ [io.2]) p
                           else with_queue (io.2 :: queue p) p)
                        p (imap pair organisms_list))
       | pd_objective =>
           match compute_pd_values h organisms_list cs with
           | Raise _ => Raise SystemExit
           | OK h =>
               OK (h, foldl (λ p organism,
                               if Qltb (value (h organism)) hull_eps
                               then with_promotion_set
                                      (promotion_set p ++ [organism]) p
                               else with_queue (organism :: queue p) p)
                            p organisms_list)
           end
       end;
  let '(h, p) := hp in
  h ← compute_fitnesses h p;
  h ← compute_selection_probs h p;
  OK (h, p).

End Membership.

(** ** Stopping criteria *)

(** A block of the input file: missing ([None]), the string ['default'], or
    a dictionary. *)
Inductive block (D : Type) : Type :=
  | block_None
  | block_default
  | block_dict (d : D).
Arguments block_None {D}.
Arguments block_default {D}.
Arguments block_dict {D} d.

(** A key of such a dictionary: not there, there with [None] or ['default'],
    or there with a value. *)
Inductive entry (A : Type) : Type :=
  | key_absent
  | key_default
  | key_given (a : A).
Arguments key_absent {A}.
Arguments key_default {A}.
Arguments key_given {A} a.

Record stopping_dict : Type := mkStoppingDict {
  dict_num_energy_calcs : entry Z;
  dict_value_achieved : entry Q;
  dict_found_structure : entry string
}.

Section Stopping.

(** pymatgen's [Structure] and [Structure.from_file]. *)
Variable Structure : Type.
Variable from_file : string → Structure.
(** [Structure.matches] *)
Variable matches : Structure → Structure → bool.

(** An attribute that [__init__] may leave unset is an [option]: reading
    [None] raises [AttributeError].  The Python value [None] of
    [num_energy_calcs], [value_achieved] and [found_structure] is the inner
    [None]. *)
Record StoppingCriteria : Type := mkStoppingCriteria {
  default_num_energy_calcs : option Z;
  are_satisfied : bool;
  calc_counter : Z;
  num_energy_calcs : option Z;
  value_achieved : option (option Q);
  found_structure : option Structure
}.

Definition read {A : Type} (attribute : option A) : result A :=
  match attribute with
  | None => Raise AttributeError
  | Some a => OK a
  end.

(** [StoppingCriteria.__init__] *)
Definition StoppingCriteria_init (stopping_parameters : block stopping_dict)
    (cs : CompositionSpace) : result StoppingCriteria :=
  let default_num_energy_calcs :=
    match length (endpoints cs) with
    | 1%nat => Some 800%Z
    | 2%nat => Some 1000%Z
    | 3%nat => Some 3000%Z
    | 4%nat => Some 6000%Z
    | _ => None
    end in
  let default_value_achieved : option Q := None in
  let default_found_structure : option Structure := None in
  match stopping_parameters with
  | block_None | block_default =>
      n ← read default_num_energy_calcs;
      OK (mkStoppingCriteria default_num_energy_calcs false 0 (Some n)
            (Some default_value_achieved) default_found_structure)
  | block_dict d =>
      let value_achieved :=
        match dict_value_achieved d with
        | key_default => Some default_value_achieved
        | key_given v =>
            match objective_function cs with
            | epa_objective => Some (Some v)
            | pd_objective => None
            end
        | key_absent => Some default_value_achieved
        end in
      let found_structure :=
        match dict_found_structure d with
        | key_default => default_found_structure
        | key_given path => Some (from_file path)
        | key_absent => default_found_structure
        end in
      let use_default : result (option Z) :=
        v ← read value_achieved;
        match v, found_structure with
        | None, None => n ← read default_num_energy_calcs; OK (Some n)
        | _, _ => OK None
        end in
      num_energy_calcs ←
        match dict_num_energy_calcs d with
        | key_default => use_default
        | key_given n => OK (Some n)
        | key_absent => use_default
        end;
      OK (mkStoppingCriteria default_num_energy_calcs false 0
            num_energy_calcs value_achieved found_structure)
  end.

(** [StoppingCriteria.update_calc_counter] *)
Definition update_calc_counter (sc : StoppingCriteria) : StoppingCriteria :=
  match num_energy_calcs sc with
  | None => sc
  | Some n =>
      let calc_counter := (calc_counter sc + 1)%Z in
      mkStoppingCriteria (default_num_energy_calcs sc)
        (if (n <=? calc_counter)%Z then true else are_satisfied sc)
        calc_counter (num_energy_calcs sc) (value_achieved sc)
        (found_structure sc)
  end.

Definition with_are_satisfied (b : bool) (sc : StoppingCriteria)
  : StoppingCriteria :=
  mkStoppingCriteria (default_num_energy_calcs sc) b (calc_counter sc)
    (num_energy_calcs sc) (value_achieved sc) (found_structure sc).

(** [StoppingCriteria.check_organism]; the two arguments are the fields
    [organism.value] and [organism.structure] that the method reads. *)
Definition check_organism (sc : StoppingCriteria) (organism_value : Q)
    (organism_structure : Structure) : result StoppingCriteria :=
  target ← read (value_achieved sc);
  let sc :=
    match target with
    | Some target =>
        if Qleb organism_value target then with_are_satisfied true sc else sc
    | None => sc
    end in
  match found_structure sc with
  | Some found =>
      if matches found organism_structure
      then OK (with_are_satisfied true sc) else OK sc
  | None => OK sc
  end.

End Stopping.

Arguments default_num_energy_calcs {Structure} _.
Arguments are_satisfied {Structure} _.
Arguments calc_counter {Structure} _.
Arguments num_energy_calcs {Structure} _.
Arguments value_achieved {Structure} _.
Arguments found_structure {Structure} _.
Arguments update_calc_counter {Structure} _.
Arguments with_are_satisfied {Structure} _ _.
Arguments check_organism {Structure} _ _ _ _.

(** ** Selection parameters *)

Record selection_dict : Type := mkSelectionDict {
  dict_num_parents : entry Z;
  dict_power : entry nat
}.

(** [SelectionProbDist.__init__] *)
Definition SelectionProbDist_init (selection_params : block selection_dict)
    (pool_size : Z) : SelectionProbDist :=
  let default_num_parents := pool_size in
  let default_power := 1%nat in
  match selection_params with
  | block_None | block_default =>
      mkSelectionProbDist default_num_parents default_power
  | block_dict d =>
      let num_parents :=
        match dict_num_parents d with
        | key_absent => default_num_parents
        | key_default => default_num_parents
        | key_given n =>
            if (pool_size <? n)%Z then default_num_parents else n
        end in
      let power :=
        match dict_power d with
        | key_absent => default_power
        | key_default => default_power
        | key_given pw => pw
        end in
      mkSelectionProbDist num_parents power
  end.

(** ** The objective function of a composition space *)

(** [CompositionSpace.infer_objective_function]; [almost_equals point
    next_point] stands for pymatgen's
    [point.almost_equals(next_point, 0.0, 0.0)]. *)
Definition infer_objective_function
    (almost_equals : Composition → Composition → bool)
    (endpoints : list Composition) : objective :=
  if (length endpoints =? 1)%nat then epa_objective
  else if existsb (λ point,
             existsb (λ next_point, negb (almost_equals point next_point))
                     endpoints)
           endpoints
  then pd_objective
  else epa_objective.

(** [CompositionSpace.get_all_pairs], on the symbols of the elements that
    [get_all_elements] returns. *)
Definition get_all_pairs (elements : list string) : list string :=
  if (length elements =? 1)%nat then []
  else
    let symbol (i : nat) : string := default EmptyString (elements !! i) in
    flat_map (λ i,
                map (λ j, symbol i +:+ " " +:+ symbol j)
                    (seq (i + 1) (length elements - (i + 1))))
             (seq 0 (length elements - 1)).

(** ** Choosing a variation *)

Section Variations.
Context {Variation : Type} `{EqDecision Variation}.
(** [variation.fraction] *)
Variable fraction : Variation → Q.

(** The [for] loop of [select_variation] on one random number. *)
Fixpoint scan_variations (rand lower_bound : Q)
    (tried_variations variations : list Variation) : option Variation :=
  match variations with
  | [] => None
  | variation :: rest =>
      if Qltb lower_bound rand
         && Qleb rand (lower_bound + fraction variation)
         && negb (py_in variation tried_variations)
      then Some variation
      else scan_variations rand (lower_bound + fraction variation)
                           tried_variations rest
  end.

(** [OffspringGenerator.select_variation]: the [while True] loop runs on
    the successive results of [random.random()]; [None] means that the
    draws are used up and the loop is still running. *)
Fixpoint select_variation (draws : list Q)
    (tried_variations variations : list Variation) : option Variation :=
  match draws with
  | [] => None
  | rand :: draws =>
      match scan_variations rand 0 tried_variations variations with
      | Some variation => Some variation
      | None => select_variation draws tried_variations variations
      end
  end.

End Variations.

(** ** Identifiers *)

Module IDGenerator.

Record t : Type := mk { id : Z }.

(** [IDGenerator.__init__] *)
Definition init : t := mk 0.

(** [IDGenerator.make_id]: the id returned and the generator afterwards. *)
Definition make_id (g : t) : Z * t :=
  let g := mk (id g + 1) in
  (id g, g).

(** [k] calls of [make_id] in a row. *)
Fixpoint make_ids (k : nat) (g : t) : list Z * t :=
  match k with
  | O => ([], g)
  | S k =>
      let '(i, g) := make_id g in
      let '(l, g) := make_ids k g in
      (i :: l, g)
  end.

End IDGenerator.

(** ** The initial population *)

Module InitialPopulation.

(** [InitialPopulation.add_organism] *)
Definition add_organism (h : Heap) (initial_population : list Ref)
    (organism_to_add : Ref) : Heap * list Ref :=
  let initial_population := initial_population ++ [organism_to_add] in
  (set_is_active h organism_to_add true, initial_population).

(** The [for] loop of [replace_organism].  The loop body removes from the
    list that the loop runs over; the list iterator holds an index [i] and
    stops when the index is past the end of the list as it is then.  The index
    grows at every turn, so the number of turns is at most the length of the
    list at the start, which is the [fuel] given by [replace_organism]. *)
Fixpoint replace_loop (fuel : nat) (old_id : Z) (i : nat)
    (h : Heap) (initial_population : list Ref) : result (Heap * list Ref) :=
  match fuel with
  | O => OK (h, initial_population)
  | S fuel =>
      match initial_population !! i with
      | None => OK (h, initial_population)
      | Some org =>
          if (id (h org) =? old_id)%Z then
            initial_population ← py_remove org initial_population;
            replace_loop fuel old_id (S i) (set_is_active h org false)
                         initial_population
          else replace_loop fuel old_id (S i) h initial_population
      end
  end.

(** [InitialPopulation.replace_organism] *)
Definition replace_organism (h : Heap) (initial_population : list Ref)
    (old_org new_org : Ref) : result (Heap * list Ref) :=
  hl ← replace_loop (length initial_population) (id (h old_org)) 0 h
                    initial_population;
  let '(h, initial_population) := hl in
  let initial_population := initial_population ++ [new_org] in
  OK (set_is_active h new_org true, initial_population).

(** [InitialPopulation.has_endpoints]; [at_endpoint endpoint composition]
    stands for [endpoint.almost_equals(composition.reduced_composition)]. *)
Fixpoint has_endpoints_loop (at_endpoint : Composition → Composition → bool)
    (h : Heap) (initial_population : list Ref) (endpoints : list Composition)
  : bool :=
  match endpoints with
  | [] => true
  | endpoint :: endpoints =>
      let has_endpoint :=
        foldl (λ (has_endpoint : bool) organism,
                 if at_endpoint endpoint (composition (h organism))
                 then true else has_endpoint)
              false initial_population in
      if negb has_endpoint then false
      else has_endpoints_loop at_endpoint h initial_population endpoints
  end.

Definition has_endpoints (at_endpoint : Composition → Composition → bool)
    (h : Heap) (initial_population : list Ref) (cs : CompositionSpace) : bool :=
  has_endpoints_loop at_endpoint h initial_population (endpoints cs).

(** [InitialPopulation.has_non_endpoint] *)
Fixpoint has_non_endpoint_loop
    (at_endpoint : Composition → Composition → bool) (h : Heap)
    (cs : CompositionSpace) (initial_population : list Ref) : bool :=
  match initial_population with
  | [] => false
  | organism :: initial_population =>
      let not_endpoint :=
        foldl (λ (not_endpoint : bool) endpoint,
                 if at_endpoint endpoint (composition (h organism))
                 then false else not_endpoint)
              true (endpoints cs) in
      if not_endpoint then true
      else has_non_endpoint_loop at_endpoint h cs initial_population
  end.

Definition has_non_endpoint (at_endpoint : Composition → Composition → bool)
    (h : Heap) (initial_population : list Ref) (cs : CompositionSpace) : bool :=
  has_non_endpoint_loop at_endpoint h cs initial_population.

End InitialPopulation.

(** ** Predicates used in the statements *)

(** The relation decided by an order given to [sort_by]. *)
Definition le_rel {A : Type} (le : A → A → bool) (x y : A) : Prop :=
  le x y = true.

(** ** The reference subset in the words of the specification *)




(** ** Sample states *)

Definition demo_organism (i : Z) (e v f : Q) : Organism :=
  mkOrganism i "Cu" e e v f 0 0 true.

(** Three organisms of values 3, 1 and 2. *)
Definition demo_heap : nat → Organism := λ r,
  match r with
  | 1%nat => demo_organism 1 3 3 0
  | 2%nat => demo_organism 2 1 1 0
  | 3%nat => demo_organism 3 2 2 0
  | _ => demo_organism 0 0 0 0
  end.

Definition demo_pool : Pool :=
  mkPool 20 3 [1%nat; 2%nat] [3%nat] (mkSelectionProbDist 20 1) 0.


(** A fixed-composition search. *)
Definition demo_epa_space : CompositionSpace :=
  mkCompositionSpace ["LiFePO4"] epa_objective.

(** Two organisms that share one value, in a pool of two. *)
Definition tied_heap : nat → Organism := λ r,
  match r with
  | 1%nat => demo_organism 1 5 5 0
  | 2%nat => demo_organism 2 5 5 0
  | _ => demo_organism 0 0 0 0
  end.

Definition tied_pool : Pool :=
  mkPool 2 1 [1%nat] [2%nat] (mkSelectionProbDist 2 1) 0.

(** ** Invariants of the pool *)

(** The phase diagram invariant: the promotion set holds the organisms on
    the convex hull, the queue the others. *)
Definition pd_invariant (h : Heap) (p : Pool) : Prop :=
  (∀ r, r ∈ promotion_set p → value (h r) < hull_eps)
  ∧ (∀ r, r ∈ queue p → hull_eps <= value (h r)).

(** The fixed-composition invariant: no organism of the promotion set is
    worse than one of the queue. *)
Definition epa_invariant (h : Heap) (p : Pool) : Prop :=
  ∀ r q, r ∈ promotion_set p → q ∈ queue p → value (h r) <= value (h q).

(** A phase-diagram search between two endpoints. *)
Definition demo_pd_space : CompositionSpace :=
  mkCompositionSpace ["Fe2O3"; "FeO"] pd_objective.

(** A phase diagram in which every entry lies on the hull. *)
Definition flat_phase_diagram (entries : list PDEntry)
    (points : list Composition) : option (PDEntry → Q) :=
  Some (λ _, 0).

(** A fixed-composition pool: values 1 and 3 in the promotion set, 5 in the
    queue; organism 4 is new, with energy per atom 2. *)
Definition epa_heap : nat → Organism := λ r,
  match r with
  | 1%nat => demo_organism 1 1 1 0
  | 2%nat => demo_organism 2 3 3 0
  | 3%nat => demo_organism 3 5 5 0
  | 4%nat => mkOrganism 4 "Cu" 2 2 0 0 0 0 false
  | _ => demo_organism 0 0 0 0
  end.

Definition epa_pool : Pool :=
  mkPool 20 2 [1%nat; 2%nat] [3%nat] (mkSelectionProbDist 20 1) 0.

(** A phase-diagram pool: organism 1 on the hull in the promotion set,
    organism 2 above it in the queue; organism 3 is new.  The phase diagram
    [tiny_phase_diagram] puts the entry of energy 7 (organism 3) at
    [5e-10] above the hull, the entry of energy 9 (organism 2) at 1 and
    every other entry on the hull. *)
Definition pd_heap : nat → Organism := λ r,
  match r with
  | 1%nat => mkOrganism 1 "Fe2O3" 0 0 0 0 0 0 true
  | 2%nat => mkOrganism 2 "Fe3O4" 9 0 1 0 0 0 true
  | 3%nat => mkOrganism 3 "FeO" 7 0 0 0 0 0 false
  | _ => demo_organism 0 0 0 0
  end.

Definition pd_pool : Pool :=
  mkPool 25 3 [1%nat] [2%nat] (mkSelectionProbDist 25 1) 0.

Definition tiny_phase_diagram (entries : list PDEntry)
    (points : list Composition) : option (PDEntry → Q) :=
  Some (λ e, if Qeqb (entry_energy e) 7 then 1 # 2000000000
             else if Qeqb (entry_energy e) 9 then 1 else 0).

(** The heap of [demo_heap] once fitnesses and selection probabilities have
    been computed for [demo_pool]. *)
Definition selection_heap : nat → Organism :=
  match compute_fitnesses demo_heap demo_pool with
  | OK h =>
      match compute_selection_probs h demo_pool with
      | OK h' => h'
      | Raise _ => demo_heap
      end
  | Raise _ => demo_heap
  end.

(** The sum of [f] over the organisms of a list, and the share of the wheel
    that the selection formula gives to a fitness. *)
Definition Qsum (f : nat → Q) (l : list nat) : Q :=
  foldr (λ r acc, f r + acc) 0 l.

Definition share (denom : Q) (pw : nat) (f : nat → Q) (r : nat) : Q :=
  math_pow (f r) pw / denom.

(** The heap of [demo_heap] once fitnesses have been computed. *)
Definition fitness_heap : nat → Organism :=
  match compute_fitnesses demo_heap demo_pool with
  | OK h => h
  | Raise _ => demo_heap
  end.

(** A pool whose organisms all have fitness 0. *)
Definition zero_fitness_pool : Pool :=
  mkPool 20 3 [7%nat] [8%nat] (mkSelectionProbDist 20 1) 0.

(** An empty pool with room for two promoted organisms. *)
Definition empty_pool : Pool :=
  mkPool 20 2 [] [] (mkSelectionProbDist 20 1) 0.

(** A phase diagram that cannot be built. *)
Definition no_phase_diagram (entries : list PDEntry)
    (points : list Composition) : option (PDEntry → Q) :=
  None.

(** Two organisms with the same id 7, a third with id 3, a new one with
    id 4. *)
Definition tied_ids_heap : nat → Organism := λ r,
  match r with
  | 1%nat => demo_organism 7 1 1 0
  | 2%nat => demo_organism 7 2 2 0
  | 3%nat => demo_organism 3 3 3 0
  | _ => demo_organism 4 0 0 0
  end.



(** A pool of size twenty whose selection parameters say five parents. *)
Definition five_parent_pool : Pool :=
  mkPool 20 3 [1%nat; 2%nat] [3%nat] (mkSelectionProbDist 5 1) 0.
(** * Properties *)

(** ** Comparisons *)

Lemma Qltb_lt (a b : Q) : Qltb a b = true ↔ a < b.
Proof.
  unfold Qltb. rewrite negb_true_iff, <- not_true_iff_false, Qle_bool_iff.
  split; [apply Qnot_le_lt | apply Qlt_not_le].
Qed.

Lemma Qltb_ge (a b : Q) : Qltb a b = false ↔ b <= a.
Proof.
  unfold Qltb. rewrite negb_false_iff. apply Qle_bool_iff.
Qed.

Lemma Qleb_le (a b : Q) : Qleb a b = true ↔ a <= b.
Proof. apply Qle_bool_iff. Qed.

Lemma Qleb_gt (a b : Q) : Qleb a b = false ↔ b < a.
Proof.
  unfold Qleb. rewrite <- not_true_iff_false, Qle_bool_iff.
  split; [apply Qnot_le_lt | apply Qlt_not_le].
Qed.

Lemma Qeqb_eq (a b : Q) : Qeqb a b = true ↔ a == b.
Proof. apply Qeq_bool_iff. Qed.

Lemma Qeqb_neq (a b : Q) : Qeqb a b = false ↔ ¬ a == b.
Proof.
  unfold Qeqb. rewrite <- not_true_iff_false, Qeq_bool_iff. tauto.
Qed.

(** ** Stable insertion sort *)

Section Sorting.
Context {A : Type}.
Variable le : A → A → bool.

Lemma insert_by_Permutation (x : A) (l : list A) :
  insert_by le x l ≡ₚ x :: l.
Proof.
  induction l as [|y l IH]; simpl; [done|].
  destruct (le x y); [done|].
  rewrite IH. apply Permutation_swap.
Qed.

Lemma sort_by_Permutation (l : list A) : sort_by le l ≡ₚ l.
Proof.
  induction l as [|x l IH]; simpl; [done|].
  unfold sort_by in *. simpl. by rewrite insert_by_Permutation, IH.
Qed.

Lemma sort_by_length (l : list A) : length (sort_by le l) = length l.
Proof. apply Permutation_length, sort_by_Permutation. Qed.

Lemma sort_by_elem_of (x : A) (l : list A) : x ∈ sort_by le l ↔ x ∈ l.
Proof. by rewrite sort_by_Permutation. Qed.

Hypothesis le_total : ∀ x y, le x y = false → le y x = true.
Hypothesis le_trans : ∀ x y z, le x y = true → le y z = true → le x z = true.

Lemma insert_by_sorted (x : A) (l : list A) :
  StronglySorted (le_rel le) l → StronglySorted (le_rel le) (insert_by le x l).
Proof.
  induction l as [|y l IH]; simpl; intros Hs.
  - repeat constructor.
  - apply StronglySorted_cons in Hs as [Hy Hs].
    destruct (le x y) eqn:Hxy.
    + apply StronglySorted_cons. split.
      * constructor; [done|].
        eapply Forall_impl; [exact Hy|]. intros z Hz. by eapply le_trans.
      * by apply StronglySorted_cons.
    + apply StronglySorted_cons. split; [|by apply IH].
      rewrite insert_by_Permutation. constructor; [|done].
      by apply le_total.
Qed.

Lemma sort_by_sorted (l : list A) : StronglySorted (le_rel le) (sort_by le l).
Proof.
  induction l as [|x l IH]; [constructor|].
  unfold sort_by in *. simpl. by apply insert_by_sorted.
Qed.
End Sorting.

Lemma sorted_decreasing_value (h : Heap) (l : list Ref) :
  StronglySorted (le_rel (by_decreasing_value h))
                 (sort_by (by_decreasing_value h) l).
Proof.
  apply sort_by_sorted; unfold by_decreasing_value; intros x y.
  - rewrite Qleb_gt, Qleb_le. apply Qlt_le_weak.
  - intros z. rewrite !Qleb_le. intros ? ?. by eapply Qle_trans.
Qed.

Lemma sorted_increasing_fitness (h : Heap) (l : list Ref) :
  StronglySorted (le_rel (by_increasing_fitness h))
                 (sort_by (by_increasing_fitness h) l).
Proof.
  apply sort_by_sorted; unfold by_increasing_fitness; intros x y.
  - rewrite Qleb_gt, Qleb_le. apply Qlt_le_weak.
  - intros z. rewrite !Qleb_le. intros ? ?. by eapply Qle_trans.
Qed.

(** ** The [n] best organisms *)

Lemma py_slice_from_negative {A : Type} (l : list A) (s : Z) :
  (s < 0)%Z → py_slice_from l s = drop (Z.to_nat (s + Z.of_nat (length l))) l.
Proof.
  intros Hs. unfold py_slice_from.
  destruct (Z.ltb_spec s 0); [|lia].
  f_equal. lia.
Qed.

Lemma py_slice_from_nonnegative {A : Type} (l : list A) (s : Z) :
  (0 ≤ s)%Z → py_slice_from l s = drop (Z.to_nat s) l.
Proof.
  intros Hs. unfold py_slice_from.
  destruct (Z.ltb_spec s 0); [lia|].
  destruct (Z.min_spec s (Z.of_nat (length l))) as [[_ ->]|[Hle ->]]; [done|].
  rewrite Nat2Z.id, drop_all. symmetry. apply drop_ge. lia.
Qed.

(** When the pool holds at least [n] organisms, the result is the last [n]
    of the list sorted by decreasing value. *)
Lemma get_n_best_organisms_within (h : Heap) (p : Pool) (n : Z) :
  (0 ≤ n ≤ Z.of_nat (length (to_list p)))%Z →
  get_n_best_organisms h p n
  = drop (length (to_list p) - Z.to_nat n)
         (sort_by (by_decreasing_value h) (to_list p)).
Proof.
  intros Hn. unfold get_n_best_organisms.
  rewrite sort_by_length, py_slice_from_nonnegative by lia.
  f_equal. lia.
Qed.

(** The result always is a suffix of the pool sorted by decreasing value. *)
Lemma get_n_best_organisms_suffix (h : Heap) (p : Pool) (n : Z) :
  ∃ k, get_n_best_organisms h p n
       = drop k (sort_by (by_decreasing_value h) (to_list p)).
Proof. unfold get_n_best_organisms, py_slice_from. eauto. Qed.

(** C10: when [n] exceeds the number [m] of organisms in the pool, the slice
    [pool_list[len(pool_list) - n:]] has a negative start, which Python
    counts from the end: the result is the last [n - m] organisms of the list
    sorted by decreasing value (the [n - m] smallest values), of length
    [min (n - m) m]; for [n <= 2m] that is [n - m] organisms, fewer than the
    pool holds when [n < 2m], and for [n > 2m] it is the whole pool. *)
Theorem get_n_best_organisms_beyond_occupancy (h : Heap) (p : Pool) (n : Z) :
  let m := Z.of_nat (length (to_list p)) in
  let pool_list := sort_by (by_decreasing_value h) (to_list p) in
  let best := get_n_best_organisms h p n in
  (m < n)%Z →
  pool_list ≡ₚ to_list p
  ∧ best = drop (Z.to_nat (2 * m - n)) pool_list
  ∧ Z.of_nat (length best) = Z.min (n - m) m
  ∧ ((n ≤ 2 * m)%Z → Z.of_nat (length best) = (n - m)%Z)
  ∧ ((n < 2 * m)%Z → (length best < length (to_list p))%nat)
  ∧ ((2 * m < n)%Z → best = pool_list)
  ∧ (∀ x y, x ∈ take (Z.to_nat (2 * m - n)) pool_list → y ∈ best →
            value (h y) <= value (h x)).
Proof.
  intros m pool_list best Hn.
  assert (Hbest : best = drop (Z.to_nat (2 * m - n)) pool_list).
  { unfold best, get_n_best_organisms. fold pool_list.
    rewrite py_slice_from_negative.
    - f_equal. unfold pool_list. rewrite sort_by_length. fold m. lia.
    - unfold pool_list. rewrite sort_by_length. fold m. lia. }
  assert (Hlen : length pool_list = length (to_list p))
    by apply sort_by_length.
  assert (Hbl : length best
                = (length (to_list p) - Z.to_nat (2 * m - n))%nat).
  { rewrite Hbest, length_drop. lia. }
  split; [apply sort_by_Permutation|].
  split; [done|].
  repeat split.
  - rewrite Hbl. subst m. lia.
  - intros ?. rewrite Hbl. subst m. lia.
  - intros ?. rewrite Hbl. subst m. lia.
  - intros ?. rewrite Hbest. replace (Z.to_nat (2 * m - n)) with O by lia.
    done.
  - intros x y Hx Hy. rewrite Hbest in Hy.
    pose proof (sorted_decreasing_value h (to_list p)) as Hs.
    fold pool_list in Hs.
    rewrite <- (take_drop (Z.to_nat (2 * m - n)) pool_list) in Hs.
    pose proof (StronglySorted_app_1_elem_of _ _ _ _ _ Hs Hx Hy) as Hxy.
    by apply Qleb_le in Hxy.
Qed.

Lemma get_n_best_organisms_beyond_occupancy_witness :
  get_n_best_organisms demo_heap demo_pool 4 = [2%nat].
Proof.
  destruct (get_n_best_organisms_beyond_occupancy demo_heap demo_pool 4)
    as (_ & Hbest & _); [simpl; lia|].
  rewrite Hbest. reflexivity.
Defined.

(** ** Stopping criteria *)

Section StoppingFacts.
Context {Structure : Type}.
Implicit Type sc : StoppingCriteria Structure.

Lemma update_calc_counter_iter sc (n : Z) (k : nat) :
  num_energy_calcs sc = Some n →
  let sc' := Nat.iter k update_calc_counter sc in
  num_energy_calcs sc' = Some n
  ∧ calc_counter sc' = (calc_counter sc + Z.of_nat k)%Z
  ∧ (are_satisfied sc' = true ↔
     are_satisfied sc = true
     ∨ (0 < k)%nat ∧ (n ≤ calc_counter sc + Z.of_nat k)%Z).
Proof.
  intros Hn. induction k as [|k (IHn & IHc & IHs)]; simpl.
  - split; [done|]. split; [lia|]. intuition lia.
  - unfold update_calc_counter at 1 3 5. rewrite IHn. simpl.
    split; [done|]. split; [lia|]. rewrite IHc.
    destruct (Z.leb_spec n (calc_counter sc + Z.of_nat k + 1)).
    + intuition lia.
    + rewrite IHs. intuition lia.
Qed.

(** The flag is never reset. *)
Lemma update_calc_counter_monotone sc :
  are_satisfied sc = true → are_satisfied (update_calc_counter sc) = true.
Proof.
  intros Hs. unfold update_calc_counter.
  destruct (num_energy_calcs sc); [simpl|done].
  by destruct (_ <=? _)%Z.
Qed.
End StoppingFacts.

(** C8: a [StoppingCriteria] built from no parameters ([None] or ['default'])
    and a composition space with one endpoint has [num_energy_calcs = 800];
    from that fresh state [are_satisfied] is true after 800 calls of
    [update_calc_counter] and false after 799. *)
Theorem default_stopping_criteria_800 (Structure : Type)
    (from_file : string → Structure) (stopping_parameters : block stopping_dict)
    (cs : CompositionSpace) :
  stopping_parameters = block_None ∨ stopping_parameters = block_default →
  length (endpoints cs) = 1%nat →
  ∃ sc, StoppingCriteria_init Structure from_file stopping_parameters cs = OK sc
        ∧ num_energy_calcs sc = Some 800%Z
        ∧ calc_counter sc = 0%Z
        ∧ are_satisfied sc = false
        ∧ are_satisfied (Nat.iter 800 update_calc_counter sc) = true
        ∧ are_satisfied (Nat.iter 799 update_calc_counter sc) = false.
Proof.
  intros Hparams Hlen.
  set (sc := mkStoppingCriteria Structure (Some 800%Z) false 0 (Some 800%Z)
                                (Some None) None).
  exists sc.
  assert (Hinit : StoppingCriteria_init Structure from_file
                    stopping_parameters cs = OK sc).
  { unfold StoppingCriteria_init. rewrite Hlen.
    by destruct Hparams as [-> | ->]. }
  split; [done|]. do 3 (split; [done|]).
  pose proof (update_calc_counter_iter sc 800 800 eq_refl) as H800.
pose proof (update_calc_counter_iter sc 800 799 eq_refl) as H799.
cbv zeta in H800, H799.
destruct H800 as (_ & _ & H800). destruct H799 as (_ & _ & H799).
change (calc_counter sc) with 0%Z in H800, H799.
change (are_satisfied sc) with false in H800, H799.
split.
- apply H800. right. lia.
- apply not_true_is_false. intros Ht. apply H799 in Ht.
  destruct Ht as [Ht | [_ Ht]]; [done | lia].
Qed.

Lemma default_stopping_criteria_800_witness :
  ∃ sc, StoppingCriteria_init unit (λ _, tt) block_None demo_epa_space = OK sc
        ∧ num_energy_calcs sc = Some 800%Z
        ∧ are_satisfied (Nat.iter 800 update_calc_counter sc) = true
        ∧ are_satisfied (Nat.iter 799 update_calc_counter sc) = false.
Proof.
  destruct (default_stopping_criteria_800 unit (λ _, tt) block_None
              demo_epa_space) as (sc & H1 & H2 & _ & _ & H3 & H4).
  - left. reflexivity.
  - reflexivity.
  - exists sc. repeat split; assumption.
Defined.

(** ** Heap updates *)

Lemma update_eq (h : Heap) (r : Ref) (f : Organism → Organism) :
  update h r f r = f (h r).
Proof. unfold update. apply fn_lookup_insert. Qed.

Lemma update_ne (h : Heap) (r r' : Ref) (f : Organism → Organism) :
  r ≠ r' → update h r f r' = h r'.
Proof. unfold update. apply fn_lookup_insert_ne. Qed.

Lemma update_lookup (h : Heap) (r r' : Ref) (f : Organism → Organism) :
  update h r f r' = if decide (r = r') then f (h r) else h r'.
Proof.
  destruct (decide (r = r')) as [<-|Hne];
    [apply update_eq | by apply update_ne].
Qed.

(** A field that [f] leaves alone is the same everywhere after [update]. *)
Lemma update_preserves {B : Type} (field : Organism → B) (h : Heap) (r r' : Ref)
    (f : Organism → Organism) :
  (∀ o, field (f o) = field o) → field (update h r f r') = field (h r').
Proof.
  intros Hf. rewrite update_lookup. destruct (decide (r = r')) as [<-|]; auto.
Qed.

Lemma py_in_true {A : Type} `{EqDecision A} (x : A) (l : list A) :
  py_in x l = true ↔ x ∈ l.
Proof. unfold py_in. apply bool_decide_eq_true. Qed.

Lemma py_in_false {A : Type} `{EqDecision A} (x : A) (l : list A) :
  py_in x l = false ↔ x ∉ l.
Proof. unfold py_in. apply bool_decide_eq_false. Qed.

Lemma py_first_OK {A : Type} (l : list A) (x : A) :
  py_first l = OK x ↔ ∃ l', l = x :: l'.
Proof.
  destruct l as [|y l]; simpl; split.
  - discriminate.
  - intros [? ?]. discriminate.
  - intros [= ->]. eauto.
  - intros [? [= -> _]]. done.
Qed.

Lemma py_last_OK {A : Type} (l : list A) (x : A) :
  py_last l = OK x ↔ ∃ l', l = l' ++ [x].
Proof.
  unfold py_last. rewrite <- last_Some.
  destruct (last l); split; congruence.
Qed.

(** ** Fitnesses *)

Section FitnessLoops.
Variables worst_value denominator : Q.

Lemma fitness_step_OK (h : Heap) (x : Ref) :
  Qeqb denominator 0 = false →
  fitness_step worst_value denominator h x
  = OK (set_fitness h x ((value (h x) - worst_value) / denominator)).
Proof. intros Hd. unfold fitness_step, py_div. by rewrite Hd. Qed.

Lemma fitness_loop_zero (h : Heap) (l : list Ref) :
  denominator == 0 → l ≠ [] →
  foldlM (fitness_step worst_value denominator) h l = Raise ZeroDivisionError.
Proof.
  intros Hd Hl. destruct l as [|r l]; [done|]. simpl.
  unfold fitness_step, py_div.
  apply Qeqb_eq in Hd. by rewrite Hd.
Qed.

Lemma fitness_loop_nonzero (h : Heap) (l : list Ref) :
  ¬ denominator == 0 →
  ∃ h', foldlM (fitness_step worst_value denominator) h l = OK h'
        ∧ (∀ r, value (h' r) = value (h r))
        ∧ (∀ r, r ∈ l →
                fitness (h' r) = (value (h r) - worst_value) / denominator)
        ∧ (∀ r, r ∉ l → fitness (h' r) = fitness (h r)).
Proof.
  intros Hd. apply Qeqb_neq in Hd.
  revert h. induction l as [|x l IH]; intros h; simpl.
  - exists h. split; [done|]. split; [done|]. split; [|done].
    intros r Hr. by apply elem_of_nil in Hr.
  - rewrite (fitness_step_OK h x Hd). simpl.
    set (h1 := set_fitness h x ((value (h x) - worst_value) / denominator)).
    destruct (IH h1) as (h' & Hrun & Hval & Hin & Hout).
    assert (Hv1 : ∀ r, value (h1 r) = value (h r)).
    { intros r. unfold h1, set_fitness. by apply update_preserves. }
    exists h'. split; [exact Hrun|]. split; [|split].
    + intros r. by rewrite Hval, Hv1.
    + intros r Hr. destruct (decide (r ∈ l)) as [Hl|Hl].
      * by rewrite Hin, Hv1.
      * apply elem_of_cons in Hr as [->|Hr]; [|done].
        rewrite Hout by done. unfold h1, set_fitness.
        by rewrite update_eq.
    + intros r Hr. apply not_elem_of_cons in Hr as [Hne Hr].
      rewrite Hout by done. unfold h1, set_fitness.
      by rewrite update_ne.
Qed.
End FitnessLoops.

Lemma zero_fitness_loop (best_organisms : list Ref) (h : Heap) (l : list Ref) :
  let h' := foldl (zero_fitness_step best_organisms) h l in
  (∀ r, value (h' r) = value (h r))
  ∧ (∀ r, r ∈ l → r ∉ best_organisms → fitness (h' r) = 0)
  ∧ (∀ r, r ∉ l → fitness (h' r) = fitness (h r))
  ∧ (∀ r, r ∈ best_organisms → fitness (h' r) = fitness (h r)).
Proof.
  revert h. induction l as [|x l IH]; intros h; simpl.
  - split; [done|]. split; [|done]. intros r Hr. by apply elem_of_nil in Hr.
  - set (h1 := zero_fitness_step best_organisms h x).
    destruct (IH h1) as (Hval & Hzero & Hout & Hkeep).
    assert (Hv1 : ∀ r, value (h1 r) = value (h r)).
    { intros r. unfold h1, zero_fitness_step.
      destruct (negb _); [|done]. unfold set_fitness.
      by apply update_preserves. }
    assert (Hne1 : ∀ r, r ≠ x → fitness (h1 r) = fitness (h r)).
    { intros r Hr. unfold h1, zero_fitness_step.
      destruct (negb _); [|done]. unfold set_fitness.
      by rewrite update_ne. }
    assert (Hx1 : x ∉ best_organisms → fitness (h1 x) = 0).
    { intros Hx. apply py_in_false in Hx. unfold h1, zero_fitness_step.
      rewrite Hx. simpl. unfold set_fitness. by rewrite update_eq. }
    assert (Hk1 : ∀ r, r ∈ best_organisms → fitness (h1 r) = fitness (h r)).
    { intros r Hr. destruct (decide (r = x)) as [->|Hrx]; [|by apply Hne1].
      apply py_in_true in Hr. unfold h1, zero_fitness_step.
      by rewrite Hr. }
    split; [|split; [|split]].
    + intros r. by rewrite Hval, Hv1.
    + intros r Hr Hnb. destruct (decide (r ∈ l)) as [Hl|Hl]; [by apply Hzero|].
      apply elem_of_cons in Hr as [->|Hr]; [|done].
      rewrite Hout by done. by apply Hx1.
    + intros r Hr. apply not_elem_of_cons in Hr as [Hne Hr].
      rewrite Hout by done. by apply Hne1.
    + intros r Hr. by rewrite Hkeep, Hk1.
Qed.

(** The reference subset is sorted by decreasing value and drawn from the
    pool. *)
Lemma reference_subset_sorted (h : Heap) (p : Pool) (n : Z) :
  StronglySorted (le_rel (by_decreasing_value h)) (get_n_best_organisms h p n).
Proof.
  destruct (get_n_best_organisms_suffix h p n) as [k ->].
  pose proof (sorted_decreasing_value h (to_list p)) as Hs.
  rewrite <- (take_drop k) in Hs. by apply StronglySorted_app_1_r in Hs.
Qed.

Lemma reference_subset_in_pool (h : Heap) (p : Pool) (n : Z) (r : Ref) :
  r ∈ get_n_best_organisms h p n → r ∈ to_list p.
Proof.
  destruct (get_n_best_organisms_suffix h p n) as [k ->]. intros Hr.
  apply (sort_by_elem_of (by_decreasing_value h)).
  rewrite <- (take_drop k). apply elem_of_app. by right.
Qed.

Lemma reference_subset_bounds (h : Heap) (p : Pool) (n : Z) (best worst : Ref) :
  py_last (get_n_best_organisms h p n) = OK best →
  py_first (get_n_best_organisms h p n) = OK worst →
  ∀ r, r ∈ get_n_best_organisms h p n →
       value (h best) <= value (h r) <= value (h worst).
Proof.
  intros Hlast Hfirst r Hr.
  pose proof (reference_subset_sorted h p n) as Hs.
  apply py_last_OK in Hlast as [front Hfront].
  apply py_first_OK in Hfirst as [back Hback].
  split.
  - rewrite Hfront in Hs, Hr. apply elem_of_app in Hr as [Hr|Hr].
    + pose proof (StronglySorted_app_1_elem_of _ _ _ _ _ Hs Hr
                    (list_elem_of_here best [])) as Hle.
      by apply Qleb_le in Hle.
    + apply list_elem_of_singleton in Hr as ->. apply Qle_refl.
  - rewrite Hback in Hs, Hr. apply elem_of_cons in Hr as [->|Hr].
    + apply Qle_refl.
    + apply StronglySorted_cons in Hs as [Hall _].
      rewrite Forall_forall in Hall. apply Hall in Hr.
      by apply Qleb_le in Hr.
Qed.

(** C3: when the best value of the reference subset equals its worst value,
    [compute_fitnesses] reaches the division by zero. *)
Theorem compute_fitnesses_division_by_zero (h : Heap) (p : Pool)
    (best worst : Ref) :
  py_last (get_n_best_organisms h p (num_best p)) = OK best →
  py_first (get_n_best_organisms h p (num_best p)) = OK worst →
  value (h best) == value (h worst) →
  compute_fitnesses h p = Raise ZeroDivisionError.
Proof.
  intros Hlast Hfirst Heq. unfold compute_fitnesses.
  rewrite Hlast, Hfirst. simpl.
  rewrite fitness_loop_zero; [done| |].
  - rewrite Heq. ring.
  - apply py_first_OK in Hfirst as [? ->]. done.
Qed.

Lemma compute_fitnesses_division_by_zero_witness :
  compute_fitnesses tied_heap tied_pool = Raise ZeroDivisionError.
Proof.
  apply (compute_fitnesses_division_by_zero tied_heap tied_pool 2%nat 1%nat);
    reflexivity.
Defined.


(** ** List primitives *)

Section PyListFacts.
Context {A : Type} `{EqDecision A}.
Implicit Types (x : A) (l : list A).

Lemma py_remove_OK x l :
  x ∈ l →
  ∃ l1 l2, l = l1 ++ x :: l2 ∧ x ∉ l1 ∧ py_remove x l = OK (l1 ++ l2).
Proof.
  induction l as [|y l IH]; intros Hx; [by apply elem_of_nil in Hx|].
  simpl. destruct (decide (x = y)) as [->|Hne].
  - exists [], l. split; [done|]. split; [apply not_elem_of_nil|done].
  - apply elem_of_cons in Hx as [?|Hx]; [done|].
    destruct (IH Hx) as (l1 & l2 & -> & Hl1 & ->).
    exists (y :: l1), l2. split; [done|]. split; [|done].
    by apply not_elem_of_cons.
Qed.

Lemma py_remove_absent x l : x ∉ l → py_remove x l = Raise ValueError.
Proof.
  induction l as [|y l IH]; intros Hx; [done|].
  apply not_elem_of_cons in Hx as [Hne Hx]. simpl.
  destruct (decide (x = y)); [done|]. by rewrite IH.
Qed.

Lemma py_index_OK x l :
  x ∈ l →
  ∃ l1 l2, l = l1 ++ x :: l2 ∧ x ∉ l1 ∧ py_index x l = OK (length l1).
Proof.
  induction l as [|y l IH]; intros Hx; [by apply elem_of_nil in Hx|].
  simpl. destruct (decide (x = y)) as [->|Hne].
  - exists [], l. split; [done|]. split; [apply not_elem_of_nil|done].
  - apply elem_of_cons in Hx as [?|Hx]; [done|].
    destruct (IH Hx) as (l1 & l2 & -> & Hl1 & ->).
    exists (y :: l1), l2. split; [done|]. split; [|done].
    by apply not_elem_of_cons.
Qed.

Lemma py_remove_skip x l1 l2 :
  x ∉ l1 → py_remove x (l1 ++ x :: l2) = OK (l1 ++ l2).
Proof.
  induction l1 as [|y l1 IH]; intros Hx; simpl.
  - by destruct (decide (x = x)).
  - apply not_elem_of_cons in Hx as [Hne Hx].
    destruct (decide (x = y)); [done|]. by rewrite IH.
Qed.

(** Removing, one after the other, the elements of [l] that satisfy [P]
    leaves those that do not, in their order. *)
Lemma remove_each_cons (ks : list A) x l :
  x ∉ ks →
  foldlM (λ l k, py_remove k l) (x :: l) ks
  = (l' ← foldlM (λ l k, py_remove k l) l ks; OK (x :: l')).
Proof.
  revert l. induction ks as [|k ks IH]; intros l Hx; [done|].
  apply not_elem_of_cons in Hx as [Hne Hx]. simpl.
  destruct (decide (k = x)); [congruence|].
  destruct (py_remove k l) as [l''|e]; simpl; [|done].
  by apply IH.
Qed.

Lemma remove_each_filter (P : A → bool) l :
  foldlM (λ l k, py_remove k l) l (List.filter P l)
  = OK (List.filter (λ x, negb (P x)) l).
Proof.
  induction l as [|x l IH]; [done|]. simpl.
  destruct (P x) eqn:HP; simpl.
  - destruct (decide (x = x)); [|done]. exact IH.
  - rewrite remove_each_cons.
    + by rewrite IH.
    + intros Hin. apply list_elem_of_In, filter_In in Hin as [_ Hin].
      congruence.
Qed.
End PyListFacts.

(** ** Reconciling the promotion set and the queue *)

Lemma demote_loop (ks : list Ref) (p : Pool) :
  foldlM demote_step p ks
  = (ps ← foldlM (λ l k, py_remove k l) (promotion_set p) ks;
     OK (with_queue (rev ks ++ queue p) (with_promotion_set ps p))).
Proof.
  revert p. induction ks as [|k ks IH]; intros p; simpl.
  - by destruct p.
  - change (demote_step p k)
      with (ps ← py_remove k (promotion_set p);
            OK (with_queue (k :: queue p) (with_promotion_set ps p))).
    destruct (py_remove k (promotion_set p)) as [ps1|e]; simpl; [|done].
    rewrite IH. simpl.
    destruct (foldlM _ ps1 ks) as [ps|e]; simpl; [|done].
    unfold with_queue, with_promotion_set. simpl.
    by rewrite <- app_assoc.
Qed.

Lemma promote_loop (ks : list Ref) (p : Pool) :
  foldlM promote_step p ks
  = (q ← foldlM (λ l k, py_remove k l) (queue p) ks;
     OK (with_promotion_set (promotion_set p ++ ks) (with_queue q p))).
Proof.
  revert p. induction ks as [|k ks IH]; intros p; simpl.
  - destruct p. unfold with_promotion_set, with_queue. simpl.
    by rewrite app_nil_r.
  - change (promote_step p k)
      with (q ← py_remove k (queue p);
            OK (with_promotion_set (promotion_set p ++ [k]) (with_queue q p))).
    destruct (py_remove k (queue p)) as [q1|e]; simpl; [|done].
    rewrite IH. simpl.
    destruct (foldlM _ q1 ks) as [q|e]; simpl; [|done].
    unfold with_queue, with_promotion_set. simpl.
    by rewrite <- app_assoc.
Qed.

(** [check_promotion_set_pd] never raises, and its result is read off the
    values: the organisms of the promotion set with a positive value go to
    the left end of the queue, then the organisms of that queue below the
    threshold go to the end of the promotion set. *)
Lemma check_promotion_set_pd_result (h : Heap) (p : Pool) :
  let demoted := List.filter (λ r, Qltb 0 (value (h r))) (promotion_set p) in
  let kept := List.filter (λ r, negb (Qltb 0 (value (h r))))
                          (promotion_set p) in
  let queue1 := rev demoted ++ queue p in
  check_promotion_set_pd h p
  = OK (mkPool (size p) (num_promoted p)
          (kept ++ List.filter (λ r, Qltb (value (h r)) hull_eps) queue1)
          (List.filter (λ r, negb (Qltb (value (h r)) hull_eps)) queue1)
          (selection p) (num_adds p)).
Proof.
  intros demoted kept queue1. unfold check_promotion_set_pd.
  rewrite demote_loop, remove_each_filter. simpl.
  rewrite promote_loop. simpl. by rewrite remove_each_filter.
Qed.

Lemma check_promotion_set_pd_invariant (h : Heap) (p : Pool) :
  ∃ p', check_promotion_set_pd h p = OK p'
        ∧ pd_invariant h p'
        ∧ to_list p' ≡ₚ to_list p.
Proof.
  eexists. split; [apply check_promotion_set_pd_result|]. split.
  - split; simpl; intros r Hr.
    + apply elem_of_app in Hr as [Hr|Hr];
        apply list_elem_of_In, filter_In in Hr as [_ Hr].
      * apply negb_true_iff, Qltb_ge in Hr.
        eapply Qle_lt_trans; [exact Hr|]. by vm_compute.
      * by apply Qltb_lt in Hr.
    + apply list_elem_of_In, filter_In in Hr as [_ Hr].
      by apply negb_true_iff, Qltb_ge in Hr.
  - assert (Hsplit : ∀ (F : nat → bool) (l : list nat),
              List.filter F l ++ List.filter (λ r, negb (F r)) l ≡ₚ l).
    { intros F l. induction l as [|x l IH]; [done|]. simpl.
      destruct (F x); simpl; [by rewrite IH|].
      rewrite <- Permutation_middle. by rewrite IH. }
    unfold to_list. simpl. rewrite <- app_assoc.
    etrans; [apply Permutation_app_head, Hsplit|].
    rewrite app_assoc. apply Permutation_app_tail.
    rewrite <- Permutation_rev, Permutation_app_comm. apply Hsplit.
Qed.

(** ** Phase diagram values *)

Lemma dict_get_set_eq {V : Type} (k : Z) (v : V) (d : list (Z * V)) :
  dict_get k (dict_set k v d) = Some v.
Proof.
  induction d as [|[k' v'] d IH]; simpl.
  - by destruct (decide (k = k)).
  - destruct (decide (k = k')) as [->|Hne]; simpl.
    + by destruct (decide (k' = k')).
    + by destruct (decide (k = k')).
Qed.

Lemma dict_get_set_ne {V : Type} (k k' : Z) (v : V) (d : list (Z * V)) :
  k ≠ k' → dict_get k' (dict_set k v d) = dict_get k' d.
Proof.
  intros Hne. induction d as [|[k'' v''] d IH]; simpl.
  - by destruct (decide (k' = k)).
  - destruct (decide (k = k'')) as [->|Hne']; simpl.
    + destruct (decide (k' = k'')); [congruence|done].
    + destruct (decide (k' = k'')); [done|exact IH].
Qed.

Lemma dict_get_fmap {V W : Type} (g : V → W) (k : Z) (d : list (Z * V)) :
  dict_get k ((λ kv : Z * V, (kv.1, g kv.2)) <$> d) = g <$> dict_get k d.
Proof.
  induction d as [|[k' v'] d IH]; simpl; [done|].
  destruct (decide (k = k')); [done|exact IH].
Qed.

Lemma make_pdentries_keys (h : Heap) (l : list Ref) (r : Ref) :
  r ∈ l → is_Some (dict_get (id (h r)) (make_pdentries h l)).
Proof.
  unfold make_pdentries.
  assert (Hgen : ∀ d, (r ∈ l ∨ is_Some (dict_get (id (h r)) d)) →
            is_Some (dict_get (id (h r))
              (foldl (λ d organism,
                        dict_set (id (h organism))
                          (mkPDEntry (composition (h organism))
                                     (total_energy (h organism))) d) d l))).
  { induction l as [|x l IH]; intros d [Hr|Hd]; simpl.
    - by apply elem_of_nil in Hr.
    - done.
    - apply IH. apply elem_of_cons in Hr as [->|Hr]; [right|by left].
      rewrite dict_get_set_eq. eauto.
    - apply IH. right.
      destruct (decide (id (h x) = id (h r))) as [->|Hne].
      + rewrite dict_get_set_eq. eauto.
      + by rewrite dict_get_set_ne. }
  intros Hr. apply Hgen. by left.
Qed.

Lemma assign_pd_values_OK (values : list (Z * Q)) (h : Heap) (l : list Ref) :
  (∀ r, r ∈ l → is_Some (dict_get (id (h r)) values)) →
  ∃ h', foldlM (assign_pd_value values) h l = OK h'
        ∧ ∀ r, ∃ v, h' r = with_value v (h r).
Proof.
  revert h. induction l as [|x l IH]; intros h Hkeys; simpl.
  - exists h. split; [done|]. intros r. exists (value (h r)). by destruct (h r).
  - destruct (Hkeys x) as [v Hv]; [apply list_elem_of_here|].
    assert (Hstep : assign_pd_value values h x = OK (set_value h x v)).
    { unfold assign_pd_value. by rewrite Hv. }
    rewrite Hstep. simpl.
    destruct (IH (set_value h x v)) as (h' & Hrun & Hsame).
    { intros r Hr. unfold set_value.
      rewrite (update_preserves id) by done.
      apply Hkeys. by apply list_elem_of_further. }
    exists h'. split; [exact Hrun|]. intros r.
    destruct (Hsame r) as [v' ->]. unfold set_value. rewrite update_lookup.
    destruct (decide (x = r)) as [->|_]; eauto.
Qed.

(** When the phase diagram can be built, [compute_pd_values] returns, and
    it changes nothing but values. *)
Lemma compute_pd_values_OK
    (phase_diagram : list PDEntry → list Composition → option (PDEntry → Q))
    (h : Heap) (l : list Ref) (cs : CompositionSpace) :
  is_Some (phase_diagram (make_pdentries h l).*2 (endpoints cs)) →
  ∃ h', compute_pd_values phase_diagram h l cs = OK h'
        ∧ ∀ r, ∃ v, h' r = with_value v (h r).
Proof.
  intros [g Hg]. unfold compute_pd_values. rewrite Hg.
  apply assign_pd_values_OK. intros r Hr.
  rewrite dict_get_fmap. apply fmap_is_Some. by apply make_pdentries_keys.
Qed.

(** When it cannot, the exception leaves [compute_pd_values]. *)
Lemma compute_pd_values_Raise
    (phase_diagram : list PDEntry → list Composition → option (PDEntry → Q))
    (h : Heap) (l : list Ref) (cs : CompositionSpace) :
  phase_diagram (make_pdentries h l).*2 (endpoints cs) = None →
  compute_pd_values phase_diagram h l cs = Raise PhaseDiagramError.
Proof. intros Hg. unfold compute_pd_values. by rewrite Hg. Qed.

(** ** Replacing an organism *)

Lemma replace_in_pool_absent (p : Pool) (old_org new_org : Ref) :
  old_org ∉ to_list p → replace_in_pool p old_org new_org = OK p.
Proof.
  intros Hold. unfold to_list in Hold.
  apply not_elem_of_app in Hold as [Hps Hq].
  apply py_in_false in Hps, Hq. unfold replace_in_pool. by rewrite Hps, Hq.
Qed.

(** A member is replaced where it stands: in the promotion set the new
    organism goes to the end, in the queue it takes the place of the old
    one. *)
Lemma replace_in_pool_member (p : Pool) (old_org new_org : Ref) :
  old_org ∈ to_list p → old_org ≠ new_org →
  ∃ p' l1 l2,
    replace_in_pool p old_org new_org = OK p'
    ∧ old_org ∉ l1
    ∧ ((promotion_set p = l1 ++ old_org :: l2
        ∧ promotion_set p' = l1 ++ l2 ++ [new_org]
        ∧ queue p' = queue p)
       ∨ (old_org ∉ promotion_set p
          ∧ queue p = l1 ++ old_org :: l2
          ∧ queue p' = l1 ++ new_org :: l2
          ∧ promotion_set p' = promotion_set p)).
Proof.
  intros Hold Hne. unfold replace_in_pool.
  destruct (py_in old_org (promotion_set p)) eqn:Hps.
  - apply py_in_true in Hps.
    destruct (py_remove_OK _ _ Hps) as (l1 & l2 & Heq & Hl1 & ->). simpl.
    eexists _, l1, l2. split; [done|]. split; [done|]. left.
    split; [done|]. simpl. by rewrite <- app_assoc.
  - apply py_in_false in Hps.
    assert (Hq : old_org ∈ queue p).
    { unfold to_list in Hold. apply elem_of_app in Hold as [?|?]; done. }
    apply py_in_true in Hq as Hqb. rewrite Hqb.
    destruct (py_index_OK _ _ Hq) as (l1 & l2 & Heq & Hl1 & ->). simpl.
    unfold py_insert. rewrite Heq.
    rewrite take_app_length, drop_app_length.
    replace (l1 ++ new_org :: old_org :: l2)
      with ((l1 ++ [new_org]) ++ old_org :: l2) by by rewrite <- app_assoc.
    rewrite py_remove_skip.
    2:{ apply not_elem_of_app. split; [done|].
        by apply not_elem_of_cons; split; [|apply not_elem_of_nil]. }
    simpl. eexists _, l1, l2. split; [done|]. split; [done|]. right.
    split; [done|]. split; [done|]. simpl. by rewrite <- app_assoc.
Qed.

Lemma replace_flags (h : Heap) (old_org new_org : Ref) :
  old_org ≠ new_org →
  let h' := set_is_active (set_is_active h old_org false) new_org true in
  is_active (h' old_org) = false ∧ is_active (h' new_org) = true.
Proof.
  intros Hne. simpl. unfold set_is_active. split.
  - rewrite update_ne by done. by rewrite update_eq.
  - by rewrite update_eq.
Qed.

(** C7: replacing a member [old_org] of a pool without repeated organisms
    by another organism [new_org] returns (in a phase diagram search, when
    the phase diagram can be built); afterwards [to_list] holds [new_org]
    and not [old_org], [old_org] is inactive and [new_org] is active. *)
Theorem replace_organism_member
    (phase_diagram : list PDEntry → list Composition → option (PDEntry → Q))
    (h : Heap) (p : Pool) (old_org new_org : Ref) (cs : CompositionSpace) :
  NoDup (to_list p) →
  old_org ∈ to_list p →
  old_org ≠ new_org →
  (objective_function cs = pd_objective →
   is_Some (phase_diagram (make_pdentries h (to_list p ++ [new_org])).*2
                          (endpoints cs))) →
  ∃ h' p', replace_organism phase_diagram h p old_org new_org cs = OK (h', p')
           ∧ new_org ∈ to_list p'
           ∧ old_org ∉ to_list p'
           ∧ is_active (h' old_org) = false
           ∧ is_active (h' new_org) = true.
Proof.
  intros Hnodup Hold Hne Hpd.
  destruct (replace_in_pool_member p old_org new_org Hold Hne)
    as (p1 & l1 & l2 & Hrep & Hl1 & Hcases).
  assert (Hmem : new_org ∈ to_list p1 ∧ old_org ∉ to_list p1).
  { unfold to_list in *.
    destruct Hcases as [(Hps & Hps1 & Hq1)|(Hnps & Hq & Hq1 & Hps1)].
    - rewrite Hps1, Hq1. rewrite Hps in Hnodup.
      apply NoDup_app in Hnodup as (Hnd & Hdisj & _).
      apply NoDup_app in Hnd as (_ & _ & Hnd2).
      apply NoDup_cons in Hnd2 as [Hl2 _].
      split.
      + rewrite !elem_of_app, list_elem_of_singleton. auto.
      + rewrite !elem_of_app, list_elem_of_singleton.
        intros [[?|[?|?]]|Hq]; [done..|].
        apply (Hdisj old_org); [|done].
        apply elem_of_app. right. apply list_elem_of_here.
    - rewrite Hps1, Hq1. rewrite Hq in Hnodup.
      apply NoDup_app in Hnodup as (_ & _ & Hnd).
      apply NoDup_app in Hnd as (_ & _ & Hnd2).
      apply NoDup_cons in Hnd2 as [Hl2 _].
      split.
      + rewrite !elem_of_app, elem_of_cons. auto.
      + rewrite !elem_of_app, elem_of_cons.
        intros [?|[?|[?|?]]]; done. }
  unfold replace_organism.
  destruct (objective_function cs) eqn:Hobj.
  - simpl. rewrite Hrep. simpl. eexists _, p1. split; [done|].
    destruct Hmem. do 2 (split; [done|]). by apply replace_flags.
  - destruct (compute_pd_values_OK phase_diagram h (to_list p ++ [new_org]) cs)
      as (h1 & -> & _); [by apply Hpd|].
    simpl. rewrite Hrep. simpl.
    destruct (check_promotion_set_pd_invariant
                (set_is_active (set_is_active h1 old_org false) new_org true)
                p1) as (p2 & -> & _ & Hperm).
    simpl. eexists _, p2. split; [done|]. rewrite Hperm.
    destruct Hmem. do 2 (split; [done|]). by apply replace_flags.
Qed.

Lemma replace_organism_member_witness :
  ∃ h' p', replace_organism flat_phase_diagram demo_heap demo_pool
             3%nat 4%nat demo_pd_space = OK (h', p')
           ∧ 4%nat ∈ to_list p' ∧ 3%nat ∉ to_list p'
           ∧ is_active (h' 3%nat) = false ∧ is_active (h' 4%nat) = true.
Proof.
  apply (replace_organism_member flat_phase_diagram demo_heap demo_pool
           3%nat 4%nat demo_pd_space).
  - compute_done.
  - compute_done.
  - lia.
  - intros _. vm_compute. eauto.
Defined.

(** C9, as amended: in a fixed-composition search, replacing an organism
    [old_org] that is not in the pool by an organism [new_org] that is
    distinct from it and not in the pool either raises nothing and leaves
    the pool as it was, so [new_org] is still absent from [to_list]; yet
    [old_org] is made inactive and [new_org] active. *)
Theorem replace_organism_not_member
    (phase_diagram : list PDEntry → list Composition → option (PDEntry → Q))
    (h : Heap) (p : Pool) (old_org new_org : Ref) (cs : CompositionSpace) :
  objective_function cs = epa_objective →
  old_org ∉ to_list p →
  new_org ∉ to_list p →
  old_org ≠ new_org →
  ∃ h', replace_organism phase_diagram h p old_org new_org cs = OK (h', p)
        ∧ new_org ∉ to_list p
        ∧ is_active (h' old_org) = false
        ∧ is_active (h' new_org) = true.
Proof.
  intros Hobj Hold Hnew Hne. unfold replace_organism. rewrite Hobj. simpl.
  rewrite replace_in_pool_absent by done. simpl.
  eexists. split; [done|]. split; [done|]. by apply replace_flags.
Qed.

Lemma replace_organism_not_member_witness :
  ∃ h', replace_organism flat_phase_diagram demo_heap demo_pool 7%nat 8%nat
          demo_epa_space = OK (h', demo_pool)
        ∧ 8%nat ∉ to_list demo_pool
        ∧ is_active (h' 7%nat) = false
        ∧ is_active (h' 8%nat) = true.
Proof.
  apply (replace_organism_not_member flat_phase_diagram demo_heap demo_pool
           7%nat 8%nat demo_epa_space).
  - reflexivity.
  - compute_done.
  - compute_done.
  - lia.
Defined.

(** C9 as it is stated, for every [new_org], fails: when [old_org] and
    [new_org] are one organism, the flag set to false is set to true again
    by the next statement. *)
Lemma replace_organism_same_organism_stays_active :
  ¬ (∀ (h : nat → Organism) (p : Pool) (old_org new_org : nat)
       (cs : CompositionSpace),
       objective_function cs = epa_objective →
       old_org ∉ to_list p →
       ∃ h', replace_organism flat_phase_diagram h p old_org new_org cs
             = OK (h', p)
             ∧ new_org ∉ to_list p
             ∧ is_active (h' old_org) = false
             ∧ is_active (h' new_org) = true).
Proof.
  intros Hclaim.
  destruct (Hclaim demo_heap demo_pool 7%nat 7%nat demo_epa_space)
    as (h' & _ & _ & Hfalse & Htrue); [reflexivity|compute_done|].
  congruence.
Qed.

(** The same call, evaluated: the pool is unchanged and the organism is
    active. *)
Lemma replace_organism_same_organism_run :
  ∃ h', replace_organism flat_phase_diagram demo_heap demo_pool 7%nat 7%nat
          demo_epa_space = OK (h', demo_pool)
        ∧ is_active (h' 7%nat) = true.
Proof. eexists. split; reflexivity. Qed.

(** ** Adding an organism in a fixed-composition search *)

Lemma worst_scan (h : Heap) (l : list Ref) (w0 : Ref) :
  let w := foldl (λ worst organism,
                    if Qltb (value (h worst)) (value (h organism))
                    then organism else worst) w0 l in
  (w = w0 ∨ w ∈ l)
  ∧ value (h w0) <= value (h w)
  ∧ ∀ r, r ∈ l → value (h r) <= value (h w).
Proof.
  revert w0. induction l as [|x l IH]; intros w0; simpl.
  - split; [by left|]. split; [apply Qle_refl|].
    intros r Hr. by apply elem_of_nil in Hr.
  - destruct (Qltb (value (h w0)) (value (h x))) eqn:Hcmp.
    + apply Qltb_lt in Hcmp. destruct (IH x) as (Hin & Hle & Hall).
      split; [|split].
      * right. destruct Hin as [->|Hin];
          [apply list_elem_of_here | by apply list_elem_of_further].
      * eapply Qle_trans; [apply Qlt_le_weak, Hcmp | exact Hle].
      * intros r Hr. apply elem_of_cons in Hr as [->|Hr]; [done|by apply Hall].
    + apply Qltb_ge in Hcmp. destruct (IH w0) as (Hin & Hle & Hall).
      split; [|split].
      * destruct Hin as [->|Hin]; [by left|].
        right. by apply list_elem_of_further.
      * done.
      * intros r Hr. apply elem_of_cons in Hr as [->|Hr]; [|by apply Hall].
        by eapply Qle_trans.
Qed.

(** [get_worst_in_promotion_set] raises [IndexError] on an empty promotion
    set and otherwise returns a member whose value no member exceeds. *)
Lemma get_worst_in_promotion_set_empty (h : Heap) (p : Pool) :
  promotion_set p = [] → get_worst_in_promotion_set h p = Raise IndexError.
Proof. intros Hps. unfold get_worst_in_promotion_set. by rewrite Hps. Qed.

Lemma get_worst_in_promotion_set_max (h : Heap) (p : Pool) :
  promotion_set p ≠ [] →
  ∃ w, get_worst_in_promotion_set h p = OK w
       ∧ w ∈ promotion_set p
       ∧ ∀ r, r ∈ promotion_set p → value (h r) <= value (h w).
Proof.
  intros Hps. unfold get_worst_in_promotion_set.
  destruct (promotion_set p) as [|w0 l] eqn:Heq; [done|]. simpl.
  eexists. split; [done|].
  pose proof (worst_scan h (w0 :: l) w0) as (Hin & _ & Hall). simpl in *.
  split; [|exact Hall].
  destruct Hin as [->|Hin]; [apply list_elem_of_here|done].
Qed.

Lemma epa_invariant_worst (h : Heap) (p : Pool) (w : Ref) :
  get_worst_in_promotion_set h p = OK w →
  epa_invariant h p ↔ ∀ q, q ∈ queue p → value (h w) <= value (h q).
Proof.
  intros Hw.
  assert (Hps : promotion_set p ≠ []).
  { intros Hps. by rewrite get_worst_in_promotion_set_empty in Hw. }
  destruct (get_worst_in_promotion_set_max h p Hps) as (w' & Hw' & Hin & Hmax).
  rewrite Hw in Hw'. injection Hw' as <-.
  split.
  - intros Hinv q Hq. by apply Hinv.
  - intros Hall r q Hr Hq. eapply Qle_trans; [by apply Hmax|by apply Hall].
Qed.

(** C6: in a fixed-composition search, if the worst organism of a non-empty
    promotion set is no worse than any organism of the queue, then adding an
    organism that is not yet in the pool returns and the same holds of the
    new pool. *)
Theorem add_organism_epa_invariant
    (phase_diagram : list PDEntry → list Composition → option (PDEntry → Q))
    (h : Heap) (p : Pool) (organism_to_add w : Ref) (cs : CompositionSpace) :
  objective_function cs = epa_objective →
  get_worst_in_promotion_set h p = OK w →
  (∀ q, q ∈ queue p → value (h w) <= value (h q)) →
  organism_to_add ∉ to_list p →
  ∃ h' p' w',
    add_organism phase_diagram h p organism_to_add cs = OK (h', p')
    ∧ get_worst_in_promotion_set h' p' = OK w'
    ∧ (∀ q, q ∈ queue p' → value (h' w') <= value (h' q))
    ∧ epa_invariant h' p'.
Proof.
  intros Hobj Hw Hworst Hnew.
  pose proof (proj2 (epa_invariant_worst h p w Hw) Hworst) as Hinv.
  assert (Hps : promotion_set p ≠ []).
  { intros Hps. by rewrite get_worst_in_promotion_set_empty in Hw. }
  unfold to_list in Hnew. apply not_elem_of_app in Hnew as [Hnps Hnq].
  set (p0 := with_num_adds (num_adds p + 1) p).
  set (h1 := set_is_active h organism_to_add true).
  set (h2 := set_value h1 organism_to_add (epa (h1 organism_to_add))).
  assert (Hval : ∀ r, r ≠ organism_to_add → value (h2 r) = value (h r)).
  { intros r Hr. unfold h2, h1, set_value, set_is_active.
    by rewrite !update_ne. }
  assert (Hvps : ∀ r, r ∈ promotion_set p → value (h2 r) = value (h r)).
  { intros r Hr. apply Hval. by intros ->. }
  assert (Hvq : ∀ r, r ∈ queue p → value (h2 r) = value (h r)).
  { intros r Hr. apply Hval. by intros ->. }
  destruct (get_worst_in_promotion_set_max h2 p0 Hps)
    as (w2 & Hw2 & Hin2 & Hmax2).
  change (promotion_set p0) with (promotion_set p) in Hin2, Hmax2.
  assert (Hfinish : ∀ p', epa_invariant h2 p' → promotion_set p' ≠ [] →
            ∃ w', get_worst_in_promotion_set h2 p' = OK w'
                  ∧ (∀ q, q ∈ queue p' → value (h2 w') <= value (h2 q))
                  ∧ epa_invariant h2 p').
  { intros p' Hinv' Hps'.
    destruct (get_worst_in_promotion_set_max h2 p' Hps') as (w' & Hw' & _).
    exists w'. split; [done|]. split; [|done].
    by apply (epa_invariant_worst h2 p' w' Hw'). }
  unfold add_organism. rewrite Hobj. fold p0 h1 h2. rewrite Hw2. simpl.
  destruct (Qltb (value (h2 organism_to_add)) (value (h2 w2))) eqn:Hcmp.
  - apply Qltb_lt in Hcmp.
    destruct (py_remove_OK _ _ Hin2) as (l1 & l2 & Hsplit & Hl1 & _).
    change (promotion_set p0) with (promotion_set p). rewrite Hsplit.
    rewrite <- app_assoc. simpl. rewrite py_remove_skip by done. simpl.
    set (p' := with_queue _ _).
    destruct (Hfinish p') as (w' & Hw' & Hq' & Hinv').
    + intros r q Hr Hq. simpl in Hr, Hq.
      assert (Hr2 : value (h2 r) <= value (h2 w2)).
      { rewrite !elem_of_app, list_elem_of_singleton in Hr.
        destruct Hr as [Hr|[Hr| ->]].
        - apply Hmax2. rewrite Hsplit, elem_of_app. by left.
        - apply Hmax2. rewrite Hsplit, elem_of_app, elem_of_cons. auto.
        - by apply Qlt_le_weak. }
      eapply Qle_trans; [exact Hr2|].
      apply elem_of_cons in Hq as [->|Hq]; [apply Qle_refl|].
      rewrite Hvps, Hvq by done. by apply Hinv.
    + simpl. intros Hnil. by apply app_eq_nil in Hnil as [_ [_ ?]%app_eq_nil].
    + by exists h2, p', w'.
  - apply Qltb_ge in Hcmp.
    set (p' := with_queue _ _).
    destruct (Hfinish p') as (w' & Hw' & Hq' & Hinv').
    + intros r q Hr Hq. simpl in Hr, Hq.
      apply elem_of_cons in Hq as [->|Hq].
      * eapply Qle_trans; [by apply Hmax2|done].
      * rewrite Hvps, Hvq by done. by apply Hinv.
    + done.
    + by exists h2, p', w'.
Qed.

Lemma add_organism_epa_invariant_witness :
  ∃ h' p', add_organism flat_phase_diagram epa_heap epa_pool 4%nat
             demo_epa_space = OK (h', p')
           ∧ epa_invariant h' p'.
Proof.
  destruct (add_organism_epa_invariant flat_phase_diagram epa_heap epa_pool
              4%nat 2%nat demo_epa_space)
    as (h' & p' & w' & Hrun & _ & _ & Hinv).
  - reflexivity.
  - reflexivity.
  - intros q Hq. apply list_elem_of_singleton in Hq as ->. by vm_compute.
  - compute_done.
  - by exists h', p'.
Defined.

(** ** The phase diagram invariant *)

Lemma replace_in_pool_total (p : Pool) (old_org new_org : Ref) :
  ∃ p', replace_in_pool p old_org new_org = OK p'.
Proof.
  unfold replace_in_pool.
  destruct (py_in old_org (promotion_set p)) eqn:Hps.
  - apply py_in_true in Hps.
    destruct (py_remove_OK _ _ Hps) as (l1 & l2 & _ & _ & ->). simpl. eauto.
  - destruct (py_in old_org (queue p)) eqn:Hq; [|eauto].
    apply py_in_true in Hq.
    destruct (py_index_OK _ _ Hq) as (l1 & l2 & Heq & Hl1 & ->). simpl.
    unfold py_insert. rewrite Heq, take_app_length, drop_app_length.
    destruct (decide (old_org = new_org)) as [<-|Hne].
    + rewrite py_remove_skip by done. simpl. eauto.
    + replace (l1 ++ new_org :: old_org :: l2)
        with ((l1 ++ [new_org]) ++ old_org :: l2) by by rewrite <- app_assoc.
      rewrite py_remove_skip; [simpl; eauto|].
      apply not_elem_of_app. split; [done|].
      by apply not_elem_of_cons; split; [|apply not_elem_of_nil].
Qed.

(** X11: In a phase diagram search [replace_organism] returns whenever the
    phase diagram can be built, whatever the pool and the two organisms,
    and it leaves the pool with the invariant. *)
Lemma replace_organism_pd_invariant
    (phase_diagram : list PDEntry → list Composition → option (PDEntry → Q))
    (h : Heap) (p : Pool) (old_org new_org : Ref) (cs : CompositionSpace) :
  objective_function cs = pd_objective →
  is_Some (phase_diagram (make_pdentries h (to_list p ++ [new_org])).*2
                         (endpoints cs)) →
  ∃ h' p', replace_organism phase_diagram h p old_org new_org cs = OK (h', p')
           ∧ pd_invariant h' p'.
Proof.
  intros Hobj Hpd. unfold replace_organism. rewrite Hobj.
  destruct (compute_pd_values_OK phase_diagram h (to_list p ++ [new_org]) cs
              Hpd) as (h1 & -> & _). simpl.
  destruct (replace_in_pool_total p old_org new_org) as [p1 ->]. simpl.
  destruct (check_promotion_set_pd_invariant
              (set_is_active (set_is_active h1 old_org false) new_org true) p1)
    as (p2 & -> & Hinv & _).
  simpl. eauto.
Qed.

(** X10: In a phase diagram search [add_organism] returns whenever the phase
    diagram can be built; the pool it leaves has the invariant exactly when
    the value of the new organism is 0 or at least the threshold. *)
Lemma add_organism_pd_invariant_iff
    (phase_diagram : list PDEntry → list Composition → option (PDEntry → Q))
    (h : Heap) (p : Pool) (organism_to_add : Ref) (cs : CompositionSpace) :
  objective_function cs = pd_objective →
  is_Some (phase_diagram
             (make_pdentries (set_is_active h organism_to_add true)
                             (to_list p ++ [organism_to_add])).*2
             (endpoints cs)) →
  ∃ h' p', add_organism phase_diagram h p organism_to_add cs = OK (h', p')
           ∧ (pd_invariant h' p' ↔
              value (h' organism_to_add) == 0
              ∨ hull_eps <= value (h' organism_to_add)).
Proof.
  intros Hobj Hpd. unfold add_organism. rewrite Hobj.
  change (to_list (with_num_adds (num_adds p + 1) p)) with (to_list p).
  destruct (compute_pd_values_OK phase_diagram _ _ cs Hpd) as (h1 & -> & _).
  simpl.
  destruct (check_promotion_set_pd_invariant h1
              (with_num_adds (num_adds p + 1) p))
    as (p1 & -> & [Hps Hq] & _).
  simpl. destruct (Qeqb (value (h1 organism_to_add)) 0) eqn:Hzero.
  - apply Qeqb_eq in Hzero. eexists _, _. split; [done|]. split; [by left|].
    intros _. split; simpl; [|done].
    intros r Hr. apply elem_of_app in Hr as [Hr|Hr]; [by apply Hps|].
    apply list_elem_of_singleton in Hr as ->. rewrite Hzero. by vm_compute.
  - apply Qeqb_neq in Hzero. eexists _, _. split; [done|]. split.
    + intros [_ Hq']. right. apply Hq'. simpl. apply list_elem_of_here.
    + intros [?|Hge]; [done|]. split; simpl; [done|].
      intros r Hr. apply elem_of_cons in Hr as [->|Hr]; [done|by apply Hq].
Qed.

(** C1 fails for [add_organism]: the new organism is placed by the test
    [value == 0.0], not by the threshold.  Here the pool has the invariant,
    the new organism gets the value [5e-10] and lands in the queue. *)
Theorem add_organism_pd_breaks_invariant :
  pd_invariant pd_heap pd_pool
  ∧ ∃ h' p', add_organism tiny_phase_diagram pd_heap pd_pool 3%nat
               demo_pd_space = OK (h', p')
             ∧ promotion_set p' = [1%nat]
             ∧ queue p' = [3%nat; 2%nat]
             ∧ value (h' 3%nat) == 1 # 2000000000
             ∧ ¬ pd_invariant h' p'.
Proof.
  split.
  - split; intros r Hr; apply list_elem_of_singleton in Hr as ->; by vm_compute.
  - eexists _, _. split; [reflexivity|]. do 3 (split; [reflexivity|]).
    intros [_ Hq]. specialize (Hq 3%nat (list_elem_of_here _ _)).
    by vm_compute in Hq.
Qed.

(** ** Selecting organisms *)

Section Selection.
Variables (h : nat → Organism) (n : Z) (pool_list : list nat).

Lemma scan_pool_sound (rand : Q) (l selected : list Ref) :
  (∀ r, r ∈ l → r ∈ pool_list) →
  NoDup selected →
  (∀ r, r ∈ selected → r ∈ pool_list) →
  match scan_pool h n rand l selected with
  | inl res =>
      Z.of_nat (length res) = n ∧ NoDup res ∧ ∀ r, r ∈ res → r ∈ pool_list
  | inr selected' =>
      NoDup selected' ∧ ∀ r, r ∈ selected' → r ∈ pool_list
  end.
Proof.
  revert selected. induction l as [|x l IH]; intros selected Hl Hnd Hsub.
  - done.
  - assert (Hl' : ∀ r, r ∈ l → r ∈ pool_list).
    { intros r Hr. apply Hl. by apply list_elem_of_further. }
    simpl. destruct (in_interval h x rand); [|by apply IH].
    destruct (py_in x selected) eqn:Hin; simpl; [by apply IH|].
    apply py_in_false in Hin.
    assert (Hnd' : NoDup (selected ++ [x])).
    { apply NoDup_app. split; [done|]. split; [|apply NoDup_singleton].
      intros r Hr Hx. apply list_elem_of_singleton in Hx as ->. done. }
    assert (Hsub' : ∀ r, r ∈ selected ++ [x] → r ∈ pool_list).
    { intros r Hr. apply elem_of_app in Hr as [Hr|Hr]; [by apply Hsub|].
      apply list_elem_of_singleton in Hr as ->. apply Hl, list_elem_of_here. }
    destruct (Z.eqb_spec (Z.of_nat (length (selected ++ [x]))) n) as [Hn|Hn].
    + done.
    + by apply IH.
Qed.

Lemma select_loop_sound (draws : list Q) (selected res : list Ref) :
  NoDup selected →
  (∀ r, r ∈ selected → r ∈ pool_list) →
  select_loop h n pool_list draws selected = Some res →
  Z.of_nat (length res) = n ∧ NoDup res ∧ ∀ r, r ∈ res → r ∈ pool_list.
Proof.
  revert selected. induction draws as [|rand draws IH];
    intros selected Hnd Hsub Hrun; [done|].
  simpl in Hrun.
  pose proof (scan_pool_sound rand pool_list selected (λ r Hr, Hr) Hnd Hsub)
    as Hscan.
  destruct (scan_pool h n rand pool_list selected) as [res'|selected'].
  - by injection Hrun as <-.
  - destruct Hscan as [Hnd' Hsub']. by eapply IH.
Qed.
End Selection.

(** C5: whenever [select_organisms] returns, on whatever draws, the list
    it returns has exactly [n] organisms, no organism twice, and only
    organisms of the pool. *)
Theorem select_organisms_sound (h : Heap) (p : Pool) (n : Z) (draws : list Q)
    (res : list Ref) :
  select_organisms h p n draws = Some res →
  Z.of_nat (length res) = n
  ∧ NoDup res
  ∧ ∀ r, r ∈ res → r ∈ to_list p.
Proof.
  unfold select_organisms. apply select_loop_sound.
  - apply NoDup_nil_2.
  - intros r Hr. by apply elem_of_nil in Hr.
Qed.

Lemma select_organisms_sound_witness :
  select_organisms selection_heap demo_pool 2 [1 # 2; 1 # 10]
  = Some [2%nat; 3%nat]
  ∧ NoDup [2%nat; 3%nat].
Proof.
  assert (Hrun : select_organisms selection_heap demo_pool 2 [1 # 2; 1 # 10]
                 = Some [2%nat; 3%nat]) by by vm_compute.
  split; [exact Hrun|].
  by destruct (select_organisms_sound _ _ _ _ _ Hrun) as (_ & Hnd & _).
Defined.

(** The loop does return when the draws reach enough organisms. *)
Section SelectionProgress.
Variables (h : nat → Organism) (n : Z) (pool_list : list nat).

Lemma scan_pool_progress (rand : Q) (l selected selected' : list Ref) :
  (Z.of_nat (length selected) < n)%Z →
  scan_pool h n rand l selected = inr selected' →
  (Z.of_nat (length selected') < n)%Z
  ∧ (∀ r, r ∈ selected → r ∈ selected')
  ∧ (∀ r, r ∈ l → in_interval h r rand = true → r ∈ selected').
Proof.
  revert selected. induction l as [|x l IH]; intros selected Hlen Hrun.
  - injection Hrun as <-. split; [done|]. split; [done|].
    intros r Hr. by apply elem_of_nil in Hr.
  - simpl in Hrun. destruct (in_interval h x rand) eqn:Hhit.
    + destruct (py_in x selected) eqn:Hin; simpl in Hrun.
      * apply py_in_true in Hin.
        destruct (IH selected Hlen Hrun) as (Hlen' & Hsub & Hall).
        split; [done|]. split; [done|].
        intros r Hr Hr'. apply elem_of_cons in Hr as [->|Hr]; auto.
      * destruct (Z.eqb_spec (Z.of_nat (length (selected ++ [x]))) n)
          as [Hn|Hn]; [done|].
        destruct (IH (selected ++ [x])) as (Hlen' & Hsub & Hall); [|done|].
        { rewrite length_app in *. simpl in *. lia. }
        split; [done|]. split.
        -- intros r Hr. apply Hsub, elem_of_app. by left.
        -- intros r Hr Hr'. apply elem_of_cons in Hr as [->|Hr]; [|auto].
           apply Hsub, elem_of_app. right. apply list_elem_of_here.
    + destruct (IH selected Hlen Hrun) as (Hlen' & Hsub & Hall).
      split; [done|]. split; [done|].
      intros r Hr Hr'. apply elem_of_cons in Hr as [->|Hr]; [congruence|auto].
Qed.

Lemma select_loop_progress (draws : list Q) (selected : list Ref) :
  (Z.of_nat (length selected) < n)%Z →
  select_loop h n pool_list draws selected = None →
  ∃ selected',
    (Z.of_nat (length selected') < n)%Z
    ∧ (∀ r, r ∈ selected → r ∈ selected')
    ∧ ∀ r rand, r ∈ pool_list → rand ∈ draws →
                in_interval h r rand = true → r ∈ selected'.
Proof.
  revert selected. induction draws as [|rand draws IH]; intros selected Hlen Hrun.
  - exists selected. split; [done|]. split; [done|].
    intros r rand _ Hd. by apply elem_of_nil in Hd.
  - simpl in Hrun.
    destruct (scan_pool h n rand pool_list selected) as [?|selected1] eqn:Hscan;
      [done|].
    destruct (scan_pool_progress _ _ _ _ Hlen Hscan) as (Hlen1 & Hsub1 & Hall1).
    destruct (IH selected1 Hlen1 Hrun) as (selected2 & Hlen2 & Hsub2 & Hall2).
    exists selected2. split; [done|]. split; [auto|].
    intros r d Hr Hd Hhit. apply elem_of_cons in Hd as [->|Hd]; eauto.
Qed.
End SelectionProgress.

(** If the draws fall into the intervals of at least [n >= 1] distinct
    organisms of the pool, [select_organisms] returns on these draws. *)
Lemma select_organisms_returns (h : Heap) (p : Pool) (n : Z) (draws : list Q)
    (hit : list Ref) :
  (1 ≤ n ≤ Z.of_nat (length hit))%Z →
  NoDup hit →
  (∀ r, r ∈ hit →
        r ∈ to_list p ∧ ∃ rand, rand ∈ draws ∧ in_interval h r rand = true) →
  is_Some (select_organisms h p n draws).
Proof.
  intros Hn Hnd Hhit. unfold select_organisms.
  destruct (select_loop h n (to_list p) draws []) as [res|] eqn:Hrun; [eauto|].
  destruct (select_loop_progress h n (to_list p) draws [] ltac:(simpl; lia) Hrun)
    as (sel & Hlen & _ & Hall).
  assert (Hsub : hit ⊆+ sel).
  { apply NoDup_submseteq; [done|]. intros r Hr.
    destruct (Hhit r Hr) as (Hp & rand & Hd & Hin). eauto. }
  apply submseteq_length in Hsub. lia.
Qed.

(** ** Selection probabilities *)

Lemma foldlM_cons {A S : Type} (f : S → A → result S) (s : S) (a : A)
    (l : list A) :
  foldlM f s (a :: l) = (s' ← f s a; foldlM f s' l).
Proof. reflexivity. Qed.

Lemma Qsum_app (f : Ref → Q) (l1 l2 : list Ref) :
  Qsum f (l1 ++ l2) == Qsum f l1 + Qsum f l2.
Proof.
  induction l1 as [|x l1 IH]; simpl; [ring|]. rewrite IH. ring.
Qed.

Lemma Qsum_Permutation (f : Ref → Q) (l1 l2 : list Ref) :
  l1 ≡ₚ l2 → Qsum f l1 == Qsum f l2.
Proof.
  induction 1 as [|x l1 l2 _ IH|x y l|l1 l2 l3 _ IH1 _ IH2]; simpl.
  - reflexivity.
  - by rewrite IH.
  - ring.
  - by rewrite IH1.
Qed.

Lemma Qsum_nonneg (f : Ref → Q) (l : list Ref) :
  (∀ r, r ∈ l → 0 <= f r) → 0 <= Qsum f l.
Proof.
  induction l as [|x l IH]; intros Hf; simpl; [apply Qle_refl|].
  assert (0 <= f x) by apply Hf, list_elem_of_here.
  assert (0 <= Qsum f l).
  { apply IH. intros r Hr. apply Hf. by apply list_elem_of_further. }
  lra.
Qed.

Lemma Qsum_pos (f : Ref → Q) (l : list Ref) (r : Ref) :
  (∀ r, r ∈ l → 0 <= f r) → r ∈ l → 0 < f r → 0 < Qsum f l.
Proof.
  intros Hf Hr Hpos. apply list_elem_of_split in Hr as (l1 & l2 & ->).
  rewrite Qsum_app. simpl.
  assert (0 <= Qsum f l1).
  { apply Qsum_nonneg. intros r' Hr'. apply Hf, elem_of_app. by left. }
  assert (0 <= Qsum f l2).
  { apply Qsum_nonneg. intros r' Hr'. apply Hf, elem_of_app. right.
    by apply list_elem_of_further. }
  lra.
Qed.

Lemma Qsum_share (denom : Q) (pw : nat) (f : Ref → Q) (l : list Ref) :
  Qsum (share denom pw f) l == Qsum (λ r, math_pow (f r) pw) l / denom.
Proof.
  induction l as [|x l IH]; simpl.
  - unfold Qdiv. ring.
  - rewrite IH. unfold share, Qdiv. ring.
Qed.

Lemma denominator_sum (h : Heap) (pw : nat) (l : list Ref) (d0 : Q) :
  foldl (λ denom organism, denom + math_pow (fitness (h organism)) pw) d0 l
  == d0 + Qsum (λ r, math_pow (fitness (h r)) pw) l.
Proof.
  revert d0. induction l as [|x l IH]; intros d0; simpl; [ring|].
  rewrite IH. ring.
Qed.

Lemma math_pow_nonneg (x : Q) (n : nat) : 0 <= x → 0 <= math_pow x n.
Proof. apply Qpower_0_le. Qed.

Lemma math_pow_pos (x : Q) (n : nat) : 0 < x → 0 < math_pow x n.
Proof. apply Qpower_0_lt. Qed.

Section SelectionLoop.
Variables (denom : Q) (pw : nat) (f : nat → Q).
Hypothesis denom_nonzero : Qeqb denom 0 = false.

Lemma assign_selection_OK (h : Heap) (loc : Q) (x : Ref) :
  fitness (h x) = f x →
  assign_selection denom pw (h, loc) x
  = OK (set_selection h x (share denom pw f x) loc,
        loc + share denom pw f x).
Proof.
  intros Hf. unfold assign_selection, py_div. rewrite denom_nonzero. simpl.
  unfold set_selection. rewrite update_eq. simpl. unfold share.
  by rewrite Hf.
Qed.

Lemma selection_loop (l : list Ref) (h : Heap) (loc0 : Q) :
  NoDup l →
  (∀ r, fitness (h r) = f r) →
  ∃ h' loc',
    foldlM (assign_selection denom pw) (h, loc0) l = OK (h', loc')
    ∧ (∀ r, fitness (h' r) = f r)
    ∧ (∀ r, value (h' r) = value (h r))
    ∧ (∀ r, r ∉ l → h' r = h r)
    ∧ (∀ r, r ∈ l → selection_prob (h' r) = share denom pw f r)
    ∧ (∀ i r, l !! i = Some r →
              selection_loc (h' r)
              == loc0 + Qsum (share denom pw f) (take i l))
    ∧ loc' == loc0 + Qsum (share denom pw f) l.
Proof.
  revert h loc0. induction l as [|x l IH]; intros h loc0 Hnd Hf.
  - exists h, loc0. split; [done|]. do 3 (split; [done|]).
    split; [intros r Hr; by apply elem_of_nil in Hr|].
    split; [intros i r Hi; by rewrite lookup_nil in Hi|].
    simpl. ring.
  - apply NoDup_cons in Hnd as [Hx Hnd].
    rewrite foldlM_cons, assign_selection_OK by done.
    set (h1 := set_selection h x (share denom pw f x) loc0).
    destruct (IH h1 (loc0 + share denom pw f x) Hnd)
      as (h' & loc' & Hrun & Hf' & Hv' & Hout & Hprob & Hloc & Hend).
    { intros r. unfold h1, set_selection.
      rewrite (update_preserves fitness) by done. done. }
    assert (Hx1 : h' x = h1 x) by by apply Hout.
    exists h', loc'. split; [exact Hrun|]. split; [done|].
    split; [|split; [|split; [|split]]].
    + intros r. rewrite Hv'. unfold h1, set_selection.
      by apply update_preserves.
    + intros r Hr. apply not_elem_of_cons in Hr as [Hne Hr].
      rewrite Hout by done. unfold h1, set_selection. by rewrite update_ne.
    + intros r Hr. apply elem_of_cons in Hr as [->|Hr]; [|by apply Hprob].
      rewrite Hx1. unfold h1, set_selection. by rewrite update_eq.
    + intros [|i] r Hi; simpl in Hi.
      * injection Hi as <-. rewrite Hx1. unfold h1, set_selection.
        rewrite update_eq. simpl. ring.
      * rewrite (Hloc i r Hi). simpl. ring.
    + rewrite Hend. simpl. ring.
Qed.
End SelectionLoop.

Lemma Qsum_ext_in (f g : Ref → Q) (l : list Ref) :
  (∀ r, r ∈ l → f r = g r) → Qsum f l = Qsum g l.
Proof.
  induction l as [|x l IH]; intros Hfg; simpl; [done|].
  rewrite Hfg by apply list_elem_of_here. rewrite IH; [done|].
  intros r Hr. apply Hfg. by apply list_elem_of_further.
Qed.

Lemma Qsum_take_S (f : Ref → Q) (l : list Ref) (i : nat) (r : Ref) :
  l !! i = Some r → Qsum f (take (S i) l) == Qsum f (take i l) + f r.
Proof.
  intros Hi. rewrite (take_S_r _ _ _ Hi), Qsum_app. simpl. ring.
Qed.

Lemma Qsum_take_le (f : Ref → Q) (l : list Ref) (i j : nat) :
  (∀ r, r ∈ l → 0 <= f r) → (i ≤ j)%nat →
  Qsum f (take i l) <= Qsum f (take j l).
Proof.
  intros Hf Hij.
  replace (take i l) with (take i (take j l))
    by (rewrite take_take; f_equal; lia).
  rewrite <- (take_drop i (take j l)) at 2. rewrite Qsum_app.
  assert (0 <= Qsum f (drop i (take j l))).
  { apply Qsum_nonneg. intros r Hr. apply Hf.
    by apply (subseteq_take j l), (subseteq_drop i (take j l)). }
  lra.
Qed.

(** A point of [[loc0, loc0 + sum)] falls into one of the adjacent
    intervals laid out from [loc0]. *)
Lemma wheel_cover (f : Ref → Q) (l : list Ref) (loc0 x : Q) :
  (∀ r, r ∈ l → 0 <= f r) →
  loc0 <= x → x < loc0 + Qsum f l →
  ∃ i r, l !! i = Some r
         ∧ loc0 + Qsum f (take i l) <= x
         ∧ x < loc0 + Qsum f (take i l) + f r.
Proof.
  revert loc0. induction l as [|a l IH]; intros loc0 Hf Hlo Hhi; simpl in *.
  - lra.
  - destruct (Qlt_le_dec x (loc0 + f a)) as [Hlt|Hge].
    + exists O, a. simpl. split; [done|]. split; lra.
    + destruct (IH (loc0 + f a)) as (i & r & Hi & Hlo' & Hhi'); [|done|lra|].
      { intros r Hr. apply Hf. by apply list_elem_of_further. }
      exists (S i), r. simpl. split; [done|]. split; lra.
Qed.

Lemma sorted_lookup_le (h : Heap) (l : list Ref) (i j : nat) (r1 r2 : Ref) :
  StronglySorted (le_rel (by_increasing_fitness h)) l →
  (i < j)%nat → l !! i = Some r1 → l !! j = Some r2 →
  fitness (h r1) <= fitness (h r2).
Proof.
  intros Hs Hij Hi Hj. rewrite <- (take_drop j l) in Hs.
  assert (Hr1 : r1 ∈ take j l).
  { apply list_elem_of_lookup. exists i. by rewrite lookup_take_lt. }
  assert (Hr2 : r2 ∈ drop j l).
  { apply list_elem_of_lookup. exists O. rewrite lookup_drop.
    by rewrite Nat.add_0_r. }
  pose proof (StronglySorted_app_1_elem_of _ _ _ _ _ Hs Hr1 Hr2) as Hle.
  by apply Qleb_le in Hle.
Qed.

(** What [compute_selection_probs] leaves on the heap, in terms of the
    shares of the organisms taken in order of increasing fitness. *)
Lemma compute_selection_probs_wheel (h : Heap) (p : Pool) :
  NoDup (to_list p) →
  (∀ r, r ∈ to_list p → 0 <= fitness (h r)) →
  (∃ r, r ∈ to_list p ∧ 0 < fitness (h r)) →
  let organisms := sort_by (by_increasing_fitness h) (to_list p) in
  ∃ h' denom,
    let S := share denom (power (selection p)) (λ r, fitness (h r)) in
    compute_selection_probs h p = OK h'
    ∧ 0 < denom
    ∧ (∀ r, fitness (h' r) = fitness (h r))
    ∧ (∀ r, value (h' r) = value (h r))
    ∧ (∀ r, r ∉ to_list p → h' r = h r)
    ∧ (∀ r, r ∈ organisms → selection_prob (h' r) = S r)
    ∧ (∀ i r, organisms !! i = Some r →
              selection_loc (h' r) == Qsum S (take i organisms))
    ∧ (∀ r, r ∈ organisms → 0 <= S r)
    ∧ Qsum S organisms == 1.
Proof.
  intros Hnd Hnonneg (r0 & Hr0 & Hpos) organisms.
  set (pw := power (selection p)).
  set (denom := foldl (λ denom organism,
                         denom + math_pow (fitness (h organism)) pw)
                      0 organisms).
  assert (Hperm : organisms ≡ₚ to_list p) by apply sort_by_Permutation.
  assert (Hnd' : NoDup organisms) by by rewrite Hperm.
  assert (Hdenom : denom == Qsum (λ r, math_pow (fitness (h r)) pw) organisms).
  { unfold denom. rewrite denominator_sum. ring. }
  assert (Hdpos : 0 < denom).
  { rewrite Hdenom. apply (Qsum_pos _ _ r0).
    - intros r Hr. apply math_pow_nonneg, Hnonneg. by rewrite <- Hperm.
    - by rewrite Hperm.
    - by apply math_pow_pos. }
  assert (Hdnz : Qeqb denom 0 = false).
  { apply Qeqb_neq. intros Hz. rewrite Hz in Hdpos. by apply Qlt_irrefl in Hdpos. }
  destruct (selection_loop denom pw (λ r, fitness (h r)) Hdnz organisms h 0
              Hnd' (λ r, eq_refl))
    as (h' & loc' & Hrun & Hf & Hv & Hout & Hprob & Hloc & _).
  exists h', denom. simpl.
  split.
  { unfold compute_selection_probs. fold organisms pw denom.
    by rewrite Hrun. }
  split; [done|]. split; [done|]. split; [done|].
  split. { intros r Hr. apply Hout. by rewrite Hperm. }
  split; [done|].
  split. { intros i r Hi. rewrite (Hloc i r Hi). ring. }
  split.
  - intros r Hr. unfold share. apply Qle_shift_div_l; [done|].
    rewrite Qmult_0_l. apply math_pow_nonneg, Hnonneg. by rewrite <- Hperm.
  - rewrite Qsum_share, <- Hdenom. field.
    intros Hz. rewrite Hz in Hdpos. by apply Qlt_irrefl in Hdpos.
Qed.

Lemma in_interval_spec (h : Heap) (r : Ref) (x : Q) :
  in_interval h r x = true ↔
  selection_loc (h r) <= x ∧ x < selection_loc (h r) + selection_prob (h r).
Proof.
  unfold in_interval. by rewrite andb_true_iff, Qleb_le, Qltb_lt.
Qed.

(** C4: in exact arithmetic, on a pool without repeated organisms whose
    fitnesses are non-negative and not all zero, [compute_selection_probs]
    returns; the selection probabilities sum to 1; in the order of
    increasing fitness the first interval starts at 0, each interval starts
    where the one before ends and the last ends at 1; intervals of distinct
    organisms are disjoint and every point of [[0, 1)] lies in one. *)
Theorem compute_selection_probs_partition (h : Heap) (p : Pool) :
  NoDup (to_list p) →
  (∀ r, r ∈ to_list p → 0 <= fitness (h r)) →
  (∃ r, r ∈ to_list p ∧ 0 < fitness (h r)) →
  let organisms := sort_by (by_increasing_fitness h) (to_list p) in
  ∃ h',
    compute_selection_probs h p = OK h'
    ∧ (∀ r, fitness (h' r) = fitness (h r))
    ∧ Qsum (λ r, selection_prob (h' r)) (to_list p) == 1
    ∧ (∀ r, r ∈ to_list p → 0 <= selection_prob (h' r))
    ∧ (∀ r, organisms !! O = Some r → selection_loc (h' r) == 0)
    ∧ (∀ i r1 r2, organisms !! i = Some r1 → organisms !! S i = Some r2 →
          selection_loc (h' r2)
          == selection_loc (h' r1) + selection_prob (h' r1))
    ∧ (∀ r, last organisms = Some r →
          selection_loc (h' r) + selection_prob (h' r) == 1)
    ∧ (∀ i j r1 r2, (i < j)%nat →
          organisms !! i = Some r1 → organisms !! j = Some r2 →
          fitness (h' r1) <= fitness (h' r2)
          ∧ selection_loc (h' r1) + selection_prob (h' r1)
            <= selection_loc (h' r2))
    ∧ (∀ r1 r2 x, r1 ∈ to_list p → r2 ∈ to_list p → r1 ≠ r2 →
          ¬ (in_interval h' r1 x = true ∧ in_interval h' r2 x = true))
    ∧ (∀ x, 0 <= x → x < 1 →
          ∃ r, r ∈ to_list p ∧ in_interval h' r x = true).
Proof.
  intros Hnd Hnonneg Hsome organisms.
  destruct (compute_selection_probs_wheel h p Hnd Hnonneg Hsome)
    as (h' & denom & Hrun & Hdpos & Hf & _ & _ & Hprob & Hloc & Hsnn & Hone).
  fold organisms in Hprob, Hloc, Hsnn, Hone.
  set (S := share denom (power (selection p)) (λ r, fitness (h r))) in *.
  assert (Hperm : organisms ≡ₚ to_list p) by apply sort_by_Permutation.
  assert (Hmem : ∀ i r, organisms !! i = Some r → r ∈ organisms).
  { intros i r Hi. apply list_elem_of_lookup. eauto. }
  assert (Hend : ∀ i r, organisms !! i = Some r →
            selection_loc (h' r) + selection_prob (h' r)
            == Qsum S (take (Datatypes.S i) organisms)).
  { intros i r Hi. rewrite (Hloc i r Hi), (Hprob r (Hmem i r Hi)).
    by rewrite (Qsum_take_S S organisms i r Hi). }
  assert (Hincr : ∀ i j r1 r2, (i < j)%nat →
            organisms !! i = Some r1 → organisms !! j = Some r2 →
            selection_loc (h' r1) + selection_prob (h' r1)
            <= selection_loc (h' r2)).
  { intros i j r1 r2 Hij Hi Hj. rewrite (Hend i r1 Hi), (Hloc j r2 Hj).
    apply Qsum_take_le; [done|lia]. }
  exists h'. split; [exact Hrun|]. split; [exact Hf|].
  split.
  { rewrite (Qsum_ext_in _ S).
    - by rewrite <- (Qsum_Permutation S _ _ Hperm).
    - intros r Hr. apply Hprob. by rewrite Hperm. }
  split.
  { intros r Hr. rewrite Hprob by by rewrite Hperm.
    apply Hsnn. by rewrite Hperm. }
  split.
  { intros r Hr. rewrite (Hloc O r Hr). simpl. reflexivity. }
  split.
  { intros i r1 r2 Hi Hj. rewrite (Hloc (Datatypes.S i) r2 Hj).
    by rewrite (Hend i r1 Hi). }
  split.
  { intros r Hlast. apply last_Some in Hlast as [front Hfront].
    assert (Hi : organisms !! length front = Some r).
    { rewrite Hfront. by apply list_lookup_middle. }
    rewrite (Hend _ r Hi), <- Hone.
    rewrite take_ge; [reflexivity|].
    rewrite Hfront, length_app. simpl. lia. }
  split.
  { intros i j r1 r2 Hij Hi Hj. split; [|by eapply Hincr].
    rewrite !Hf. eapply sorted_lookup_le; [|exact Hij|done|done].
    apply sorted_increasing_fitness. }
  split.
  - intros r1 r2 x Hr1 Hr2 Hne [Hx1 Hx2].
    apply in_interval_spec in Hx1 as [Hlo1 Hhi1].
    apply in_interval_spec in Hx2 as [Hlo2 Hhi2].
    rewrite <- Hperm in Hr1, Hr2.
    apply list_elem_of_lookup in Hr1 as [i Hi].
    apply list_elem_of_lookup in Hr2 as [j Hj].
    destruct (Nat.lt_total i j) as [Hij|[Hij|Hij]].
    + pose proof (Hincr i j r1 r2 Hij Hi Hj). lra.
    + subst j. congruence.
    + pose proof (Hincr j i r2 r1 Hij Hj Hi). lra.
  - intros x Hx0 Hx1.
    destruct (wheel_cover S organisms 0 x Hsnn) as (i & r & Hi & Hlo & Hhi);
      [done|rewrite Hone; lra|].
    exists r. split; [rewrite <- Hperm; by eapply Hmem|].
    apply in_interval_spec.
    rewrite (Hloc i r Hi), (Hprob r (Hmem i r Hi)). split; lra.
Qed.

Lemma compute_selection_probs_partition_witness :
  ∃ h', compute_selection_probs fitness_heap demo_pool = OK h'
        ∧ Qsum (λ r, selection_prob (h' r)) (to_list demo_pool) == 1.
Proof.
  destruct (compute_selection_probs_partition fitness_heap demo_pool)
    as (h' & Hrun & _ & Hsum & _).
  - compute_done.
  - intros r Hr. apply list_elem_of_In in Hr. simpl in Hr.
    destruct Hr as [<-|[<-|[<-|[]]]]; by vm_compute.
  - exists 2%nat. split; [compute_done|by vm_compute].
  - by exists h'.
Defined.

(** * Further properties of the pool *)

(** ** Edge cases of selection and fitness *)

Lemma scan_pool_never_returns (h : Heap) (n : Z) (rand : Q)
    (l selected : list Ref) :
  (n ≤ 0)%Z → ∃ selected', scan_pool h n rand l selected = inr selected'.
Proof.
  intros Hn. revert selected. induction l as [|x l IH]; intros selected; simpl.
  - eauto.
  - destruct (in_interval h x rand); [|apply IH].
    destruct (negb (py_in x selected)); [|apply IH].
    destruct (Z.eqb_spec (Z.of_nat (length (selected ++ [x]))) n) as [Heq|_];
      [|apply IH].
    rewrite length_app in Heq. simpl in Heq. lia.
Qed.

(** X5: [select_organisms] tests [len(selected_orgs) == n] only after it has
    appended an organism: asked for no organism (or a negative number), it
    never returns, whatever the draws. *)
Theorem select_organisms_zero_never_returns (h : Heap) (p : Pool) (n : Z)
    (draws : list Q) :
  (n ≤ 0)%Z → select_organisms h p n draws = None.
Proof.
  intros Hn. unfold select_organisms. generalize (@nil nat) as selected.
  induction draws as [|rand draws IH]; intros selected; simpl; [done|].
  destruct (scan_pool_never_returns h n rand (to_list p) selected Hn)
    as [selected' ->].
  apply IH.
Qed.

Lemma select_organisms_zero_never_returns_witness :
  select_organisms selection_heap demo_pool 0 [1 # 2; 1 # 10; 9 # 10] = None.
Proof.
  apply (select_organisms_zero_never_returns selection_heap demo_pool 0). lia.
Defined.

Lemma compute_fitnesses_empty_subset_aux (h : Heap) (p : Pool) :
  to_list p = [] ∨ (num_best p ≤ 0)%Z →
  compute_fitnesses h p = Raise IndexError.
Proof.
  intros Hcase.
  assert (Hsub : get_n_best_organisms h p (num_best p) = []).
  { unfold get_n_best_organisms.
    destruct Hcase as [Hnil|Hn].
    - rewrite Hnil. by destruct (num_best p).
    - rewrite py_slice_from_nonnegative by lia.
      apply drop_ge. lia. }
  unfold compute_fitnesses. by rewrite Hsub.
Qed.

(** X1: [compute_fitnesses] raises [IndexError] when the reference subset is
    empty: on an empty pool, and on any pool when the number of organisms
    asked for is zero or negative. *)
Theorem compute_fitnesses_empty_subset (h : Heap) (p : Pool) :
  to_list p = [] ∨ (num_best p ≤ 0)%Z →
  compute_fitnesses h p = Raise IndexError.
Proof. apply compute_fitnesses_empty_subset_aux. Qed.

Lemma compute_fitnesses_empty_subset_witness :
  compute_fitnesses demo_heap
    (mkPool 20 3 [] [] (mkSelectionProbDist 20 1) 0) = Raise IndexError.
Proof. apply compute_fitnesses_empty_subset. by left. Defined.

Lemma Qsum_zero (f : Ref → Q) (l : list Ref) :
  (∀ r, r ∈ l → f r == 0) → Qsum f l == 0.
Proof.
  induction l as [|x l IH]; intros Hf; simpl; [reflexivity|].
  rewrite (Hf x) by apply list_elem_of_here. rewrite IH; [ring|].
  intros r Hr. apply Hf. by apply list_elem_of_further.
Qed.

Lemma assign_selection_zero (denom : Q) (pw : nat) (h : Heap) (loc : Q)
    (x : Ref) :
  Qeqb denom 0 = true →
  assign_selection denom pw (h, loc) x = Raise ZeroDivisionError.
Proof. intros Hd. unfold assign_selection, py_div. by rewrite Hd. Qed.

(** X3: When every organism of a non-empty pool has fitness 0 and the power is
    at least 1, the denominator of the selection probabilities is 0 and
    [compute_selection_probs] raises [ZeroDivisionError]. *)
Theorem compute_selection_probs_all_zero (h : Heap) (p : Pool) :
  to_list p ≠ [] →
  (∀ r, r ∈ to_list p → fitness (h r) == 0) →
  (1 ≤ power (selection p))%nat →
  compute_selection_probs h p = Raise ZeroDivisionError.
Proof.
  intros Hne Hzero Hpw.
  pose proof (sort_by_Permutation (by_increasing_fitness h) (to_list p))
    as Hperm.
  unfold compute_selection_probs.
  destruct (sort_by (by_increasing_fitness h) (to_list p)) as [|x l] eqn:Horg.
  - apply Permutation_nil_l in Hperm. by symmetry in Hperm.
  - rewrite foldlM_cons, assign_selection_zero; [done|].
    apply Qeqb_eq. rewrite denominator_sum, Qsum_zero; [ring|].
    intros r Hr. unfold math_pow. rewrite (Hzero r) by by rewrite <- Hperm.
    apply Qpower_0. lia.
Qed.

Lemma compute_selection_probs_all_zero_witness :
  compute_selection_probs demo_heap zero_fitness_pool
  = Raise ZeroDivisionError.
Proof.
  apply compute_selection_probs_all_zero.
  - done.
  - intros r Hr. apply list_elem_of_In in Hr. simpl in Hr.
    destruct Hr as [<-|[<-|[]]]; by vm_compute.
  - simpl. lia.
Defined.

(** ** Adding to a fixed-composition pool *)

(** X8: With an empty promotion set, [add_organism] raises [IndexError] in a
    fixed-composition search, whatever the organism. *)
Theorem add_organism_epa_empty_promotion_set
    (phase_diagram : list PDEntry → list Composition → option (PDEntry → Q))
    (h : Heap) (p : Pool) (organism_to_add : Ref) (cs : CompositionSpace) :
  objective_function cs = epa_objective →
  promotion_set p = [] →
  add_organism phase_diagram h p organism_to_add cs = Raise IndexError.
Proof.
  intros Hobj Hps. unfold add_organism. rewrite Hobj.
  by rewrite get_worst_in_promotion_set_empty.
Qed.

Lemma add_organism_epa_empty_promotion_set_witness :
  add_organism flat_phase_diagram demo_heap
    (mkPool 20 3 [] [1%nat] (mkSelectionProbDist 20 1) 0) 2%nat demo_epa_space
  = Raise IndexError.
Proof. by apply add_organism_epa_empty_promotion_set. Defined.

(** X9: In a fixed-composition search with a non-empty promotion set,
    [add_organism] returns; the pool gains exactly the new organism, the
    promotion set keeps its size, the counter of additions grows by one and
    the organism is active with its energy per atom as value. *)
Theorem add_organism_epa_membership
    (phase_diagram : list PDEntry → list Composition → option (PDEntry → Q))
    (h : Heap) (p : Pool) (organism_to_add : Ref) (cs : CompositionSpace) :
  objective_function cs = epa_objective →
  promotion_set p ≠ [] →
  ∃ h' p', add_organism phase_diagram h p organism_to_add cs = OK (h', p')
           ∧ to_list p' ≡ₚ organism_to_add :: to_list p
           ∧ length (promotion_set p') = length (promotion_set p)
           ∧ num_adds p' = (num_adds p + 1)%Z
           ∧ is_active (h' organism_to_add) = true
           ∧ value (h' organism_to_add) = epa (h organism_to_add).
Proof.
  intros Hobj Hps.
  set (p0 := with_num_adds (num_adds p + 1) p).
  set (h1 := set_is_active h organism_to_add true).
  set (h2 := set_value h1 organism_to_add (epa (h1 organism_to_add))).
  assert (Hactive : is_active (h2 organism_to_add) = true).
  { unfold h2, h1, set_value, set_is_active. by rewrite !update_eq. }
  assert (Hvalue : value (h2 organism_to_add) = epa (h organism_to_add)).
  { unfold h2, h1, set_value, set_is_active. by rewrite !update_eq. }
  destruct (get_worst_in_promotion_set_max h2 p0 Hps) as (w & Hw & Hin & _).
  change (promotion_set p0) with (promotion_set p) in Hin.
  unfold add_organism. rewrite Hobj. fold p0 h1 h2. rewrite Hw. simpl.
  destruct (Qltb _ _).
  - destruct (py_remove_OK _ _ Hin) as (l1 & l2 & Hsplit & Hl1 & _).
    change (promotion_set p0) with (promotion_set p). rewrite Hsplit.
    rewrite <- app_assoc. simpl. rewrite py_remove_skip by done. simpl.
    eexists _, _. split; [done|]. unfold to_list. simpl.
    split; [|split; [|done]].
    + rewrite ?Hsplit, <- !app_assoc. simpl.
      rewrite <- (Permutation_middle l1 (l2 ++ queue p) w).
      rewrite <- (Permutation_middle l2 (w :: queue p) organism_to_add).
      rewrite <- (Permutation_middle l1 _ organism_to_add).
      rewrite <- (Permutation_middle l2 (queue p) w).
      by rewrite <- (Permutation_middle l1 _ w).
    + rewrite ?Hsplit, !length_app. simpl. rewrite ?length_app. simpl. lia.
  - eexists _, _. split; [done|]. unfold to_list. simpl.
    split; [by rewrite <- Permutation_middle|done].
Qed.

Lemma add_organism_epa_membership_witness :
  ∃ h' p', add_organism flat_phase_diagram epa_heap epa_pool 4%nat
             demo_epa_space = OK (h', p')
           ∧ to_list p' ≡ₚ 4%nat :: to_list epa_pool.
Proof.
  destruct (add_organism_epa_membership flat_phase_diagram epa_heap epa_pool
              4%nat demo_epa_space) as (h' & p' & Hrun & Hperm & _);
    [reflexivity|done|].
  by exists h', p'.
Defined.

(** ** Best and worst organism of the pool *)

Lemma best_scan (h : Heap) (l : list Ref) (b0 : Ref) :
  let b := foldl (λ best organism,
                    if Qltb (value (h organism)) (value (h best))
                    then organism else best) b0 l in
  (b = b0 ∨ b ∈ l)
  ∧ value (h b) <= value (h b0)
  ∧ ∀ r, r ∈ l → value (h b) <= value (h r).
Proof.
  revert b0. induction l as [|x l IH]; intros b0; simpl.
  - split; [by left|]. split; [apply Qle_refl|].
    intros r Hr. by apply elem_of_nil in Hr.
  - destruct (Qltb (value (h x)) (value (h b0))) eqn:Hcmp.
    + apply Qltb_lt in Hcmp. destruct (IH x) as (Hin & Hle & Hall).
      split; [|split].
      * right. destruct Hin as [->|Hin];
          [apply list_elem_of_here | by apply list_elem_of_further].
      * eapply Qle_trans; [exact Hle | by apply Qlt_le_weak].
      * intros r Hr. apply elem_of_cons in Hr as [->|Hr]; [done|by apply Hall].
    + apply Qltb_ge in Hcmp. destruct (IH b0) as (Hin & Hle & Hall).
      split; [|split].
      * destruct Hin as [->|Hin]; [by left|].
        right. by apply list_elem_of_further.
      * done.
      * intros r Hr. apply elem_of_cons in Hr as [->|Hr]; [|by apply Hall].
        by eapply Qle_trans.
Qed.

(** [get_best_in_pool] looks at the promotion set only: it raises
    [IndexError] when that is empty, otherwise it returns the member of the
    promotion set with the smallest value, which under the
    fixed-composition invariant is the best organism of the whole pool. *)
Theorem get_best_in_pool_min (h : Heap) (p : Pool) :
  (promotion_set p = [] → get_best_in_pool h p = Raise IndexError)
  ∧ (promotion_set p ≠ [] →
     ∃ b, get_best_in_pool h p = OK b
          ∧ b ∈ promotion_set p
          ∧ (∀ r, r ∈ promotion_set p → value (h b) <= value (h r))
          ∧ (epa_invariant h p →
             ∀ r, r ∈ to_list p → value (h b) <= value (h r))).
Proof.
  unfold get_best_in_pool. split.
  - by intros ->.
  - intros Hps. destruct (promotion_set p) as [|b0 l] eqn:Heq; [done|]. simpl.
    pose proof (best_scan h (b0 :: l) b0) as (Hin & _ & Hall). simpl in *.
    eexists. split; [done|].
    assert (Hmem : foldl (λ best organism,
                     if Qltb (value (h organism)) (value (h best))
                     then organism else best)
                    (if Qltb (value (h b0)) (value (h b0)) then b0 else b0) l
                   ∈ b0 :: l).
    { destruct Hin as [->|Hin]; [apply list_elem_of_here|done]. }
    split; [done|]. split; [done|].
    intros Hinv r Hr. unfold to_list in Hr. rewrite Heq in Hr.
    apply elem_of_app in Hr as [Hr|Hr]; [by apply Hall|].
    apply Hinv; [by rewrite Heq|done].
Qed.

(** [get_worst_in_pool] looks at the queue only: it raises [IndexError]
    when the queue is empty, otherwise it returns the member of the queue
    with the largest value, which under the fixed-composition invariant is
    the worst organism of the whole pool. *)
Theorem get_worst_in_pool_max (h : Heap) (p : Pool) :
  (queue p = [] → get_worst_in_pool h p = Raise IndexError)
  ∧ (queue p ≠ [] →
     ∃ w, get_worst_in_pool h p = OK w
          ∧ w ∈ queue p
          ∧ (∀ r, r ∈ queue p → value (h r) <= value (h w))
          ∧ (epa_invariant h p →
             ∀ r, r ∈ to_list p → value (h r) <= value (h w))).
Proof.
  unfold get_worst_in_pool. split.
  - by intros ->.
  - intros Hq. destruct (queue p) as [|w0 l] eqn:Heq; [done|]. simpl.
    pose proof (worst_scan h (w0 :: l) w0) as (Hin & _ & Hall). simpl in *.
    eexists. split; [done|].
    assert (Hmem : foldl (λ worst organism,
                     if Qltb (value (h worst)) (value (h organism))
                     then organism else worst)
                    (if Qltb (value (h w0)) (value (h w0)) then w0 else w0) l
                   ∈ w0 :: l).
    { destruct Hin as [->|Hin]; [apply list_elem_of_here|done]. }
    split; [done|]. split; [done|].
    intros Hinv r Hr. unfold to_list in Hr. rewrite Heq in Hr.
    apply elem_of_app in Hr as [Hr|Hr]; [|by apply Hall].
    eapply Qle_trans; [|exact (Hall _ Hmem)].
    apply Hinv; [done|by rewrite Heq].
Qed.

Lemma get_best_in_pool_min_witness :
  get_best_in_pool epa_heap epa_pool = OK 1%nat
  ∧ ∀ r, r ∈ to_list epa_pool → value (epa_heap 1%nat) <= value (epa_heap r).
Proof.
  destruct (get_best_in_pool_min epa_heap epa_pool) as [_ Hbest].
  destruct Hbest as (b & Hrun & _ & _ & Hall); [done|].
  assert (Hb : b = 1%nat) by (vm_compute in Hrun; congruence). subst b.
  split; [exact Hrun|]. apply Hall.
  intros r q Hr Hq. apply list_elem_of_In in Hr, Hq. simpl in Hr, Hq.
  destruct Hq as [<-|[]]. destruct Hr as [<-|[<-|[]]]; by vm_compute.
Defined.

Lemma get_worst_in_pool_max_witness :
  get_worst_in_pool epa_heap epa_pool = OK 3%nat
  ∧ ∀ r, r ∈ to_list epa_pool → value (epa_heap r) <= value (epa_heap 3%nat).
Proof.
  destruct (get_worst_in_pool_max epa_heap epa_pool) as [_ Hworst].
  destruct Hworst as (w & Hrun & _ & _ & Hall); [done|].
  assert (Hw : w = 3%nat) by (vm_compute in Hrun; congruence). subst w.
  split; [exact Hrun|]. apply Hall.
  intros r q Hr Hq. apply list_elem_of_In in Hr, Hq. simpl in Hr, Hq.
  destruct Hq as [<-|[]]. destruct Hr as [<-|[<-|[]]]; by vm_compute.
Defined.

(** ** The [n] best organisms, within the pool *)

(** X6: For [0 <= n] up to the number of organisms in the pool,
    [get_n_best_organisms] returns [n] organisms of the pool, in order of
    decreasing value, and no organism left out has a smaller value than one
    returned. *)
Theorem get_n_best_organisms_smallest (h : Heap) (p : Pool) (n : Z) :
  (0 ≤ n ≤ Z.of_nat (length (to_list p)))%Z →
  let best := get_n_best_organisms h p n in
  ∃ rest,
    rest ++ best ≡ₚ to_list p
    ∧ Z.of_nat (length best) = n
    ∧ StronglySorted (le_rel (by_decreasing_value h)) best
    ∧ ∀ x y, x ∈ rest → y ∈ best → value (h y) <= value (h x).
Proof.
  intros Hn best.
  set (pool_list := sort_by (by_decreasing_value h) (to_list p)).
  set (k := (length (to_list p) - Z.to_nat n)%nat).
  assert (Hbest : best = drop k pool_list)
    by by apply get_n_best_organisms_within.
  exists (take k pool_list). rewrite Hbest.
  pose proof (sorted_decreasing_value h (to_list p)) as Hs.
  fold pool_list in Hs. rewrite <- (take_drop k pool_list) in Hs.
  split; [|split; [|split]].
  - rewrite take_drop. apply sort_by_Permutation.
  - rewrite length_drop. unfold pool_list. rewrite sort_by_length.
    unfold k. lia.
  - by apply StronglySorted_app_1_r in Hs.
  - intros x y Hx Hy.
    pose proof (StronglySorted_app_1_elem_of _ _ _ _ _ Hs Hx Hy) as Hxy.
    by apply Qleb_le in Hxy.
Qed.

Lemma get_n_best_organisms_smallest_witness :
  get_n_best_organisms demo_heap demo_pool 2 = [3%nat; 2%nat]
  ∧ ∃ rest, rest ++ get_n_best_organisms demo_heap demo_pool 2
            ≡ₚ to_list demo_pool.
Proof.
  split; [reflexivity|].
  destruct (get_n_best_organisms_smallest demo_heap demo_pool 2)
    as (rest & Hperm & _); [simpl; lia|].
  by exists rest.
Defined.

(** ** What the computations touch *)

Lemma with_fitness_compose (f g : Q) (o : Organism) :
  with_fitness f (with_fitness g o) = with_fitness f o.
Proof. done. Qed.

Lemma with_selection_compose (a b c d : Q) (o : Organism) :
  with_selection a b (with_selection c d o) = with_selection a b o.
Proof. done. Qed.

Lemma fitness_step_inv (w d : Q) (h h1 : Heap) (x : Ref) :
  fitness_step w d h x = OK h1 → ∃ f, h1 = set_fitness h x f.
Proof.
  unfold fitness_step. destruct (py_div _ _) as [f|e]; [|done].
  intros [= <-]. eauto.
Qed.

Lemma assign_selection_inv (denom : Q) (pw : nat) (h h1 : Heap) (loc loc1 : Q)
    (x : Ref) :
  assign_selection denom pw (h, loc) x = OK (h1, loc1) →
  ∃ prob, h1 = set_selection h x prob loc.
Proof.
  unfold assign_selection. destruct (py_div _ _) as [prob|e]; [|done].
  intros [= <- _]. eauto.
Qed.

Lemma fitness_loop_frame (w d : Q) (l : list Ref) (h h' : Heap) :
  foldlM (fitness_step w d) h l = OK h' →
  (∀ r, ∃ f, h' r = with_fitness f (h r))
  ∧ (∀ r, r ∉ l → h' r = h r).
Proof.
  revert h. induction l as [|x l IH]; intros h Hrun.
  - injection Hrun as <-. split; [|done].
    intros r. exists (fitness (h r)). by destruct (h r).
  - rewrite foldlM_cons in Hrun.
    destruct (fitness_step w d h x) as [h1|e] eqn:Hstep; [|done].
    apply fitness_step_inv in Hstep as [f ->]. simpl in Hrun.
    destruct (IH _ Hrun) as [Hframe Hout]. split.
    + intros r. destruct (Hframe r) as [f' ->].
      unfold set_fitness. rewrite update_lookup.
      destruct (decide (x = r)) as [->|_]; eauto.
    + intros r Hr. apply not_elem_of_cons in Hr as [Hne Hr].
      rewrite Hout by done. unfold set_fitness. by rewrite update_ne.
Qed.

Lemma zero_fitness_loop_frame (best_organisms l : list Ref) (h : Heap) :
  let h' := foldl (zero_fitness_step best_organisms) h l in
  (∀ r, ∃ f, h' r = with_fitness f (h r))
  ∧ (∀ r, r ∉ l → h' r = h r).
Proof.
  revert h. induction l as [|x l IH]; intros h; simpl.
  - split; [|done]. intros r. exists (fitness (h r)). by destruct (h r).
  - destruct (IH (zero_fitness_step best_organisms h x)) as [Hframe Hout].
    split.
    + intros r. destruct (Hframe r) as [f' ->].
      unfold zero_fitness_step. destruct (negb _); [|eauto].
      unfold set_fitness. rewrite update_lookup.
      destruct (decide (x = r)) as [->|_]; eauto.
    + intros r Hr. apply not_elem_of_cons in Hr as [Hne Hr].
      rewrite Hout by done. unfold zero_fitness_step.
      destruct (negb _); [|done]. unfold set_fitness. by rewrite update_ne.
Qed.

(** [compute_fitnesses] writes fitnesses only, and only those of organisms
    in the pool. *)
Lemma compute_fitnesses_frame_aux (h h' : Heap) (p : Pool) :
  compute_fitnesses h p = OK h' →
  (∀ r, ∃ f, h' r = with_fitness f (h r))
  ∧ (∀ r, r ∉ to_list p → h' r = h r).
Proof.
  unfold compute_fitnesses. intros Hrun.
  destruct (py_last _) as [best|]; [|done]. simpl in Hrun.
  destruct (py_first _) as [worst|]; [|done]. simpl in Hrun.
  destruct (foldlM _ h _) as [h1|] eqn:Hloop; [|done].
  injection Hrun as <-.
  apply fitness_loop_frame in Hloop as [Hframe1 Hout1].
  pose proof (zero_fitness_loop_frame
                (get_n_best_organisms h p (num_best p)) (to_list p) h1)
    as [Hframe2 Hout2].
  split.
  - intros r. destruct (Hframe2 r) as [f2 ->]. destruct (Hframe1 r) as [f1 ->].
    eauto.
  - intros r Hr. rewrite Hout2 by done. apply Hout1.
    intros Hin. by apply Hr, (reference_subset_in_pool h p (num_best p)).
Qed.

(** [compute_fitnesses], when it returns, has written fitnesses only, and
    only those of organisms in the pool: every other field and every other
    organism is as before. *)
Theorem compute_fitnesses_frame (h h' : Heap) (p : Pool) :
  compute_fitnesses h p = OK h' →
  (∀ r, ∃ f, h' r = with_fitness f (h r))
  ∧ (∀ r, r ∉ to_list p → h' r = h r).
Proof. apply compute_fitnesses_frame_aux. Qed.

Lemma compute_fitnesses_frame_witness :
  ∃ h', compute_fitnesses demo_heap demo_pool = OK h'
        ∧ ∀ r, r ∉ to_list demo_pool → h' r = demo_heap r.
Proof.
  eexists. split; [reflexivity|].
  by apply (compute_fitnesses_frame demo_heap _ demo_pool).
Defined.

Lemma selection_loop_frame (denom : Q) (pw : nat) (l : list Ref)
    (h h' : Heap) (loc loc' : Q) :
  foldlM (assign_selection denom pw) (h, loc) l = OK (h', loc') →
  (∀ r, ∃ a b, h' r = with_selection a b (h r))
  ∧ (∀ r, r ∉ l → h' r = h r).
Proof.
  revert h loc. induction l as [|x l IH]; intros h loc Hrun.
  - injection Hrun as <- <-. split; [|done].
    intros r. exists (selection_prob (h r)), (selection_loc (h r)).
    by destruct (h r).
  - rewrite foldlM_cons in Hrun.
    destruct (assign_selection denom pw (h, loc) x) as [[h1 loc1]|e] eqn:Hstep;
      [|done].
    apply assign_selection_inv in Hstep as [prob ->]. simpl in Hrun.
    destruct (IH _ _ Hrun) as [Hframe Hout]. split.
    + intros r. destruct (Hframe r) as (a & b & ->).
      unfold set_selection. rewrite update_lookup.
      destruct (decide (x = r)) as [->|_]; eauto.
    + intros r Hr. apply not_elem_of_cons in Hr as [Hne Hr].
      rewrite Hout by done. unfold set_selection. by rewrite update_ne.
Qed.

(** [compute_selection_probs] writes selection probabilities and interval
    starts only, and only those of organisms in the pool. *)
Lemma compute_selection_probs_frame_aux (h h' : Heap) (p : Pool) :
  compute_selection_probs h p = OK h' →
  (∀ r, ∃ a b, h' r = with_selection a b (h r))
  ∧ (∀ r, r ∉ to_list p → h' r = h r).
Proof.
  unfold compute_selection_probs. intros Hrun.
  destruct (foldlM _ _ _) as [[h1 loc1]|] eqn:Hloop; [|done].
  injection Hrun as <-.
  apply selection_loop_frame in Hloop as [Hframe Hout].
  split; [done|]. intros r Hr. apply Hout.
  by rewrite sort_by_elem_of.
Qed.

(** [compute_selection_probs], when it returns, has written selection
    probabilities and interval starts only, and only those of organisms in
    the pool. *)
Theorem compute_selection_probs_frame (h h' : Heap) (p : Pool) :
  compute_selection_probs h p = OK h' →
  (∀ r, ∃ a b, h' r = with_selection a b (h r))
  ∧ (∀ r, r ∉ to_list p → h' r = h r).
Proof. apply compute_selection_probs_frame_aux. Qed.

Lemma compute_selection_probs_frame_witness :
  ∃ h', compute_selection_probs fitness_heap demo_pool = OK h'
        ∧ ∀ r, r ∉ to_list demo_pool → h' r = fitness_heap r.
Proof.
  eexists. split; [reflexivity|].
  by apply (compute_selection_probs_frame fitness_heap _ demo_pool).
Defined.

(** ** From values to a selection *)

Lemma compute_fitnesses_OK_range (h h' : Heap) (p : Pool) :
  compute_fitnesses h p = OK h' →
  (∀ r, r ∈ to_list p → 0 <= fitness (h' r) ∧ fitness (h' r) <= 1)
  ∧ ∃ b, b ∈ to_list p ∧ fitness (h' b) == 1.
Proof.
  intros Hrun. pose proof Hrun as Hrun0. unfold compute_fitnesses in Hrun.
  set (subset := get_n_best_organisms h p (num_best p)) in *.
  destruct (py_last subset) as [best|] eqn:Hlast; [|done]. simpl in Hrun.
  destruct (py_first subset) as [worst|] eqn:Hfirst; [|done]. simpl in Hrun.
  pose proof (reference_subset_bounds h p _ best worst Hlast Hfirst) as Hb.
  fold subset in Hb.
  assert (Hbest_in : best ∈ subset).
  { apply py_last_OK in Hlast as [? ->]. apply elem_of_app. right.
    apply list_elem_of_here. }
  assert (Hd : ¬ value (h best) - value (h worst) == 0).
  { intros Hz. rewrite fitness_loop_zero in Hrun; [done|done|].
    apply py_first_OK in Hfirst as [? ->]. done. }
  assert (Hlt : value (h best) < value (h worst)).
  { destruct (Hb best Hbest_in) as [_ Hle].
    apply Qle_lteq in Hle as [?|Heq]; [done|]. exfalso. apply Hd. lra. }
  destruct (fitness_loop_nonzero (value (h worst)) _ h subset Hd)
    as (h1 & Hloop & _ & Hin1 & _).
  rewrite Hloop in Hrun. simpl in Hrun. injection Hrun as <-.
  pose proof (zero_fitness_loop subset h1 (to_list p)) as (_ & Hz2 & _ & Hk2).
  assert (Hformula : ∀ r, r ∈ subset →
            fitness (foldl (zero_fitness_step subset) h1 (to_list p) r)
            = (value (h r) - value (h worst))
              / (value (h best) - value (h worst))).
  { intros r Hr. by rewrite Hk2, Hin1. }
  split.
  - intros r Hr. destruct (decide (r ∈ subset)) as [Hs|Hs].
    + rewrite Hformula by done. destruct (Hb r Hs) as [Hlo Hhi].
      set (v := value (h r)) in *. set (b := value (h best)) in *.
      set (w := value (h worst)) in *.
      assert (Heq : (v - w) / (b - w) == (w - v) / (w - b)).
      { field. split; lra. }
      rewrite Heq. split.
      * apply Qle_shift_div_l; lra.
      * apply Qle_shift_div_r; lra.
    + rewrite Hz2 by done. lra.
  - exists best. split; [by apply (reference_subset_in_pool h p (num_best p))|].
    rewrite Hformula by done. field. exact Hd.
Qed.

Lemma compute_selection_probs_cover (h h' : Heap) (p : Pool) :
  NoDup (to_list p) →
  (∀ r, r ∈ to_list p → 0 <= fitness (h r)) →
  (∃ r, r ∈ to_list p ∧ 0 < fitness (h r)) →
  ∃ h', compute_selection_probs h p = OK h'
        ∧ Qsum (λ r, selection_prob (h' r)) (to_list p) == 1
        ∧ ∀ x, 0 <= x → x < 1 →
               ∃ r, r ∈ to_list p ∧ in_interval h' r x = true.
Proof.
  intros Hnd Hnonneg Hsome.
  destruct (compute_selection_probs_wheel h p Hnd Hnonneg Hsome)
    as (h2 & denom & Hrun & _ & _ & _ & _ & Hprob & Hloc & Hsnn & Hone).
  set (organisms := sort_by (by_increasing_fitness h) (to_list p)) in *.
  set (S := share denom (power (selection p)) (λ r, fitness (h r))) in *.
  assert (Hperm : organisms ≡ₚ to_list p) by apply sort_by_Permutation.
  exists h2. split; [done|]. split.
  - rewrite (Qsum_ext_in _ S).
    + by rewrite <- (Qsum_Permutation S _ _ Hperm).
    + intros r Hr. apply Hprob. by rewrite Hperm.
  - intros x Hx0 Hx1.
    destruct (wheel_cover S organisms 0 x Hsnn) as (i & r & Hi & Hlo & Hhi);
      [done|rewrite Hone; lra|].
    assert (Hr : r ∈ organisms) by (apply list_elem_of_lookup; eauto).
    exists r. split; [by rewrite <- Hperm|].
    apply in_interval_spec. rewrite (Hloc i r Hi), (Hprob r Hr). split; lra.
Qed.

Lemma scan_pool_first_hit (h : Heap) (x : Q) (l : list Ref) :
  (∃ r, r ∈ l ∧ in_interval h r x = true) →
  ∃ r, r ∈ l ∧ scan_pool h 1 x l [] = inl [r].
Proof.
  induction l as [|a l IH]; intros (r & Hr & Hhit).
  - by apply elem_of_nil in Hr.
  - simpl. destruct (in_interval h a x) eqn:Ha.
    + exists a. split; [apply list_elem_of_here|done].
    + apply elem_of_cons in Hr as [->|Hr]; [congruence|].
      destruct IH as (r' & Hr' & Hscan); [eauto|].
      exists r'. split; [by apply list_elem_of_further|done].
Qed.

Lemma Qsum_member_le (f : Ref → Q) (l : list Ref) (r : Ref) :
  (∀ r, r ∈ l → 0 <= f r) → r ∈ l → f r <= Qsum f l.
Proof.
  intros Hf Hr. apply list_elem_of_split in Hr as (l1 & l2 & ->).
  rewrite Qsum_app. simpl.
  assert (0 <= Qsum f l1).
  { apply Qsum_nonneg. intros r' Hr'. apply Hf, elem_of_app. by left. }
  assert (0 <= Qsum f l2).
  { apply Qsum_nonneg. intros r' Hr'. apply Hf, elem_of_app. right.
    by apply list_elem_of_further. }
  lra.
Qed.

(** X4: The two steps together, for a natural selection power: once
    [compute_fitnesses] has returned on a pool without repeated organisms,
    [compute_selection_probs] returns, so that its division is not one by
    zero (an organism of fitness 1 is in the pool and no fitness is
    negative); every selection probability of the pool then lies between 0
    and 1, an organism with fitness 1 has a positive one, and values and
    fitnesses are as they were. *)
Theorem fitnesses_then_selection_probs (h h1 : Heap) (p : Pool) :
  NoDup (to_list p) →
  compute_fitnesses h p = OK h1 →
  ∃ h2, compute_selection_probs h1 p = OK h2
        ∧ (∀ r, value (h2 r) = value (h r) ∧ fitness (h2 r) = fitness (h1 r))
        ∧ (∀ r, r ∈ to_list p →
                0 <= selection_prob (h2 r) ∧ selection_prob (h2 r) <= 1)
        ∧ ∃ b, b ∈ to_list p ∧ fitness (h2 b) == 1
               ∧ 0 < selection_prob (h2 b).
Proof.
  intros Hnd Hfit.
  destruct (compute_fitnesses_OK_range h h1 p Hfit)
    as [Hrange (b & Hb & Hone)].
  destruct (compute_selection_probs_wheel h1 p Hnd)
    as (h2 & denom & Hrun & Hdenom & Hfit2 & Hval2 & _ & Hprob & _ & Hnn
        & Hsum).
  { intros r Hr. by apply Hrange. }
  { exists b. split; [done|]. rewrite Hone. lra. }
  exists h2. split; [done|]. split; [|split].
  - intros r. split; [|by apply Hfit2].
    rewrite Hval2.
    destruct (compute_fitnesses_frame_aux h h1 p Hfit) as [Hf _].
    by destruct (Hf r) as [f ->].
  - intros r Hr.
    assert (Hr' : r ∈ sort_by (by_increasing_fitness h1) (to_list p))
      by by apply sort_by_elem_of.
    rewrite (Hprob r Hr'). split; [by apply Hnn|].
    rewrite <- Hsum. by apply Qsum_member_le.
  - exists b. split; [done|]. split; [by rewrite Hfit2|].
    assert (Hb' : b ∈ sort_by (by_increasing_fitness h1) (to_list p))
      by by apply sort_by_elem_of.
    rewrite (Hprob b Hb'). unfold share.
    apply Qlt_shift_div_l; [done|]. rewrite Qmult_0_l.
    apply math_pow_pos. rewrite Hone. lra.
Qed.

Lemma fitnesses_then_selection_probs_witness :
  ∃ h2, compute_selection_probs fitness_heap demo_pool = OK h2
        ∧ ∃ b, b ∈ to_list demo_pool ∧ 0 < selection_prob (h2 b).
Proof.
  destruct (fitnesses_then_selection_probs demo_heap fitness_heap demo_pool)
    as (h2 & Hrun & _ & _ & b & Hb & _ & Hpos).
  - compute_done.
  - reflexivity.
  - exists h2. split; [done|by exists b].
Defined.

(** ** Populating the pool *)

Lemma epa_values_loop (l : list Ref) (h : Heap) :
  let h' := foldl (λ (h : Heap) organism,
                     set_value h organism (epa (h organism))) h l in
  (∀ r, epa (h' r) = epa (h r))
  ∧ (∀ r, r ∈ l → value (h' r) = epa (h r))
  ∧ (∀ r, r ∉ l → h' r = h r).
Proof.
  revert h. induction l as [|x l IH]; intros h; simpl.
  - split; [done|]. split; [|done]. intros r Hr. by apply elem_of_nil in Hr.
  - set (h1 := set_value h x (epa (h x))).
    destruct (IH h1) as (Hepa & Hin & Hout).
    assert (Hepa1 : ∀ r, epa (h1 r) = epa (h r)).
    { intros r. unfold h1, set_value. by apply update_preserves. }
    split; [|split].
    + intros r. by rewrite Hepa, Hepa1.
    + intros r Hr. destruct (decide (r ∈ l)) as [Hl|Hl].
      * by rewrite Hin, Hepa1.
      * apply elem_of_cons in Hr as [->|Hr]; [|done].
        rewrite Hout by done. unfold h1, set_value. by rewrite update_eq.
    + intros r Hr. apply not_elem_of_cons in Hr as [Hne Hr].
      rewrite Hout by done. unfold h1, set_value. by rewrite update_ne.
Qed.

Lemma epa_fill_loop (l : list Ref) (p : Pool) (k : nat)
    (g : nat → nat → nat * nat) :
  (∀ i x, g i x = ((k + i)%nat, x)) →
  let p' := foldl (λ p (io : nat * Ref),
                     if (Z.of_nat io.1 <? num_promoted p)%Z
                     then with_promotion_set (promotion_set p ++ [io.2]) p
                     else with_queue (io.2 :: queue p) p)
                  p (imap g l) in
  let m := Z.to_nat (num_promoted p - Z.of_nat k) in
  promotion_set p' = promotion_set p ++ take m l
  ∧ queue p' = rev (drop m l) ++ queue p
  ∧ num_promoted p' = num_promoted p.
Proof.
  revert p k g. induction l as [|x l IH]; intros p k g Hg.
  - simpl. by rewrite take_nil, drop_nil, app_nil_r.
  - rewrite imap_cons. cbn [foldl]. rewrite Hg, Nat.add_0_r. cbn [fst snd].
    assert (Hg' : ∀ i y, (g ∘ S) i y = ((S k + i)%nat, y)).
    { intros i y. unfold compose. rewrite Hg. f_equal. lia. }
    destruct (Z.ltb_spec (Z.of_nat k) (num_promoted p)) as [Hlt|Hge].
    + destruct (IH (with_promotion_set (promotion_set p ++ [x]) p) (S k)
                  (g ∘ S) Hg') as (Hps & Hq & Hn).
      cbn [promotion_set queue num_promoted with_promotion_set] in Hps, Hq, Hn.
      rewrite Hps, Hq, Hn.
      replace (Z.to_nat (num_promoted p - Z.of_nat k))
        with (S (Z.to_nat (num_promoted p - Z.of_nat (S k)))) by lia.
      simpl. by rewrite <- app_assoc.
    + destruct (IH (with_queue (x :: queue p) p) (S k) (g ∘ S) Hg')
        as (Hps & Hq & Hn).
      cbn [promotion_set queue num_promoted with_queue] in Hps, Hq, Hn.
      rewrite Hps, Hq, Hn.
      replace (Z.to_nat (num_promoted p - Z.of_nat (S k))) with O by lia.
      replace (Z.to_nat (num_promoted p - Z.of_nat k)) with O by lia.
      simpl. rewrite take_0, drop_0, app_nil_r.
      by rewrite <- app_assoc.
Qed.

Lemma pd_fill_loop (h : Heap) (l : list Ref) (p : Pool) :
  let p' := foldl (λ p organism,
                     if Qltb (value (h organism)) hull_eps
                     then with_promotion_set (promotion_set p ++ [organism]) p
                     else with_queue (organism :: queue p) p)
                  p l in
  promotion_set p'
  = promotion_set p ++ List.filter (λ r, Qltb (value (h r)) hull_eps) l
  ∧ queue p'
    = rev (List.filter (λ r, negb (Qltb (value (h r)) hull_eps)) l)
      ++ queue p.
Proof.
  revert p. induction l as [|x l IH]; intros p; simpl.
  - by rewrite app_nil_r.
  - destruct (Qltb (value (h x)) hull_eps); simpl.
    + destruct (IH (with_promotion_set (promotion_set p ++ [x]) p))
        as [Hps Hq].
      simpl in Hps, Hq. rewrite Hps, Hq. by rewrite <- app_assoc.
    + destruct (IH (with_queue (x :: queue p) p)) as [Hps Hq].
      simpl in Hps, Hq. rewrite Hps, Hq. by rewrite <- app_assoc.
Qed.

Lemma sorted_increasing_value (h : Heap) (l : list Ref) :
  StronglySorted (le_rel (by_increasing_value h))
                 (sort_by (by_increasing_value h) l).
Proof.
  apply sort_by_sorted; unfold by_increasing_value; intros x y.
  - rewrite Qleb_gt, Qleb_le. apply Qlt_le_weak.
  - intros z. rewrite !Qleb_le. intros ? ?. by eapply Qle_trans.
Qed.

Lemma fitness_selection_values (h h1 h2 : Heap) (p : Pool) :
  compute_fitnesses h p = OK h1 →
  compute_selection_probs h1 p = OK h2 →
  ∀ r, value (h2 r) = value (h r).
Proof.
  intros Hfit Hsel r.
  destruct (compute_fitnesses_frame_aux _ _ _ Hfit) as [Hf _].
  destruct (compute_selection_probs_frame_aux _ _ _ Hsel) as [Hs _].
  destruct (Hs r) as (a & b & ->). destruct (Hf r) as (f & ->). done.
Qed.

(** X14: In a fixed-composition search, when [add_initial_population] returns on
    an empty pool: the pool holds the organisms of the initial population,
    each with its energy per atom as value; the promotion set holds
    [num_promoted] of them (all, if there are fewer) and none of its
    organisms is worse than one of the queue. *)
Theorem add_initial_population_epa
    (phase_diagram : list PDEntry → list Composition → option (PDEntry → Q))
    (h h' : Heap) (p p' : Pool) (organisms_list : list Ref)
    (cs : CompositionSpace) :
  objective_function cs = epa_objective →
  promotion_set p = [] → queue p = [] →
  add_initial_population phase_diagram h p organisms_list cs = OK (h', p') →
  to_list p' ≡ₚ organisms_list
  ∧ length (promotion_set p')
    = Nat.min (Z.to_nat (num_promoted p)) (length organisms_list)
  ∧ (∀ r, r ∈ organisms_list → value (h' r) = epa (h r))
  ∧ epa_invariant h' p'.
Proof.
  intros Hobj Hps Hq Hrun. unfold add_initial_population in Hrun.
  rewrite Hobj in Hrun. cbn [mbind result_bind] in Hrun.
  set (ha := foldl (λ (h : nat → Organism) organism,
                      set_value h organism (epa (h organism)))
                   h organisms_list) in *.
  set (sorted := sort_by (by_increasing_value ha) organisms_list) in *.
  pose proof (epa_fill_loop sorted p 0 pair (λ i x, eq_refl))
    as (Hps' & Hq' & _).
  cbv zeta in Hps', Hq'. rewrite Z.sub_0_r in Hps', Hq'.
  set (m := Z.to_nat (num_promoted p)) in *.
  set (pf := foldl _ p (imap pair sorted)) in *.
  destruct (compute_fitnesses ha pf) as [h1|] eqn:Hfit; [|done].
  cbn [mbind result_bind] in Hrun.
  destruct (compute_selection_probs h1 pf) as [h2|] eqn:Hsel; [|done].
  injection Hrun as <- <-.
  pose proof (fitness_selection_values _ _ _ _ Hfit Hsel) as Hval.
  destruct (epa_values_loop organisms_list h) as (_ & Hin & _).
  fold ha in Hin.
  assert (Hperm : sorted ≡ₚ organisms_list) by apply sort_by_Permutation.
  rewrite Hps in Hps'. rewrite Hq in Hq'. simpl in Hps'.
  rewrite app_nil_r in Hq'.
  split; [|split; [|split]].
  - unfold to_list. rewrite Hps', Hq', <- Permutation_rev, take_drop. done.
  - rewrite Hps', length_take. unfold sorted. by rewrite sort_by_length.
  - intros r Hr. by rewrite Hval, Hin.
  - intros r q Hr Hq0. rewrite Hps' in Hr. rewrite Hq' in Hq0.
    rewrite <- Permutation_rev in Hq0. rewrite !Hval.
    pose proof (sorted_increasing_value ha organisms_list) as Hs.
    fold sorted in Hs. rewrite <- (take_drop m sorted) in Hs.
    pose proof (StronglySorted_app_1_elem_of _ _ _ _ _ Hs Hr Hq0) as Hle.
    by apply Qleb_le in Hle.
Qed.

Lemma add_initial_population_epa_witness :
  ∃ h' p', add_initial_population flat_phase_diagram epa_heap empty_pool
             [3%nat; 1%nat; 2%nat] demo_epa_space = OK (h', p')
           ∧ promotion_set p' = [1%nat; 2%nat] ∧ queue p' = [3%nat]
           ∧ epa_invariant h' p'.
Proof.
  eexists _, _. split; [by vm_compute|]. split; [done|]. split; [done|].
  eapply (add_initial_population_epa flat_phase_diagram epa_heap _ empty_pool
            _ [3%nat; 1%nat; 2%nat] demo_epa_space); [done..|by vm_compute].
Defined.

(** X15: In a phase diagram search on an empty pool, [add_initial_population]
    quits when the phase diagram cannot be built; when it returns, the pool
    holds the organisms of the initial population and has the invariant:
    values below the threshold in the promotion set, the others in the
    queue. *)
Theorem add_initial_population_pd
    (phase_diagram : list PDEntry → list Composition → option (PDEntry → Q))
    (h : Heap) (p : Pool) (organisms_list : list Ref) (cs : CompositionSpace) :
  objective_function cs = pd_objective →
  promotion_set p = [] → queue p = [] →
  (phase_diagram (make_pdentries h organisms_list).*2 (endpoints cs) = None →
   add_initial_population phase_diagram h p organisms_list cs
   = Raise SystemExit)
  ∧ (∀ h' p',
       add_initial_population phase_diagram h p organisms_list cs
       = OK (h', p') →
       pd_invariant h' p' ∧ to_list p' ≡ₚ organisms_list).
Proof.
  intros Hobj Hps Hq. unfold add_initial_population. rewrite Hobj. split.
  - intros Hnone. by rewrite compute_pd_values_Raise.
  - intros h' p' Hrun.
    destruct (compute_pd_values phase_diagram h organisms_list cs)
      as [ha|]; [|done].
    cbn [mbind result_bind] in Hrun.
    pose proof (pd_fill_loop ha organisms_list p) as [Hps' Hq'].
    cbv zeta in Hps', Hq'.
    set (pf := foldl _ p organisms_list) in *.
    destruct (compute_fitnesses ha pf) as [h1|] eqn:Hfit; [|done].
    cbn [mbind result_bind] in Hrun.
    destruct (compute_selection_probs h1 pf) as [h2|] eqn:Hsel; [|done].
    injection Hrun as <- <-.
    pose proof (fitness_selection_values _ _ _ _ Hfit Hsel) as Hval.
    rewrite Hps in Hps'. rewrite Hq, app_nil_r in Hq'. simpl in Hps'.
    split.
    + split; intros r Hr; rewrite Hval.
      * rewrite Hps' in Hr. apply list_elem_of_In, filter_In in Hr as [_ Hr].
        by apply Qltb_lt in Hr.
      * rewrite Hq', <- Permutation_rev in Hr.
        apply list_elem_of_In, filter_In in Hr as [_ Hr].
        by apply negb_true_iff, Qltb_ge in Hr.
    + unfold to_list. rewrite Hps', Hq', <- Permutation_rev.
      clear. induction organisms_list as [|x l IH]; [done|]. simpl.
      destruct (Qltb _ _); simpl; [by rewrite IH|].
      rewrite <- Permutation_middle. by rewrite IH.
Qed.

Lemma add_initial_population_pd_witness :
  add_initial_population no_phase_diagram pd_heap empty_pool
    [1%nat; 2%nat] demo_pd_space = Raise SystemExit
  ∧ ∃ h' p', add_initial_population tiny_phase_diagram pd_heap empty_pool
               [1%nat; 2%nat; 3%nat] demo_pd_space = OK (h', p')
             ∧ pd_invariant h' p'.
Proof.
  split.
  - by apply (add_initial_population_pd no_phase_diagram pd_heap empty_pool
                [1%nat; 2%nat] demo_pd_space).
  - eexists _, _. split; [by vm_compute|].
    eapply (add_initial_population_pd tiny_phase_diagram pd_heap empty_pool
              [1%nat; 2%nat; 3%nat] demo_pd_space); [done..|by vm_compute].
Defined.

(** ** More on the stopping criteria *)

(** X19: In a phase diagram search a value given for [value_achieved] is not
    stored, and the attribute is left unset: [__init__] raises
    [AttributeError] when it has to look at it, which is when
    [num_energy_calcs] is missing or left to its default; when
    [num_energy_calcs] is given [__init__] returns, and every later
    [check_organism] raises [AttributeError]. *)
Theorem StoppingCriteria_init_pd_value_achieved (Structure : Type)
    (from_file : string → Structure) (matches : Structure → Structure → bool)
    (d : stopping_dict) (cs : CompositionSpace) (v : Q) :
  objective_function cs = pd_objective →
  dict_value_achieved d = key_given v →
  match dict_num_energy_calcs d with
  | key_given n =>
      ∃ sc, StoppingCriteria_init Structure from_file (block_dict d) cs = OK sc
            ∧ num_energy_calcs sc = Some n
            ∧ value_achieved sc = None
            ∧ ∀ organism_value organism_structure,
                check_organism matches sc organism_value organism_structure
                = Raise AttributeError
  | _ =>
      StoppingCriteria_init Structure from_file (block_dict d) cs
      = Raise AttributeError
  end.
Proof.
  intros Hobj Hv. unfold StoppingCriteria_init. rewrite Hv, Hobj.
  destruct (dict_num_energy_calcs d) as [| |n]; [done|done|].
  simpl. eexists. split; [done|]. by repeat split.
Qed.

Lemma StoppingCriteria_init_pd_value_achieved_witness :
  StoppingCriteria_init unit (λ _, tt)
    (block_dict (mkStoppingDict key_absent (key_given (-5)) key_absent))
    demo_pd_space
  = Raise AttributeError.
Proof.
  by apply (StoppingCriteria_init_pd_value_achieved unit (λ _, tt)
              (λ _ _, true)
              (mkStoppingDict key_absent (key_given (-5)) key_absent)
              demo_pd_space (-5)).
Defined.

(** X20: With no stopping criterion given, [__init__] needs the default number
    of energy calculations, which is set for one to four endpoints only:
    for a composition space with no or more than four endpoints it raises
    [AttributeError]. *)
Theorem StoppingCriteria_init_no_default (Structure : Type)
    (from_file : string → Structure) (stopping_parameters : block stopping_dict)
    (cs : CompositionSpace) :
  match stopping_parameters with
  | block_dict d =>
      (∀ n, dict_num_energy_calcs d ≠ key_given n)
      ∧ (∀ v, dict_value_achieved d ≠ key_given v)
      ∧ (∀ path, dict_found_structure d ≠ key_given path)
  | _ => True
  end →
  length (endpoints cs) = 0%nat ∨ (4 < length (endpoints cs))%nat →
  StoppingCriteria_init Structure from_file stopping_parameters cs
  = Raise AttributeError.
Proof.
  intros Hparams Hlen. unfold StoppingCriteria_init.
  assert (Hdefault :
    match length (endpoints cs) with
    | 1%nat => Some 800%Z | 2%nat => Some 1000%Z | 3%nat => Some 3000%Z
    | 4%nat => Some 6000%Z | _ => None
    end = None).
  { destruct (length (endpoints cs)) as [|[|[|[|[|k]]]]]; (done || lia). }
  rewrite Hdefault.
  destruct stopping_parameters as [| |d]; [done|done|].
  destruct Hparams as (Hn & Hv & Hs).
  destruct (dict_num_energy_calcs d) as [| |n]; [| |by destruct (Hn n)];
    (destruct (dict_value_achieved d) as [| |v]; [| |by destruct (Hv v)]);
    (destruct (dict_found_structure d) as [| |s]; [| |by destruct (Hs s)]);
    done.
Qed.

Lemma StoppingCriteria_init_no_default_witness :
  StoppingCriteria_init unit (λ _, tt) block_default
    (mkCompositionSpace ["A"; "B"; "C"; "D"; "E"] pd_objective)
  = Raise AttributeError.
Proof.
  apply StoppingCriteria_init_no_default; [done|]. right. simpl. lia.
Defined.

(** X21: [check_organism], when it returns, writes the flag only, and the flag
    is set afterwards exactly when it was set before, or the value of the
    organism is at most the value to achieve, or the structure of the
    organism matches the structure to find. *)
Theorem check_organism_satisfied_iff (Structure : Type)
    (matches : Structure → Structure → bool) (sc sc' : StoppingCriteria Structure)
    (organism_value : Q) (organism_structure : Structure) :
  check_organism matches sc organism_value organism_structure = OK sc' →
  sc' = with_are_satisfied (are_satisfied sc') sc
  ∧ (are_satisfied sc' = true ↔
     are_satisfied sc = true
     ∨ (∃ target, value_achieved sc = Some (Some target)
                  ∧ organism_value <= target)
     ∨ (∃ found, found_structure sc = Some found
                 ∧ matches found organism_structure = true)).
Proof.
  destruct sc as [dn sat cc nec va fs]. unfold check_organism. simpl.
  destruct va as [[target|]|]; simpl; [| |done].
  - destruct (Qleb organism_value target) eqn:Hle.
    + apply Qleb_le in Hle.
      destruct fs as [found|]; simpl;
        [destruct (matches found organism_structure)|];
        intros [= <-]; (split; [done|]); simpl;
        (split; [intros _; right; left; eauto|done]).
    + apply Qleb_gt in Hle.
      destruct fs as [found|]; simpl;
        [destruct (matches found organism_structure) eqn:Hm|];
        intros [= <-]; (split; [done|]); simpl.
      * split; [intros _; right; right; eauto|done].
      * split; [by left|].
        intros [?|[(t & [= <-] & Ht)|(f & [= <-] & Hf)]]; [done|lra|congruence].
      * split; [by left|].
        intros [?|[(t & [= <-] & Ht)|(f & ? & _)]]; [done|lra|done].
  - destruct fs as [found|]; simpl;
      [destruct (matches found organism_structure) eqn:Hm|];
      intros [= <-]; (split; [done|]); simpl.
    + split; [intros _; right; right; eauto|done].
    + split; [by left|].
      intros [?|[(t & ? & _)|(f & [= <-] & Hf)]]; [done|done|congruence].
    + split; [by left|].
      intros [?|[(t & ? & _)|(f & ? & _)]]; done.
Qed.

Lemma check_organism_satisfied_iff_witness :
  let sc := mkStoppingCriteria unit None false 0 None (Some (Some 2)) None in
  are_satisfied (with_are_satisfied true sc) = true ↔
  are_satisfied sc = true
  ∨ (∃ target, value_achieved sc = Some (Some target) ∧ 1 <= target)
  ∨ (∃ found, found_structure sc = Some found ∧ true = true).
Proof.
  apply (check_organism_satisfied_iff unit (λ _ _, true)
           (mkStoppingCriteria unit None false 0 None (Some (Some 2)) None)
           _ 1 tt).
  reflexivity.
Defined.

(** From a fresh state with a number [n] of energy calculations to stop at,
    the flag is set after [k] calls of [update_calc_counter] exactly when
    [k] is at least 1 and at least [n]; so for [n <= 0] the search does not
    stop before the first calculation is counted. *)
Theorem update_calc_counter_threshold (Structure : Type)
    (sc : StoppingCriteria Structure) (n : Z) (k : nat) :
  num_energy_calcs sc = Some n →
  calc_counter sc = 0%Z →
  are_satisfied sc = false →
  are_satisfied (Nat.iter k update_calc_counter sc) = true
  ↔ (0 < k)%nat ∧ (n ≤ Z.of_nat k)%Z.
Proof.
  intros Hn Hc Hs.
  destruct (update_calc_counter_iter sc n k Hn) as (_ & _ & Hiff).
  rewrite Hiff, Hc, Hs. intuition (done || lia).
Qed.

Lemma update_calc_counter_threshold_witness :
  are_satisfied
    (Nat.iter 3 update_calc_counter
       (mkStoppingCriteria unit None false 0 (Some 3%Z) (Some None) None))
  = true
  ↔ (0 < 3)%nat ∧ (3 ≤ Z.of_nat 3)%Z.
Proof. by apply update_calc_counter_threshold. Defined.

(** When the number of energy calculations is not a stopping criterion,
    [update_calc_counter] changes nothing, however often it is called. *)
Theorem update_calc_counter_disabled (Structure : Type)
    (sc : StoppingCriteria Structure) (k : nat) :
  num_energy_calcs sc = None →
  Nat.iter k update_calc_counter sc = sc.
Proof.
  intros Hn. induction k as [|k IH]; [done|].
  simpl. rewrite IH. unfold update_calc_counter. by rewrite Hn.
Qed.

Lemma update_calc_counter_disabled_witness :
  Nat.iter 5 update_calc_counter
    (mkStoppingCriteria unit (Some 800%Z) false 0 None (Some (Some 2)) None)
  = mkStoppingCriteria unit (Some 800%Z) false 0 None (Some (Some 2)) None.
Proof. by apply update_calc_counter_disabled. Defined.

(** ** Selection parameters *)

(** X22: The number of parents that [SelectionProbDist.__init__] sets, in
    a pool that takes its selection parameters from it at its own size: a
    number given in the dictionary is taken as it is when it is not larger
    than the size of the pool, and replaced by the size when it is larger;
    without a number given it is the size.  So it never exceeds the size,
    and [compute_fitnesses] asks for at most [size] organisms as reference
    subset.  A negative number is taken too, and [compute_fitnesses] then
    raises [IndexError]. *)
Theorem SelectionProbDist_init_num_parents
    (selection_params : block selection_dict) (p : Pool) (h : Heap) :
  selection p = SelectionProbDist_init selection_params (size p) →
  (num_parents (selection p) ≤ size p)%Z
  ∧ (num_best p ≤ size p)%Z
  ∧ (∀ d n, selection_params = block_dict d →
            dict_num_parents d = key_given n →
            ((n ≤ size p)%Z → num_parents (selection p) = n)
            ∧ ((size p < n)%Z → num_parents (selection p) = size p)
            ∧ ((n ≤ size p)%Z → (n < 0)%Z →
               compute_fitnesses h p = Raise IndexError))
  ∧ ((∀ d n, selection_params = block_dict d →
             dict_num_parents d ≠ key_given n) →
     num_parents (selection p) = size p).
Proof.
  intros Hsel.
  assert (Hle : (num_parents (selection p) ≤ size p)%Z).
  { rewrite Hsel. destruct selection_params as [| |d]; simpl; [lia|lia|].
    destruct (dict_num_parents d) as [| |n]; simpl; [lia|lia|].
    destruct (Z.ltb_spec (size p) n); simpl; lia. }
  split; [exact Hle|]. split; [|split].
  - unfold num_best. destruct (Z.ltb_spec (num_parents (selection p)) (size p));
      lia.
  - intros d n -> Hd.
    assert (Hgiven : num_parents (selection p)
                     = if (size p <? n)%Z then size p else n).
    { rewrite Hsel. simpl. by rewrite Hd. }
    split; [|split].
    + intros Hn. rewrite Hgiven. destruct (Z.ltb_spec (size p) n); lia.
    + intros Hn. rewrite Hgiven. destruct (Z.ltb_spec (size p) n); lia.
    + intros Hn Hneg. apply compute_fitnesses_empty_subset_aux. right.
      assert (Hnum : num_parents (selection p) = n).
      { rewrite Hgiven. destruct (Z.ltb_spec (size p) n); lia. }
      unfold num_best. rewrite Hnum.
      destruct (Z.ltb_spec n (size p)); lia.
  - intros Hnone. rewrite Hsel.
    destruct selection_params as [| |d]; simpl; [done|done|].
    destruct (dict_num_parents d) as [| |n] eqn:Hd; simpl; [done|done|].
    by destruct (Hnone d n).
Qed.

Lemma SelectionProbDist_init_num_parents_witness :
  num_parents (selection five_parent_pool) = 5%Z
  ∧ (num_best five_parent_pool ≤ size five_parent_pool)%Z.
Proof.
  destruct (SelectionProbDist_init_num_parents
              (block_dict (mkSelectionDict (key_given 5%Z) key_absent))
              five_parent_pool demo_heap) as (_ & Hbest & Hgiven & _);
    [reflexivity|].
  destruct (Hgiven (mkSelectionDict (key_given 5%Z) key_absent) 5%Z
              eq_refl eq_refl) as (Htaken & _ & _).
  split; [apply Htaken; simpl; lia|exact Hbest].
Defined.

(** ** The objective function *)

(** X28: [infer_objective_function] answers ["pd"] only for a composition space
    in which two endpoints differ; when every composition almost equals
    itself these are two distinct endpoints, so the answer for no endpoint
    or for a single one is ["epa"]. *)
Theorem infer_objective_function_pd
    (almost_equals : Composition → Composition → bool)
    (endpoints : list Composition) :
  (∀ c, almost_equals c c = true) →
  infer_objective_function almost_equals endpoints = pd_objective →
  (2 ≤ length endpoints)%nat
  ∧ ∃ point next_point,
      point ∈ endpoints ∧ next_point ∈ endpoints ∧ point ≠ next_point
      ∧ almost_equals point next_point = false.
Proof.
  intros Hrefl. unfold infer_objective_function.
  destruct (Nat.eqb_spec (length endpoints) 1) as [|Hlen]; [done|].
  destruct (existsb _ endpoints) eqn:Hex; [intros _|done].
  apply existsb_exists in Hex as (point & Hpoint & Hex).
  apply existsb_exists in Hex as (next_point & Hnext & Hne).
  apply negb_true_iff in Hne.
  apply list_elem_of_In in Hpoint, Hnext.
  split.
  - destruct endpoints as [|a [|b l]]; simpl in *; [|done|lia].
    by apply elem_of_nil in Hpoint.
  - exists point, next_point. do 2 (split; [done|]). split; [|done].
    intros ->. by rewrite Hrefl in Hne.
Qed.

Lemma infer_objective_function_pd_witness :
  (2 ≤ length ["Fe2O3"; "FeO"])%nat
  ∧ ∃ point next_point,
      point ∈ ["Fe2O3"; "FeO"] ∧ next_point ∈ ["Fe2O3"; "FeO"]
      ∧ point ≠ next_point
      ∧ String.eqb point next_point = false.
Proof.
  apply (infer_objective_function_pd String.eqb ["Fe2O3"; "FeO"]).
  - intros c. apply String.eqb_refl.
  - reflexivity.
Defined.

(** ** Pairs of elements *)

Lemma pairs_length (f : nat → nat → string) (n a k : nat) :
  (a + k ≤ n)%nat →
  (2 * length (flat_map (λ i, map (f i) (seq (i + 1) (n - (i + 1))))
                        (seq a k))
   = k * (2 * n - 2 * a - k - 1))%nat.
Proof.
  revert a. induction k as [|k IH]; intros a Hle; [done|].
  simpl. rewrite length_app, length_map, length_seq.
  specialize (IH (S a) ltac:(lia)). nia.
Qed.

(** [get_all_pairs] returns [n (n - 1) / 2] pairs for [n] elements. *)
Theorem get_all_pairs_length (elements : list string) :
  (2 * length (get_all_pairs elements)
   = length elements * (length elements - 1))%nat.
Proof.
  unfold get_all_pairs.
  destruct (Nat.eqb_spec (length elements) 1) as [->|Hlen]; [done|].
  destruct (length elements) as [|n] eqn:Hn; [done|].
  rewrite <- Hn.
  rewrite (pairs_length _ (length elements)) by lia. nia.
Qed.

(** Every pair that [get_all_pairs] returns joins the symbols at two
    positions [i < j] of the list of elements; when the list has no
    repetition, as the list made from a set that [get_all_elements] returns,
    the two symbols differ: there is no self-pair. *)
Theorem get_all_pairs_no_self_pair (elements : list string) (pair : string) :
  NoDup elements →
  pair ∈ get_all_pairs elements →
  ∃ i j a b,
    (i < j)%nat ∧ elements !! i = Some a ∧ elements !! j = Some b
    ∧ pair = a +:+ " " +:+ b ∧ a ≠ b.
Proof.
  intros Hnd. unfold get_all_pairs.
  destruct (length elements =? 1)%nat; [by intros ?%elem_of_nil|].
  intros Hin. apply list_elem_of_In, in_flat_map in Hin as (i & Hi & Hin).
  apply in_map_iff in Hin as (j & <- & Hj).
  apply in_seq in Hi, Hj.
  destruct (lookup_lt_is_Some_2 elements i ltac:(lia)) as [a Ha].
  destruct (lookup_lt_is_Some_2 elements j ltac:(lia)) as [b Hb].
  exists i, j, a, b. split; [lia|]. do 2 (split; [done|]).
  rewrite Ha, Hb. split; [done|].
  intros ->. assert (i = j) by by eapply NoDup_lookup. lia.
Qed.

Lemma get_all_pairs_no_self_pair_witness :
  ∃ i j a b,
    (i < j)%nat ∧ ["Fe"; "O"; "Li"] !! i = Some a
    ∧ ["Fe"; "O"; "Li"] !! j = Some b
    ∧ "O Li" = a +:+ " " +:+ b ∧ a ≠ b.
Proof.
  apply (get_all_pairs_no_self_pair ["Fe"; "O"; "Li"] "O Li").
  - compute_done.
  - compute_done.
Defined.

(** ** Choosing a variation *)

Section VariationFacts.
Context {Variation : Type} `{EqDecision Variation}.
Variable fraction : Variation → Q.

Lemma scan_variations_sound (rand lower_bound : Q)
    (tried_variations variations : list Variation) (v : Variation) :
  scan_variations fraction rand lower_bound tried_variations variations
  = Some v →
  v ∈ variations ∧ v ∉ tried_variations ∧ 0 < fraction v.
Proof.
  revert lower_bound.
  induction variations as [|x l IH]; intros lower_bound; simpl; [done|].
  destruct (Qltb lower_bound rand) eqn:Hlow; simpl;
    [destruct (Qleb rand (lower_bound + fraction x)) eqn:Hhigh; simpl;
     [destruct (py_in x tried_variations) eqn:Htried; simpl|]|].
  - intros Hscan. destruct (IH _ Hscan) as (? & ? & ?).
    split; [by apply list_elem_of_further|done].
  - intros [= <-]. apply Qltb_lt in Hlow. apply Qleb_le in Hhigh.
    apply py_in_false in Htried.
    split; [apply list_elem_of_here|]. split; [done|lra].
  - intros Hscan. destruct (IH _ Hscan) as (? & ? & ?).
    split; [by apply list_elem_of_further|done].
  - intros Hscan. destruct (IH _ Hscan) as (? & ? & ?).
    split; [by apply list_elem_of_further|done].
Qed.

Lemma scan_variations_all_tried (rand lower_bound : Q)
    (tried_variations variations : list Variation) :
  variations ⊆ tried_variations →
  scan_variations fraction rand lower_bound tried_variations variations = None.
Proof.
  revert lower_bound.
  induction variations as [|x l IH]; intros lower_bound Hsub; simpl; [done|].
  assert (Hx : py_in x tried_variations = true).
  { apply py_in_true, Hsub, list_elem_of_here. }
  rewrite Hx, andb_false_r. apply IH.
  intros y Hy. by apply Hsub, list_elem_of_further.
Qed.

Lemma scan_variations_hit (rand lower_bound : Q)
    (variations : list Variation) :
  lower_bound < rand →
  rand <= lower_bound + foldr (λ v acc, fraction v + acc) 0 variations →
  is_Some (scan_variations fraction rand lower_bound [] variations).
Proof.
  revert lower_bound.
  induction variations as [|x l IH]; intros lower_bound Hlow Hhigh;
    cbn [scan_variations].
  - simpl in Hhigh. lra.
  - simpl in Hhigh.
    assert (Hl : Qltb lower_bound rand = true).
    { destruct (Qltb lower_bound rand) eqn:E; [done|].
      apply Qltb_ge in E. lra. }
    assert (Hnil : py_in x [] = false) by apply py_in_false, not_elem_of_nil.
    rewrite Hl, Hnil.
    destruct (Qleb rand (lower_bound + fraction x)) eqn:Hx; simpl; [eauto|].
    apply Qleb_gt in Hx. apply IH; lra.
Qed.

Lemma scan_variations_zero (lower_bound : Q)
    (tried_variations variations : list Variation) :
  0 <= lower_bound →
  (∀ v, v ∈ variations → 0 <= fraction v) →
  scan_variations fraction 0 lower_bound tried_variations variations = None.
Proof.
  revert lower_bound.
  induction variations as [|x l IH]; intros lower_bound Hlow Hpos; simpl;
    [done|].
  assert (Hl : Qltb lower_bound 0 = false).
  { destruct (Qltb lower_bound 0) eqn:E; [|done]. apply Qltb_lt in E. lra. }
  rewrite Hl. simpl. apply IH.
  - pose proof (Hpos x (list_elem_of_here _ _)). lra.
  - intros v Hv. by apply Hpos, list_elem_of_further.
Qed.

End VariationFacts.

(** X23: A variation that [select_variation] returns is one of the variations
    of the search, has not been tried, and has a positive fraction. *)
Theorem select_variation_sound {Variation : Type} `{EqDecision Variation}
    (fraction : Variation → Q) (draws : list Q)
    (tried_variations variations : list Variation) (v : Variation) :
  select_variation fraction draws tried_variations variations = Some v →
  v ∈ variations ∧ v ∉ tried_variations ∧ 0 < fraction v.
Proof.
  induction draws as [|rand draws IH]; simpl; [done|].
  destruct (scan_variations fraction rand 0 tried_variations variations)
    as [v'|] eqn:Hscan; [|done].
  intros [= <-]. by eapply scan_variations_sound.
Qed.

Lemma select_variation_sound_witness :
  2%nat ∈ [1%nat; 2%nat] ∧ 2%nat ∉ [1%nat]
  ∧ 0 < (λ v : nat, if decide (v = 1%nat) then 1 # 4 else 3 # 4) 2%nat.
Proof.
  apply (select_variation_sound
           (λ v : nat, if decide (v = 1%nat) then 1 # 4 else 3 # 4)
           [1 # 8; 1 # 2] [1%nat] [1%nat; 2%nat] 2%nat).
  reflexivity.
Defined.

(** When every variation has been tried, [select_variation] does not
    return, whatever the random numbers: its loop goes on for ever. *)
Theorem select_variation_all_tried {Variation : Type} `{EqDecision Variation}
    (fraction : Variation → Q) (draws : list Q)
    (tried_variations variations : list Variation) :
  variations ⊆ tried_variations →
  select_variation fraction draws tried_variations variations = None.
Proof.
  intros Hsub. induction draws as [|rand draws IH]; simpl; [done|].
  by rewrite scan_variations_all_tried.
Qed.

Lemma select_variation_all_tried_witness :
  select_variation (λ _ : nat, 1 # 2) [1 # 8; 1 # 2; 7 # 8]
                   [2%nat; 1%nat] [1%nat; 2%nat] = None.
Proof.
  apply select_variation_all_tried.
  intros x Hx. apply list_elem_of_In in Hx. apply list_elem_of_In.
  simpl in *. tauto.
Defined.

(** X24: With no variation tried and fractions that are not negative,
    [select_variation] returns as soon as a random number falls in
    [(0, total]], where [total] is the sum of the fractions; the random number
    [0.0], which [random.random()] can return, selects nothing. *)
Theorem select_variation_returns {Variation : Type} `{EqDecision Variation}
    (fraction : Variation → Q) (draws : list Q)
    (variations : list Variation) (rand : Q) :
  (∀ v, v ∈ variations → 0 <= fraction v) →
  rand ∈ draws →
  0 < rand →
  rand <= foldr (λ v acc, fraction v + acc) 0 variations →
  is_Some (select_variation fraction draws [] variations)
  ∧ select_variation fraction [0] [] variations = None.
Proof.
  intros Hpos Hin Hlow Hhigh. split.
  - induction draws as [|d draws IH]; [by apply elem_of_nil in Hin|].
    simpl.
    destruct (scan_variations fraction d 0 [] variations) as [v|] eqn:Hscan;
      [eauto|].
    apply elem_of_cons in Hin as [<-|Hin]; [|by apply IH].
    destruct (scan_variations_hit fraction rand 0 variations) as [v Hv];
      [done|lra|congruence].
  - simpl. rewrite scan_variations_zero; [done|lra|done].
Qed.

Lemma select_variation_returns_witness :
  is_Some (select_variation (λ _ : nat, 1 # 2) [0; 3 # 4] []
                            [1%nat; 2%nat])
  ∧ select_variation (λ _ : nat, 1 # 2) [0] [] [1%nat; 2%nat] = None.
Proof.
  apply (select_variation_returns (λ _ : nat, 1 # 2) [0; 3 # 4]
           [1%nat; 2%nat] (3 # 4)).
  - intros v _. by vm_compute.
  - apply list_elem_of_further, list_elem_of_here.
  - by vm_compute.
  - by vm_compute.
Defined.

(** ** Identifiers *)

(** X27: [k] calls of [make_id] return the [k] numbers that follow the counter,
    in order, without repetition; from a new generator these are
    [1, ..., k]. *)
Theorem make_ids_successive (k : nat) (g : IDGenerator.t) :
  (IDGenerator.make_ids k g).1
  = map (λ i, (IDGenerator.id g + Z.of_nat i)%Z) (seq 1 k)
  ∧ IDGenerator.id (IDGenerator.make_ids k g).2
    = (IDGenerator.id g + Z.of_nat k)%Z
  ∧ NoDup (IDGenerator.make_ids k g).1
  ∧ (IDGenerator.make_ids k IDGenerator.init).1 = map Z.of_nat (seq 1 k).
Proof.
  assert (Hgen : ∀ k g,
    (IDGenerator.make_ids k g).1
    = map (λ i, (IDGenerator.id g + Z.of_nat i)%Z) (seq 1 k)
    ∧ IDGenerator.id (IDGenerator.make_ids k g).2
      = (IDGenerator.id g + Z.of_nat k)%Z).
  { clear. induction k as [|k IH]; intros g.
    - simpl. split; [done|lia].
    - cbn [IDGenerator.make_ids]. unfold IDGenerator.make_id.
      destruct (IH (IDGenerator.mk (IDGenerator.id g + 1))) as [IH1 IH2].
      destruct (IDGenerator.make_ids k _) as [l g'].
      simpl in *. split; [|lia].
      f_equal. rewrite IH1, <- (seq_shift k 1), map_map.
      apply map_ext. intros i. lia. }
  destruct (Hgen k g) as [H1 H2]. split; [done|]. split; [done|]. split.
  - rewrite H1. apply NoDup_fmap_2; [|apply NoDup_seq].
    intros i j Hij. lia.
  - destruct (Hgen k IDGenerator.init) as [-> _].
    apply map_ext. intros i. simpl. lia.
Qed.

(** ** The initial population *)

Lemma id_set_is_active (h : Heap) (r r' : Ref) (b : bool) :
  id (set_is_active h r b r') = id (h r').
Proof.
  unfold set_is_active. destruct (decide (r = r')) as [->|Hne].
  - by rewrite update_eq.
  - by rewrite update_ne.
Qed.

(** The loop changes nothing from an index after which no organism has the
    id looked for. *)
Lemma replace_loop_no_match (fuel : nat) (old_id : Z) (i : nat) (h : Heap)
    (l : list Ref) :
  (∀ r, r ∈ drop i l → id (h r) ≠ old_id) →
  InitialPopulation.replace_loop fuel old_id i h l = OK (h, l).
Proof.
  revert i. induction fuel as [|fuel IH]; intros i Hno; simpl; [done|].
  destruct (l !! i) as [org|] eqn:Hi; [|done].
  assert (Horg : org ∈ drop i l).
  { apply list_elem_of_lookup. exists 0%nat. by rewrite lookup_drop, Nat.add_0_r. }
  destruct (Z.eqb_spec (id (h org)) old_id) as [Heq|_];
    [by destruct (Hno org Horg)|].
  apply IH. intros r Hr. apply Hno.
  rewrite <- (Nat.add_1_r i), <- drop_drop in Hr.
  by eapply subseteq_drop.
Qed.

(** The loop up to and past the first organism [a] that has the id looked
    for: [a] is removed and made inactive, and the organism that followed
    it, now at the index of [a], is not looked at. *)
Lemma replace_loop_match (fuel : nat) (old_id : Z) (h : Heap)
    (l0 l1 l2 : list Ref) (a : Ref) :
  (length l1 < fuel)%nat →
  (∀ r, r ∈ l0 ++ l1 → id (h r) ≠ old_id) →
  id (h a) = old_id →
  (∀ r, r ∈ tail l2 → id (h r) ≠ old_id) →
  InitialPopulation.replace_loop fuel old_id (length l0) h
    (l0 ++ l1 ++ a :: l2)
  = OK (set_is_active h a false, l0 ++ l1 ++ l2).
Proof.
  revert fuel l0.
  induction l1 as [|x l1 IH]; intros fuel l0 Hfuel Hno Ha Hl2.
  - destruct fuel as [|fuel]; [simpl in Hfuel; lia|].
    cbn [InitialPopulation.replace_loop app].
    rewrite list_lookup_middle by done.
    rewrite Ha, Z.eqb_refl.
    rewrite py_remove_skip.
    2:{ intros Hin. apply (Hno a); [|done]. by rewrite app_nil_r. }
    cbn [mbind result_bind].
    apply replace_loop_no_match.
    intros r Hr. rewrite id_set_is_active. apply Hl2.
    replace (S (length l0)) with (length l0 + 1)%nat in Hr by lia.
    rewrite <- drop_drop, drop_app_length in Hr.
    by destruct l2.
  - destruct fuel as [|fuel]; [simpl in Hfuel; lia|].
    cbn [InitialPopulation.replace_loop].
    change (l0 ++ (x :: l1) ++ a :: l2) with (l0 ++ x :: (l1 ++ a :: l2)).
    rewrite list_lookup_middle by done.
    destruct (Z.eqb_spec (id (h x)) old_id) as [Heq|_].
    { destruct (Hno x); [|done].
      apply elem_of_app. right. apply list_elem_of_here. }
    replace (l0 ++ x :: l1 ++ a :: l2) with ((l0 ++ [x]) ++ l1 ++ a :: l2)
      by by rewrite <- app_assoc.
    replace (S (length l0)) with (length (l0 ++ [x]))
      by (rewrite length_app; simpl; lia).
    rewrite IH; [|simpl in Hfuel; lia| |done|done].
    + by rewrite <- !app_assoc.
    + intros r Hr. apply Hno. by rewrite <- app_assoc in Hr.
Qed.

(** X25: [InitialPopulation.replace_organism] on a population whose organisms
    have distinct ids, one of them [old_org]: [old_org] leaves the list and
    is made inactive, [new_org] is added at the end and made active, and no
    other organism changes. *)
Theorem initial_population_replace_organism (h : Heap)
    (initial_population : list Ref) (old_org new_org : Ref) :
  NoDup (map (λ r, id (h r)) initial_population) →
  old_org ∈ initial_population →
  ∃ l1 l2,
    initial_population = l1 ++ old_org :: l2
    ∧ InitialPopulation.replace_organism h initial_population old_org new_org
      = OK (set_is_active (set_is_active h old_org false) new_org true,
            l1 ++ l2 ++ [new_org]).
Proof.
  intros Hnd Hold.
  apply list_elem_of_split in Hold as (l1 & l2 & ->).
  exists l1, l2. split; [done|].
  rewrite map_app in Hnd. simpl in Hnd.
  apply NoDup_app in Hnd as (_ & Hdisj & Hnd2).
  apply NoDup_cons in Hnd2 as [Hnot2 _].
  unfold InitialPopulation.replace_organism.
  pose proof (replace_loop_match (length (l1 ++ old_org :: l2))
                (id (h old_org)) h [] l1 l2 old_org) as Hloop.
  simpl in Hloop. rewrite Hloop.
  - simpl. by rewrite <- app_assoc.
  - rewrite length_app. simpl. lia.
  - intros r Hr Heq. apply (Hdisj (id (h r))).
    + apply list_elem_of_In, in_map_iff. exists r.
      by split; [|apply list_elem_of_In].
    + rewrite Heq. apply list_elem_of_here.
  - done.
  - intros r Hr Heq. apply Hnot2.
    apply list_elem_of_In, in_map_iff. exists r.
    split; [done|]. apply list_elem_of_In.
    destruct l2; [by apply elem_of_nil in Hr|by apply list_elem_of_further].
Qed.

Lemma initial_population_replace_organism_witness :
  ∃ l1 l2,
    [1%nat; 2%nat; 3%nat] = l1 ++ 2%nat :: l2
    ∧ InitialPopulation.replace_organism epa_heap [1%nat; 2%nat; 3%nat]
        2%nat 4%nat
      = OK (set_is_active (set_is_active epa_heap 2%nat false) 4%nat true,
            l1 ++ l2 ++ [4%nat]).
Proof.
  apply initial_population_replace_organism; compute_done.
Defined.

(** X26: The loop of [InitialPopulation.replace_organism] removes from the list
    it runs over, so the organism that follows a removed one is skipped:
    when two organisms with the id of [old_org] stand side by side, the
    second one stays in the initial population. *)
Theorem initial_population_replace_organism_skips (h : Heap)
    (l1 l2 : list Ref) (a b old_org new_org : Ref) :
  (∀ r, r ∈ l1 ++ l2 → id (h r) ≠ id (h old_org)) →
  id (h a) = id (h old_org) →
  id (h b) = id (h old_org) →
  InitialPopulation.replace_organism h (l1 ++ a :: b :: l2) old_org new_org
  = OK (set_is_active (set_is_active h a false) new_org true,
        l1 ++ b :: l2 ++ [new_org]).
Proof.
  intros Hno Ha Hb.
  unfold InitialPopulation.replace_organism.
  pose proof (replace_loop_match (length (l1 ++ a :: b :: l2))
                (id (h old_org)) h [] l1 (b :: l2) a) as Hloop.
  simpl in Hloop. rewrite Hloop.
  - simpl. by rewrite <- app_assoc.
  - rewrite length_app. simpl. lia.
  - intros r Hr. apply Hno, elem_of_app. by left.
  - done.
  - intros r Hr. apply Hno, elem_of_app. by right.
Qed.

Lemma initial_population_replace_organism_skips_witness :
  InitialPopulation.replace_organism tied_ids_heap [1%nat; 2%nat; 3%nat]
    1%nat 4%nat
  = OK (set_is_active (set_is_active tied_ids_heap 1%nat false) 4%nat true,
        [2%nat; 3%nat; 4%nat]).
Proof.
  apply (initial_population_replace_organism_skips tied_ids_heap [] [3%nat]
           1%nat 2%nat 1%nat 4%nat).
  - intros r Hr. apply list_elem_of_singleton in Hr as ->. by vm_compute.
  - reflexivity.
  - reflexivity.
Defined.

(** ** Replacing an organism in a fixed-composition search *)

Lemma value_set_is_active (h : Heap) (r r' : Ref) (b : bool) :
  value (set_is_active h r b r') = value (h r').
Proof. unfold set_is_active. by apply update_preserves. Qed.

Lemma value_set_value_ne (h : Heap) (r r' : Ref) (v : Q) :
  r ≠ r' → value (set_value h r v r') = value (h r').
Proof. intros Hne. unfold set_value. by rewrite update_ne. Qed.

Lemma value_set_value_eq (h : Heap) (r : Ref) (v : Q) :
  value (set_value h r v r) = v.
Proof. unfold set_value. by rewrite update_eq. Qed.

(** X12: Where the new organism goes in a fixed-composition search: it takes
    the index of the old organism when that one is in the queue, and it goes
    to the end of the promotion set when the old organism is in the promotion
    set; the other organisms keep their order, and the number of adds is
    not changed. *)
Theorem replace_organism_epa_position
    (phase_diagram : list PDEntry → list Composition → option (PDEntry → Q))
    (h : Heap) (p : Pool) (old_org new_org : Ref) (cs : CompositionSpace) :
  objective_function cs = epa_objective →
  old_org ∈ to_list p →
  old_org ≠ new_org →
  ∃ h' p' l1 l2,
    replace_organism phase_diagram h p old_org new_org cs = OK (h', p')
    ∧ old_org ∉ l1
    ∧ ((promotion_set p = l1 ++ old_org :: l2
        ∧ promotion_set p' = l1 ++ l2 ++ [new_org]
        ∧ queue p' = queue p)
       ∨ (old_org ∉ promotion_set p
          ∧ queue p = l1 ++ old_org :: l2
          ∧ queue p' = l1 ++ new_org :: l2
          ∧ promotion_set p' = promotion_set p))
    ∧ num_adds p' = num_adds p
    ∧ length (to_list p') = length (to_list p)
    ∧ value (h' new_org) = epa (h new_org).
Proof.
  intros Hobj Hold Hne.
  destruct (replace_in_pool_member p old_org new_org Hold Hne)
    as (p1 & l1 & l2 & Hrep & Hl1 & Hcases).
  unfold replace_organism. rewrite Hobj. cbn [mbind result_bind].
  rewrite Hrep. cbn [mbind result_bind].
  eexists _, p1, l1, l2. split; [done|]. split; [done|]. split; [done|].
  split; [|split].
  - unfold replace_in_pool in Hrep.
    destruct (py_in old_org (promotion_set p)).
    + destruct (py_remove old_org (promotion_set p)); [|done].
      simpl in Hrep. by injection Hrep as <-.
    + destruct (py_in old_org (queue p)); [|by injection Hrep as <-].
      destruct (py_index old_org (queue p)); [|done]. simpl in Hrep.
      destruct (py_remove old_org _); [|done].
      simpl in Hrep. by injection Hrep as <-.
  - unfold to_list.
    destruct Hcases as [(Hps & Hps1 & Hq1)|(_ & Hq & Hq1 & Hps1)].
    + rewrite Hps, Hps1, Hq1. rewrite !length_app. simpl.
      rewrite ?length_app. simpl. lia.
    + rewrite Hq, Hq1, Hps1. rewrite !length_app. simpl. lia.
  - rewrite !value_set_is_active. apply value_set_value_eq.
Qed.

Lemma replace_organism_epa_position_witness :
  ∃ h' p' l1 l2,
    replace_organism flat_phase_diagram epa_heap epa_pool 1%nat 4%nat
      demo_epa_space = OK (h', p')
    ∧ ((promotion_set epa_pool = l1 ++ 1%nat :: l2
        ∧ promotion_set p' = l1 ++ l2 ++ [4%nat])
       ∨ (queue epa_pool = l1 ++ 1%nat :: l2
          ∧ queue p' = l1 ++ 4%nat :: l2)).
Proof.
  destruct (replace_organism_epa_position flat_phase_diagram epa_heap
              epa_pool 1%nat 4%nat demo_epa_space)
    as (h' & p' & l1 & l2 & Hrun & _ & Hcases & _); [done|compute_done|done|].
  exists h', p', l1, l2. split; [done|].
  destruct Hcases as [(H1 & H2 & _)|(_ & H1 & H2 & _)]; [by left|by right].
Defined.

(** X13: [replace_organism] does not sort: in a fixed-composition search the
    pool keeps its invariant when the new organism is not worse than an old
    organism of the promotion set, or not better than an old organism of
    the queue. *)
Theorem replace_organism_epa_invariant
    (phase_diagram : list PDEntry → list Composition → option (PDEntry → Q))
    (h : Heap) (p : Pool) (old_org new_org : Ref) (cs : CompositionSpace) :
  objective_function cs = epa_objective →
  epa_invariant h p →
  new_org ∉ to_list p →
  (old_org ∈ promotion_set p ∧ epa (h new_org) <= value (h old_org))
  ∨ (old_org ∉ promotion_set p ∧ old_org ∈ queue p
     ∧ value (h old_org) <= epa (h new_org)) →
  ∃ h' p', replace_organism phase_diagram h p old_org new_org cs = OK (h', p')
           ∧ epa_invariant h' p'.
Proof.
  intros Hobj Hinv Hnew Hcase.
  assert (Hold : old_org ∈ to_list p).
  { unfold to_list. apply elem_of_app. tauto. }
  assert (Hne : old_org ≠ new_org) by (intros ->; done).
  destruct (replace_in_pool_member p old_org new_org Hold Hne)
    as (p1 & l1 & l2 & Hrep & Hl1 & Hcases).
  unfold replace_organism. rewrite Hobj. cbn [mbind result_bind].
  rewrite Hrep. cbn [mbind result_bind].
  eexists _, p1. split; [done|].
  unfold to_list in Hnew. apply not_elem_of_app in Hnew as [Hnps Hnq].
  assert (Hval : ∀ r, r ≠ new_org →
            value (set_is_active
                     (set_is_active (set_value h new_org (epa (h new_org)))
                                    old_org false) new_org true r)
            = value (h r)).
  { intros r Hr. rewrite !value_set_is_active.
    by rewrite value_set_value_ne. }
  assert (Hvnew :
            value (set_is_active
                     (set_is_active (set_value h new_org (epa (h new_org)))
                                    old_org false) new_org true new_org)
            = epa (h new_org)).
  { rewrite !value_set_is_active. apply value_set_value_eq. }
  intros r q Hr Hq.
  destruct Hcases as [(Hps & Hps1 & Hq1)|(Hnotps & Hqs & Hq1 & Hps1)].
  - destruct Hcase as [[Hin Hle]|[Hnot _]].
    2:{ destruct Hnot. rewrite Hps. apply elem_of_app. right.
        apply list_elem_of_here. }
    rewrite Hq1 in Hq. rewrite Hps1 in Hr.
    assert (Hqne : q ≠ new_org) by (intros ->; done).
    rewrite (Hval q Hqne).
    rewrite app_assoc in Hr. apply elem_of_app in Hr as [Hr|Hr].
    + assert (Hrps : r ∈ promotion_set p).
      { rewrite Hps. apply elem_of_app in Hr as [?|?];
          apply elem_of_app; [by left|right; by apply list_elem_of_further]. }
      assert (Hrne : r ≠ new_org) by (intros ->; done).
      rewrite (Hval r Hrne). by apply Hinv.
    + apply list_elem_of_singleton in Hr as ->. rewrite Hvnew.
      specialize (Hinv old_org q Hin Hq). lra.
  - destruct Hcase as [[Hin _]|(_ & Hin & Hle)]; [done|].
    rewrite Hps1 in Hr. rewrite Hq1 in Hq.
    assert (Hrne : r ≠ new_org) by (intros ->; done).
    rewrite (Hval r Hrne).
    apply elem_of_app in Hq as [Hq|Hq];
      [|apply elem_of_cons in Hq as [->|Hq]].
    + assert (Hqq : q ∈ queue p).
      { rewrite Hqs. apply elem_of_app. by left. }
      assert (Hqne : q ≠ new_org) by (intros ->; done).
      rewrite (Hval q Hqne). by apply Hinv.
    + rewrite Hvnew. specialize (Hinv r old_org Hr Hin). lra.
    + assert (Hqq : q ∈ queue p).
      { rewrite Hqs. apply elem_of_app. right. by apply list_elem_of_further. }
      assert (Hqne : q ≠ new_org) by (intros ->; done).
      rewrite (Hval q Hqne). by apply Hinv.
Qed.

Lemma replace_organism_epa_invariant_witness :
  ∃ h' p', replace_organism flat_phase_diagram epa_heap epa_pool 2%nat 4%nat
             demo_epa_space = OK (h', p')
           ∧ epa_invariant h' p'.
Proof.
  apply replace_organism_epa_invariant.
  - reflexivity.
  - intros r q Hr Hq. apply list_elem_of_In in Hr, Hq. simpl in Hr, Hq.
    destruct Hr as [<-|[<-|[]]]; destruct Hq as [<-|[]]; by vm_compute.
  - compute_done.
  - left. split; [compute_done|by vm_compute].
Defined.

(** ** More on phase diagram searches *)

(** [get_worst_in_promotion_set] raises [IndexError] on an empty promotion
    set; otherwise it returns a member of the promotion set whose value no
    other member exceeds. *)
Theorem get_worst_in_promotion_set_worst (h : Heap) (p : Pool) :
  (promotion_set p = [] → get_worst_in_promotion_set h p = Raise IndexError)
  ∧ (promotion_set p ≠ [] →
     ∃ w, get_worst_in_promotion_set h p = OK w
          ∧ w ∈ promotion_set p
          ∧ ∀ r, r ∈ promotion_set p → value (h r) <= value (h w)).
Proof.
  split.
  - apply get_worst_in_promotion_set_empty.
  - apply get_worst_in_promotion_set_max.
Qed.

Lemma get_worst_in_promotion_set_worst_witness :
  get_worst_in_promotion_set epa_heap epa_pool = OK 2%nat
  ∧ ∀ r, r ∈ promotion_set epa_pool →
         value (epa_heap r) <= value (epa_heap 2%nat).
Proof.
  destruct (get_worst_in_promotion_set_worst epa_heap epa_pool) as [_ Hworst].
  destruct Hworst as (w & Hrun & _ & Hall); [done|].
  assert (Hw : w = 2%nat) by (vm_compute in Hrun; congruence). subst w.
  by split.
Defined.

(** [check_promotion_set_pd] never raises; the pool it returns holds the
    same organisms, has every organism below the threshold in the promotion
    set and every other one in the queue, and has the sizes, the selection
    parameters and the number of adds it had. *)
Theorem check_promotion_set_pd_reconciles (h : Heap) (p : Pool) :
  ∃ p', check_promotion_set_pd h p = OK p'
        ∧ pd_invariant h p'
        ∧ to_list p' ≡ₚ to_list p
        ∧ size p' = size p ∧ num_promoted p' = num_promoted p
        ∧ selection p' = selection p ∧ num_adds p' = num_adds p.
Proof.
  destruct (check_promotion_set_pd_invariant h p) as (p' & Hrun & Hinv & Hperm).
  exists p'. do 3 (split; [done|]).
  rewrite check_promotion_set_pd_result in Hrun. by injection Hrun as <-.
Qed.

Lemma filter_none {A : Type} (F : A → bool) (l : list A) :
  (∀ x, x ∈ l → F x = false) → List.filter F l = [].
Proof.
  induction l as [|x l IH]; intros Hall; simpl; [done|].
  rewrite (Hall x (list_elem_of_here _ _)). apply IH.
  intros y Hy. by apply Hall, list_elem_of_further.
Qed.

Lemma filter_all {A : Type} (F : A → bool) (l : list A) :
  (∀ x, x ∈ l → F x = true) → List.filter F l = l.
Proof.
  induction l as [|x l IH]; intros Hall; simpl; [done|].
  rewrite (Hall x (list_elem_of_here _ _)). f_equal. apply IH.
  intros y Hy. by apply Hall, list_elem_of_further.
Qed.

(** X16: [check_promotion_set_pd] leaves a pool as it is, order included, when
    no organism of the promotion set has a positive value and every
    organism of the queue is at or above the threshold. *)
Theorem check_promotion_set_pd_stable (h : Heap) (p : Pool) :
  (∀ r, r ∈ promotion_set p → value (h r) <= 0) →
  (∀ r, r ∈ queue p → hull_eps <= value (h r)) →
  check_promotion_set_pd h p = OK p.
Proof.
  intros Hps Hq. rewrite check_promotion_set_pd_result.
  assert (Hdem : List.filter (λ r, Qltb 0 (value (h r))) (promotion_set p)
                 = []).
  { apply filter_none. intros r Hr.
    destruct (Qltb 0 (value (h r))) eqn:E; [|done].
    apply Qltb_lt in E. specialize (Hps r Hr). lra. }
  assert (Hkept : List.filter (λ r, negb (Qltb 0 (value (h r))))
                              (promotion_set p) = promotion_set p).
  { apply filter_all. intros r Hr.
    destruct (Qltb 0 (value (h r))) eqn:E; [|done].
    apply Qltb_lt in E. specialize (Hps r Hr). lra. }
  rewrite Hdem, Hkept. simpl.
  assert (Hpro : List.filter (λ r, Qltb (value (h r)) hull_eps) (queue p)
                 = []).
  { apply filter_none. intros r Hr.
    destruct (Qltb (value (h r)) hull_eps) eqn:E; [|done].
    apply Qltb_lt in E. specialize (Hq r Hr). lra. }
  assert (Hstay : List.filter (λ r, negb (Qltb (value (h r)) hull_eps))
                              (queue p) = queue p).
  { apply filter_all. intros r Hr.
    destruct (Qltb (value (h r)) hull_eps) eqn:E; [|done].
    apply Qltb_lt in E. specialize (Hq r Hr). lra. }
  rewrite Hpro, Hstay, app_nil_r. by destruct p.
Qed.

Lemma check_promotion_set_pd_stable_witness :
  check_promotion_set_pd pd_heap pd_pool = OK pd_pool.
Proof.
  apply check_promotion_set_pd_stable.
  - intros r Hr. apply list_elem_of_singleton in Hr as ->. by vm_compute.
  - intros r Hr. apply list_elem_of_singleton in Hr as ->. by vm_compute.
Defined.

Lemma make_pdentries_get (h : Heap) (l : list Ref) (k : Z)
    (d : list (Z * PDEntry)) :
  let f := λ d organism,
             dict_set (id (h organism))
               (mkPDEntry (composition (h organism))
                          (total_energy (h organism))) d in
  (∃ r0, r0 ∈ l ∧ id (h r0) = k
         ∧ dict_get k (foldl f d l)
           = Some (mkPDEntry (composition (h r0)) (total_energy (h r0))))
  ∨ ((∀ r0, r0 ∈ l → id (h r0) ≠ k)
     ∧ dict_get k (foldl f d l) = dict_get k d).
Proof.
  intros f. revert d. induction l as [|x l IH]; intros d.
  - right. split; [by intros r0 ?%elem_of_nil|done].
  - simpl. destruct (IH (f d x)) as [(r0 & Hr0 & Hid & Hget)|[Hno Hget]].
    + left. exists r0. split; [by apply list_elem_of_further|done].
    + destruct (decide (id (h x) = k)) as [Hx|Hx].
      * left. exists x. split; [apply list_elem_of_here|]. split; [done|].
        rewrite Hget. unfold f. rewrite Hx. by rewrite dict_get_set_eq.
      * right. split.
        -- intros r0 Hr0. apply elem_of_cons in Hr0 as [->|Hr0]; auto.
        -- rewrite Hget. unfold f. by rewrite dict_get_set_ne.
Qed.

Lemma assign_pd_values_spec (values : list (Z * Q)) (h : Heap) (l : list Ref) :
  (∀ r, r ∈ l → is_Some (dict_get (id (h r)) values)) →
  ∃ h', foldlM (assign_pd_value values) h l = OK h'
        ∧ (∀ r, ∃ v, h' r = with_value v (h r))
        ∧ (∀ r, r ∉ l → h' r = h r)
        ∧ (∀ r, r ∈ l → dict_get (id (h r)) values = Some (value (h' r))).
Proof.
  revert h. induction l as [|x l IH]; intros h Hkeys; simpl.
  - exists h. split; [done|]. split; [|split].
    + intros r. exists (value (h r)). by destruct (h r).
    + done.
    + by intros r ?%elem_of_nil.
  - destruct (Hkeys x) as [v Hv]; [apply list_elem_of_here|].
    assert (Hstep : assign_pd_value values h x = OK (set_value h x v)).
    { unfold assign_pd_value. by rewrite Hv. }
    rewrite Hstep. simpl.
    assert (Hid : ∀ r, id (set_value h x v r) = id (h r)).
    { intros r. unfold set_value. by rewrite (update_preserves id). }
    destruct (IH (set_value h x v)) as (h' & Hrun & Hsame & Hout & Hin).
    { intros r Hr. rewrite Hid. apply Hkeys. by apply list_elem_of_further. }
    exists h'. split; [exact Hrun|]. split; [|split].
    + intros r. destruct (Hsame r) as [v' ->]. unfold set_value.
      rewrite update_lookup. destruct (decide (x = r)) as [->|_]; eauto.
    + intros r Hr. apply not_elem_of_cons in Hr as [Hne Hr].
      rewrite (Hout r Hr). unfold set_value. by rewrite update_ne.
    + intros r Hr. destruct (decide (r ∈ l)) as [Hl|Hl].
      * rewrite <- (Hid r). by apply Hin.
      * apply elem_of_cons in Hr as [->|Hr]; [|done].
        rewrite (Hout x Hl), value_set_value_eq. exact Hv.
Qed.

(** X17: [compute_pd_values] returns when the phase diagram can be built.  It
    then has written values only, and only those of the organisms of its
    list; the value written is the distance to the hull of an entry made
    from an organism of the list with the same id, which is the organism
    itself when the ids of the list are distinct. *)
Theorem compute_pd_values_by_id
    (phase_diagram : list PDEntry → list Composition → option (PDEntry → Q))
    (h : Heap) (l : list Ref) (cs : CompositionSpace)
    (get_e_above_hull : PDEntry → Q) :
  phase_diagram (make_pdentries h l).*2 (endpoints cs)
  = Some get_e_above_hull →
  ∃ h', compute_pd_values phase_diagram h l cs = OK h'
        ∧ (∀ r, ∃ v, h' r = with_value v (h r))
        ∧ (∀ r, r ∉ l → h' r = h r)
        ∧ (∀ r, r ∈ l →
             ∃ r0, r0 ∈ l ∧ id (h r0) = id (h r)
                   ∧ value (h' r)
                     = get_e_above_hull
                         (mkPDEntry (composition (h r0))
                                    (total_energy (h r0))))
        ∧ (NoDup (map (λ r, id (h r)) l) →
           ∀ r, r ∈ l →
             value (h' r)
             = get_e_above_hull
                 (mkPDEntry (composition (h r)) (total_energy (h r)))).
Proof.
  intros Hg. unfold compute_pd_values. rewrite Hg.
  destruct (assign_pd_values_spec
              ((λ kv : Z * PDEntry, (kv.1, get_e_above_hull kv.2))
                 <$> make_pdentries h l) h l)
    as (h' & Hrun & Hsame & Hout & Hin).
  { intros r Hr. rewrite dict_get_fmap. apply fmap_is_Some.
    by apply make_pdentries_keys. }
  exists h'. do 3 (split; [done|]).
  assert (Hval : ∀ r, r ∈ l →
            ∃ r0, r0 ∈ l ∧ id (h r0) = id (h r)
                  ∧ value (h' r)
                    = get_e_above_hull
                        (mkPDEntry (composition (h r0))
                                   (total_energy (h r0)))).
  { intros r Hr. specialize (Hin r Hr). rewrite dict_get_fmap in Hin.
    destruct (make_pdentries_get h l (id (h r)) [])
      as [(r0 & Hr0 & Hid & Hget)|[Hno _]].
    - exists r0. split; [done|]. split; [done|].
      unfold make_pdentries in Hin. rewrite Hget in Hin. simpl in Hin.
      by injection Hin as <-.
    - by destruct (Hno r Hr). }
  split; [exact Hval|].
  intros Hnd r Hr. destruct (Hval r Hr) as (r0 & Hr0 & Hid & ->).
  assert (r0 = r) as ->; [|done].
  apply list_elem_of_lookup in Hr0 as [i Hi], Hr as [j Hj].
  assert (i = j) as ->.
  { eapply NoDup_lookup; [exact Hnd| |].
    - change (map (λ r, id (h r)) l) with ((λ r, id (h r)) <$> l).
      rewrite list_lookup_fmap, Hi. simpl. by rewrite Hid.
    - change (map (λ r, id (h r)) l) with ((λ r, id (h r)) <$> l).
      by rewrite list_lookup_fmap, Hj. }
  congruence.
Qed.

Lemma compute_pd_values_by_id_witness :
  ∃ h', compute_pd_values tiny_phase_diagram pd_heap [1%nat; 2%nat; 3%nat]
          demo_pd_space = OK h'
        ∧ value (h' 3%nat) = 1 # 2000000000.
Proof.
  destruct (compute_pd_values_by_id tiny_phase_diagram pd_heap
              [1%nat; 2%nat; 3%nat] demo_pd_space
              (λ e, if Qeqb (entry_energy e) 7 then 1 # 2000000000
                    else if Qeqb (entry_energy e) 9 then 1 else 0))
    as (h' & Hrun & _ & _ & _ & Hval); [reflexivity|].
  exists h'. split; [done|].
  rewrite Hval; [reflexivity|compute_done|compute_done].
Defined.

(** X18: When the phase diagram cannot be built [compute_pd_values] raises, and
    so do [add_organism] and [replace_organism] in a phase diagram search;
    only [add_initial_population] turns the exception into an exit. *)
Theorem phase_diagram_failure
    (phase_diagram : list PDEntry → list Composition → option (PDEntry → Q))
    (h : Heap) (p : Pool) (old_org new_org : Ref) (cs : CompositionSpace) :
  objective_function cs = pd_objective →
  (∀ entries, phase_diagram entries (endpoints cs) = None) →
  compute_pd_values phase_diagram h (to_list p) cs = Raise PhaseDiagramError
  ∧ add_organism phase_diagram h p new_org cs = Raise PhaseDiagramError
  ∧ replace_organism phase_diagram h p old_org new_org cs
    = Raise PhaseDiagramError
  ∧ add_initial_population phase_diagram h p (to_list p) cs = Raise SystemExit.
Proof.
  intros Hobj Hfail. split; [|split; [|split]].
  - by apply compute_pd_values_Raise.
  - unfold add_organism. rewrite Hobj.
    by rewrite compute_pd_values_Raise.
  - unfold replace_organism. rewrite Hobj.
    by rewrite compute_pd_values_Raise.
  - unfold add_initial_population. rewrite Hobj.
    by rewrite compute_pd_values_Raise.
Qed.

Lemma phase_diagram_failure_witness :
  add_organism no_phase_diagram pd_heap pd_pool 3%nat demo_pd_space
  = Raise PhaseDiagramError.
Proof.
  by destruct (phase_diagram_failure no_phase_diagram pd_heap pd_pool 1%nat
                 3%nat demo_pd_space) as (_ & H & _).
Defined.

Lemma replace_organism_pd_invariant_witness :
  ∃ h' p', replace_organism tiny_phase_diagram pd_heap pd_pool 2%nat 3%nat
             demo_pd_space = OK (h', p')
           ∧ pd_invariant h' p'.
Proof.
  apply replace_organism_pd_invariant; [reflexivity|by eexists].
Defined.

Lemma add_organism_pd_invariant_iff_witness :
  ∃ h' p', add_organism flat_phase_diagram pd_heap pd_pool 3%nat
             demo_pd_space = OK (h', p')
           ∧ (pd_invariant h' p' ↔
              value (h' 3%nat) == 0 ∨ hull_eps <= value (h' 3%nat)).
Proof.
  apply add_organism_pd_invariant_iff; [reflexivity|by eexists].
Defined.

Lemma select_organisms_returns_witness :
  is_Some (select_organisms selection_heap demo_pool 1 [1 # 2]).
Proof.
  apply (select_organisms_returns selection_heap demo_pool 1 [1 # 2]
           [2%nat]).
  - simpl. lia.
  - compute_done.
  - intros r Hr. apply list_elem_of_singleton in Hr as ->.
    split; [compute_done|].
    exists (1 # 2). split; [apply list_elem_of_here|by vm_compute].
Defined.

(** ** Endpoints in the initial population *)

Lemma flag_set_loop {A : Type} (F : A → bool) (l : list A) (flag : bool) :
  foldl (λ (flag : bool) x, if F x then true else flag) flag l = true
  ↔ flag = true ∨ ∃ x, x ∈ l ∧ F x = true.
Proof.
  revert flag. induction l as [|x l IH]; intros flag; simpl.
  - split; [by left|]. intros [?|(x & ?%elem_of_nil & _)]; done.
  - rewrite IH. split.
    + intros [Hx|(y & Hy & HF)].
      * destruct (F x) eqn:E; [|by left].
        right. exists x. split; [apply list_elem_of_here|done].
      * right. exists y. split; [by apply list_elem_of_further|done].
    + intros [->|(y & Hy & HF)].
      * left. by destruct (F x).
      * apply elem_of_cons in Hy as [->|Hy]; [left; by rewrite HF|].
        right. eauto.
Qed.

Lemma flag_clear_loop {A : Type} (F : A → bool) (l : list A) (flag : bool) :
  foldl (λ (flag : bool) x, if F x then false else flag) flag l = true
  ↔ flag = true ∧ ∀ x, x ∈ l → F x = false.
Proof.
  revert flag. induction l as [|x l IH]; intros flag; simpl.
  - split; [|by intros [? _]]. intros ->. split; [done|].
    by intros x ?%elem_of_nil.
  - rewrite IH. split.
    + intros [Hx Hall]. destruct (F x) eqn:E; [done|]. split; [done|].
      intros y Hy. apply elem_of_cons in Hy as [->|Hy]; auto.
    + intros [-> Hall]. split.
      * by rewrite (Hall x (list_elem_of_here _ _)).
      * intros y Hy. by apply Hall, list_elem_of_further.
Qed.

(** [has_endpoints] answers [True] exactly when every endpoint of the
    composition space has an organism of the initial population at it; so
    it answers [True] for a composition space without endpoints and [False]
    for an empty initial population and a space with an endpoint. *)
Theorem has_endpoints_iff (at_endpoint : Composition → Composition → bool)
    (h : Heap) (initial_population : list Ref) (cs : CompositionSpace) :
  InitialPopulation.has_endpoints at_endpoint h initial_population cs = true
  ↔ ∀ endpoint, endpoint ∈ endpoints cs →
      ∃ organism, organism ∈ initial_population
                  ∧ at_endpoint endpoint (composition (h organism)) = true.
Proof.
  unfold InitialPopulation.has_endpoints.
  induction (endpoints cs) as [|e l IH]; simpl.
  - split; [|done]. by intros _ e ?%elem_of_nil.
  - pose proof (flag_set_loop (λ organism,
                  at_endpoint e (composition (h organism)))
                  initial_population false) as Hflag.
    destruct (foldl _ false initial_population) eqn:Hfold; simpl.
    + rewrite IH. split.
      * intros Hall e' He'. apply elem_of_cons in He' as [->|He']; [|auto].
        destruct Hflag as [Hflag _].
        by destruct (Hflag eq_refl) as [?|?].
      * intros Hall e' He'. by apply Hall, list_elem_of_further.
    + split; [done|]. intros Hall.
      destruct (Hall e (list_elem_of_here _ _)) as (o & Ho & Hat).
      apply Hflag. right. eauto.
Qed.

(** [has_non_endpoint] answers [True] exactly when some organism of the
    initial population is at none of the endpoints. *)
Theorem has_non_endpoint_iff (at_endpoint : Composition → Composition → bool)
    (h : Heap) (initial_population : list Ref) (cs : CompositionSpace) :
  InitialPopulation.has_non_endpoint at_endpoint h initial_population cs = true
  ↔ ∃ organism, organism ∈ initial_population
                ∧ ∀ endpoint, endpoint ∈ endpoints cs →
                    at_endpoint endpoint (composition (h organism)) = false.
Proof.
  unfold InitialPopulation.has_non_endpoint.
  induction initial_population as [|o l IH]; simpl.
  - split; [done|]. by intros (o & ?%elem_of_nil & _).
  - pose proof (flag_clear_loop (λ endpoint,
                  at_endpoint endpoint (composition (h o)))
                  (endpoints cs) true) as Hflag.
    destruct (foldl _ true (endpoints cs)) eqn:Hfold.
    + split; [intros _|done]. exists o. split; [apply list_elem_of_here|].
      by apply Hflag.
    + rewrite IH. split.
      * intros (o' & Ho' & Hall). exists o'.
        split; [by apply list_elem_of_further|done].
      * intros (o' & Ho' & Hall).
        apply elem_of_cons in Ho' as [->|Ho']; [|eauto].
        assert (false = true); [|done]. by apply Hflag.
Qed.

(** ** Summaries *)

(** X2: [compute_fitnesses] writes fitnesses only and
    [compute_selection_probs] writes selection probabilities and interval
    starts only, and both write to organisms of the pool only: every other
    field, and every organism outside the pool, is as before. *)
Theorem fitness_selection_frame (h h' : Heap) (p : Pool) :
  (compute_fitnesses h p = OK h' →
   (∀ r, ∃ f, h' r = with_fitness f (h r))
   ∧ (∀ r, r ∉ to_list p → h' r = h r))
  ∧ (compute_selection_probs h p = OK h' →
     (∀ r, ∃ a b, h' r = with_selection a b (h r))
     ∧ (∀ r, r ∉ to_list p → h' r = h r)).
Proof.
  split.
  - apply compute_fitnesses_frame_aux.
  - apply compute_selection_probs_frame_aux.
Qed.

Lemma fitness_selection_frame_witness :
  (∀ r, r ∉ to_list demo_pool → fitness_heap r = demo_heap r)
  ∧ (∀ r, r ∉ to_list demo_pool → selection_heap r = fitness_heap r).
Proof.
  destruct (fitness_selection_frame demo_heap fitness_heap demo_pool)
    as [Hfit _].
  destruct (fitness_selection_frame fitness_heap selection_heap demo_pool)
    as [_ Hsel].
  split.
  - by apply Hfit.
  - by apply Hsel.
Defined.

(** X7: [get_best_in_pool] looks at the promotion set only and
    [get_worst_in_pool] at the queue only.  Each raises [IndexError] when
    its container is empty; otherwise the first returns a member of the
    promotion set with the smallest value there, the second a member of the
    queue with the largest value there, and under the fixed-composition
    invariant these are the best and the worst organism of the whole pool. *)
Theorem pool_extremes (h : Heap) (p : Pool) :
  ((promotion_set p = [] → get_best_in_pool h p = Raise IndexError)
   ∧ (promotion_set p ≠ [] →
      ∃ b, get_best_in_pool h p = OK b
           ∧ b ∈ promotion_set p
           ∧ (∀ r, r ∈ promotion_set p → value (h b) <= value (h r))
           ∧ (epa_invariant h p →
              ∀ r, r ∈ to_list p → value (h b) <= value (h r))))
  ∧ ((queue p = [] → get_worst_in_pool h p = Raise IndexError)
     ∧ (queue p ≠ [] →
        ∃ w, get_worst_in_pool h p = OK w
             ∧ w ∈ queue p
             ∧ (∀ r, r ∈ queue p → value (h r) <= value (h w))
             ∧ (epa_invariant h p →
                ∀ r, r ∈ to_list p → value (h r) <= value (h w)))).
Proof.
  split.
  - apply get_best_in_pool_min.
  - apply get_worst_in_pool_max.
Qed.

Lemma pool_extremes_witness :
  get_best_in_pool epa_heap epa_pool = OK 1%nat
  ∧ get_worst_in_pool epa_heap epa_pool = OK 3%nat
  ∧ get_best_in_pool epa_heap empty_pool = Raise IndexError
  ∧ get_worst_in_pool epa_heap empty_pool = Raise IndexError.
Proof.
  destruct (pool_extremes epa_heap epa_pool) as [[_ Hbest] [_ Hworst]].
  destruct (pool_extremes epa_heap empty_pool) as [[Hnob _] [Hnow _]].
  destruct Hbest as (b & Hb & _); [done|].
  destruct Hworst as (w & Hw & _); [done|].
  split; [|split; [|split]].
  - rewrite Hb. vm_compute in Hb. congruence.
  - rewrite Hw. vm_compute in Hw. congruence.
  - by apply Hnob.
  - by apply Hnow.
Defined.

(** X29: [get_all_pairs] returns [n (n - 1) / 2] pairs for [n] elements, each
    one joining the symbols at two positions [i < j] of the list; when the
    list has no repetition, as the list made from a set that
    [get_all_elements] returns, the two symbols differ, so that there is no
    self-pair. *)
Theorem get_all_pairs_pairs (elements : list string) :
  (2 * length (get_all_pairs elements)
   = length elements * (length elements - 1))%nat
  ∧ (NoDup elements →
     ∀ pair, pair ∈ get_all_pairs elements →
       ∃ i j a b,
         (i < j)%nat ∧ elements !! i = Some a ∧ elements !! j = Some b
         ∧ pair = a +:+ " " +:+ b ∧ a ≠ b).
Proof.
  split.
  - apply get_all_pairs_length.
  - intros Hnd pair. by apply get_all_pairs_no_self_pair.
Qed.

Lemma get_all_pairs_pairs_witness :
  (2 * length (get_all_pairs ["Fe"; "O"; "Li"]) = 3 * (3 - 1))%nat
  ∧ ∃ i j a b,
      (i < j)%nat ∧ ["Fe"; "O"; "Li"] !! i = Some a
      ∧ ["Fe"; "O"; "Li"] !! j = Some b
      ∧ "Fe Li" = a +:+ " " +:+ b ∧ a ≠ b.
Proof.
  destruct (get_all_pairs_pairs ["Fe"; "O"; "Li"]) as [Hlen Hpairs].
  split; [exact Hlen|].
  apply Hpairs; compute_done.
Defined.

(** X30: [has_endpoints] answers [True] exactly when every endpoint of the
    composition space has an organism of the initial population at it, and
    [has_non_endpoint] answers [True] exactly when some organism of the
    initial population is at none of the endpoints. *)
Theorem initial_population_endpoints
    (at_endpoint : Composition → Composition → bool)
    (h : Heap) (initial_population : list Ref) (cs : CompositionSpace) :
  (InitialPopulation.has_endpoints at_endpoint h initial_population cs = true
   ↔ ∀ endpoint, endpoint ∈ endpoints cs →
       ∃ organism, organism ∈ initial_population
                   ∧ at_endpoint endpoint (composition (h organism)) = true)
  ∧ (InitialPopulation.has_non_endpoint at_endpoint h initial_population cs
     = true
     ↔ ∃ organism, organism ∈ initial_population
                   ∧ ∀ endpoint, endpoint ∈ endpoints cs →
                       at_endpoint endpoint (composition (h organism))
                       = false).
Proof.
  split.
  - apply has_endpoints_iff.
  - apply has_non_endpoint_iff.
Qed.

(** ** Fitnesses and the reference subset of the specification *)








